(** * Kernel Matching Pursuit ([lightning/kmp.py])

    A shallow embedding of the greedy pursuit loop [_fit_generator], its
    loss strategy [SquaredLoss], the drivers [_fit_last] and
    [_fit_multi_with_validation], and the facade steps [__init__],
    [_pre_fit], [create_components], [_post_fit] and
    [decision_function].

    The source computes on [numpy] arrays of [float64].  The embedding is
    written once, over an interface [Num] of the scalar operations the
    source uses, and is read at two instances:

    - [float64]: the kernel's primitive binary64 floats, which round as
      [numpy] does; every definition evaluates there;
    - [exact]: the real numbers, i.e. the same program with every
      operation exact.

    Sums ([np.sum], [np.dot]) accumulate left to right from zero.

    Arrays are lists.  An operation on two arrays is written with
    [map2], which is what [numpy] computes when their lengths are equal;
    on other lengths [numpy] broadcasts or raises, and the statements
    about runs are made for conforming shapes ([conforming],
    [validation_conforms]), where it does neither. *)

From Stdlib Require Import ZArith List Bool Lia Sorted.
From Stdlib Require String.
Import String.StringSyntax.
Delimit Scope string_scope with string.
From Stdlib Require Import Floats.
From Stdlib Require Import Reals Lra Psatz.
From Stdlib Require QArith.
Import ListNotations.

Set Implicit Arguments.

(** ** Python results *)

(** The exceptions the modelled code can raise. *)
Inductive exn : Set :=
| AttributeError
| ValueError
| TypeError
| OverflowError
| ZeroDivisionError
| IndexError
| UnboundLocalError.

Inductive result (A : Type) : Type :=
| Ok (a : A)
| Raise (e : exn).

Arguments Ok {A} a.
Arguments Raise {A} e.

Definition bind {A B : Type} (r : result A) (k : A -> result B) : result B :=
  match r with
  | Ok a => k a
  | Raise e => Raise e
  end.

Notation "x <- r ;; k" := (bind r (fun x => k))
  (at level 61, r at next level, right associativity).
Notation "' p <- r ;; k" := (bind r (fun p => k))
  (at level 61, p pattern, r at next level, right associativity).

(** ** Scalars *)

(** The scalar operations of the source.  [leb_neg_inf x] is [x <= -inf]
    and [neg_inf_ltb x] is [-inf < x]: the carrier itself need not contain
    an infinity.  [to_int] is Python's [int(x)], [of_int] is [float(n)]. *)
Class Num (T : Type) : Type := {
  zero : T;
  add : T -> T -> T;
  sub : T -> T -> T;
  mul : T -> T -> T;
  div : T -> T -> T;
  neg : T -> T;
  abs : T -> T;
  sqrt : T -> T;
  leb : T -> T -> bool;
  ltb : T -> T -> bool;
  eqb : T -> T -> bool;
  isnan : T -> bool;
  leb_neg_inf : T -> bool;
  neg_inf_ltb : T -> bool;
  of_int : Z -> T;
  to_int : T -> result Z
}.

(** *** binary64 *)

(** [int(x)] of a float: truncation towards zero. *)
Definition float_to_int (x : float) : result Z :=
  match Prim2SF x with
  | S754_zero _ => Ok 0%Z
  | S754_infinity _ => Raise OverflowError
  | S754_nan => Raise ValueError
  | S754_finite s m e =>
      let a := Z.shiftl (Z.pos m) e in
      Ok (if s then (- a)%Z else a)
  end.

(** [float(n)]: the integer rounded to the nearest binary64. *)
Definition float_of_int (n : Z) : float :=
  SF2Prim (binary_normalize prec emax n 0 false).

#[export] Instance float64 : Num float := {
  zero := 0%float;
  add := PrimFloat.add;
  sub := PrimFloat.sub;
  mul := PrimFloat.mul;
  div := PrimFloat.div;
  neg := PrimFloat.opp;
  abs := PrimFloat.abs;
  sqrt := PrimFloat.sqrt;
  leb := PrimFloat.leb;
  ltb := PrimFloat.ltb;
  eqb := PrimFloat.eqb;
  isnan := PrimFloat.is_nan;
  leb_neg_inf := fun x => PrimFloat.leb x neg_infinity;
  neg_inf_ltb := fun x => PrimFloat.ltb neg_infinity x;
  of_int := float_of_int;
  to_int := float_to_int
}.

(** *** Exact arithmetic *)

Definition Rleb (x y : R) : bool := if Rle_dec x y then true else false.
Definition Rltb (x y : R) : bool := if Rlt_dec x y then true else false.
Definition Reqb (x y : R) : bool := if Req_dec_T x y then true else false.

(** Truncation towards zero. *)
Definition Rtrunc (x : R) : Z :=
  if Rle_dec 0 x then Int_part x else (- Int_part (- x))%Z.

#[export] Instance exact : Num R := {
  zero := 0%R;
  add := Rplus;
  sub := Rminus;
  mul := Rmult;
  div := Rdiv;
  neg := Ropp;
  abs := Rabs;
  sqrt := R_sqrt.sqrt;
  leb := Rleb;
  ltb := Rltb;
  eqb := Reqb;
  isnan := fun _ => false;
  leb_neg_inf := fun _ => false;
  neg_inf_ltb := fun _ => true;
  of_int := IZR;
  to_int := fun x => Ok (Rtrunc x)
}.

(** ** Arrays *)

Section Arrays.
Context {T : Type} {N : Num T}.

(** A one-dimensional array. *)
Definition vec : Type := list T.

(** A two-dimensional array, stored by rows as [numpy] does, with its
    shape: a matrix with no row still has a number of columns. *)
Record ndarray2 : Type := {
  shape0 : nat;
  shape1 : nat;
  rows : list vec
}.

Definition well_shaped (M : ndarray2) : Prop :=
  length (rows M) = shape0 M /\
  Forall (fun r => length r = shape1 M) (rows M).

Fixpoint map2 {A B C : Type} (f : A -> B -> C) (u : list A) (v : list B)
  : list C :=
  match u, v with
  | a :: u', b :: v' => f a b :: map2 f u' v'
  | _, _ => []
  end.

(** [np.zeros(n)] *)
Definition zeros (n : nat) : vec := repeat zero n.

(** [np.sum(v)] *)
Definition vsum (v : vec) : T := fold_left add v zero.

(** [np.dot(u, v)] of two vectors *)
Definition dot (u v : vec) : T := vsum (map2 mul u v).

(** [K[:, j]] *)
Definition column (K : ndarray2) (j : nat) : vec :=
  map (fun r => nth j r zero) (rows K).

(** [np.dot(K.T, r)] *)
Definition dot_T (K : ndarray2) (r : vec) : vec :=
  map (fun j => dot (column K j) r) (seq 0 (shape1 K)).

(** [l[i] = x] *)
Fixpoint set_at {A : Type} (l : list A) (i : nat) (x : A) : list A :=
  match l, i with
  | [], _ => []
  | _ :: l', O => x :: l'
  | a :: l', S i' => a :: set_at l' i' x
  end.

(** [v[mask]]: the entries where the mask holds, in order. *)
Fixpoint select {A : Type} (v : list A) (mask : list bool) : list A :=
  match v, mask with
  | a :: v', b :: mask' =>
      if b then a :: select v' mask' else select v' mask'
  | _, _ => []
  end.

Definition count_true (mask : list bool) : nat :=
  length (filter (fun b => b) mask).

(** [K[:, mask]] *)
Definition columns_where (K : ndarray2) (mask : list bool) : ndarray2 :=
  {| shape0 := shape0 K;
     shape1 := count_true mask;
     rows := map (fun r => select r mask) (rows K) |}.

Fixpoint scatter (v : vec) (mask : list bool) (vals : vec) : vec :=
  match v, mask with
  | a :: v', true :: mask' =>
      match vals with
      | x :: vals' => x :: scatter v' mask' vals'
      | [] => a :: scatter v' mask' []
      end
  | a :: v', false :: mask' => a :: scatter v' mask' vals
  | _, _ => v
  end.

(** [v[mask] = vals]: one value is broadcast, as many values as the mask
    has true entries are written in order, anything else is refused. *)
Definition mask_assign (v : vec) (mask : list bool) (vals : vec)
  : result vec :=
  match vals with
  | [x] => Ok (map2 (fun a (b : bool) => if b then x else a) v mask)
  | _ => if Nat.eqb (length vals) (count_true mask)
         then Ok (scatter v mask vals)
         else Raise ValueError
  end.

(** *** Scores and [np.argmax] *)

(** An entry of [abs_dots]: a value, or the [-np.inf] written over the
    entries already selected. *)
Inductive masked : Type :=
| NegInf
| Val (x : T).

(** [a <= b] *)
Definition masked_leb (a b : masked) : bool :=
  match a, b with
  | NegInf, NegInf => true
  | NegInf, Val y => negb (isnan y)
  | Val x, NegInf => leb_neg_inf x
  | Val x, Val y => leb x y
  end.

(** [a > b] *)
Definition masked_gtb (a : T) (b : masked) : bool :=
  match b with
  | NegInf => neg_inf_ltb a
  | Val y => ltb y a
  end.

Definition masked_isnan (a : masked) : bool :=
  match a with
  | NegInf => false
  | Val x => isnan x
  end.

(** The entry was not overwritten with [-np.inf]. *)
Definition is_val (x : masked) : bool :=
  match x with Val _ => true | NegInf => false end.

(** A value that is not [<= -inf]. *)
Definition above (x : masked) : Prop :=
  match x with Val v => leb_neg_inf v = false | NegInf => True end.

(** [abs_dots[selected] = -np.inf] *)
Definition mask_neg_inf (abs_dots : vec) (selected : list bool)
  : list masked :=
  map2 (fun x (s : bool) => if s then NegInf else Val x) abs_dots selected.

(** The scan of [np.argmax] from position [i], with the running maximum
    [mp] found at [best]: a later entry replaces it when it is not
    [<= mp], and a NaN ends the scan. *)
Fixpoint argmax_scan (mp : masked) (best i : nat) (l : list masked) : nat :=
  match l with
  | [] => best
  | x :: l' =>
      if negb (masked_leb x mp)
      then if masked_isnan x then i else argmax_scan x i (S i) l'
      else argmax_scan mp best (S i) l'
  end.

(** [np.argmax(l)]: the first index that holds the maximum, the first
    NaN if there is one; an empty array is refused. *)
Definition argmax (l : list masked) : result nat :=
  match l with
  | [] => Raise ValueError
  | x :: l' => if masked_isnan x then Ok O else Ok (argmax_scan x 0 1 l')
  end.

End Arrays.

Arguments ndarray2 T : clear implicits.
Arguments vec T : clear implicits.
Arguments masked T : clear implicits.

(** ** The pursuit loop *)

Section Pursuit.
Context {T : Type} {N : Num T}.

(** The loss strategy: an object with the two methods the loop calls. *)
Record Loss : Type := {
  negative_gradient : vec T -> vec T -> vec T;
  line_search : vec T -> vec T -> vec T -> T
}.

(** [class SquaredLoss] *)
Definition SquaredLoss : Loss := {|
  negative_gradient := fun y_true y_pred => map2 sub y_true y_pred;
  line_search := fun y y_pred column =>
    let squared_norm := vsum (map (fun c => mul c c) column) in
    let residuals := map2 sub y y_pred in
    div (dot column residuals) squared_norm
|}.

(** The regressor used by a refit, a collaborator: what [coef_.ravel()]
    and [decision_function(K_subset)] return once [fit(K_subset, y)] has
    run. *)
Record Estimator : Type := {
  est_coef_ : ndarray2 T -> vec T -> vec T;
  est_decision_function : ndarray2 T -> vec T -> vec T
}.

Variable estimator : Estimator.
Variable loss : option Loss.
Variable K : ndarray2 T.
Variable n_nonzero_coefs : Z.
Variable norms : vec T.
Variable n_refit : Z.
Variable check_duplicates : bool.

(** The frame of a suspended [_fit_generator]: its target [y], the next
    value of the loop variable [i], and the arrays it mutates.
    [residuals] is read only when there is no loss. *)
Record frame : Type := {
  f_y : vec T;
  f_i : Z;
  f_coef : vec T;
  f_selected : list bool;
  f_y_pred : vec T;
  f_residuals : vec T
}.

(** [_fit_generator(estimator, loss, K, y, ...)]: the statements before
    the loop. *)
Definition _fit_generator (y : vec T) : frame :=
  let n_samples := shape0 K in
  let n_components := shape1 K in
  {| f_y := y;
     f_i := 1;
     f_coef := zeros n_components;
     f_selected := repeat false n_components;
     f_y_pred := zeros n_samples;
     f_residuals := match loss with None => y | Some _ => [] end |}.

(** The normalised correlations [dots] of the loop body. *)
Definition correlations (residuals : vec T) : vec T :=
  map2 div (dot_T K residuals) norms.

(** "select best basis": [abs_dots], masked when duplicates are
    checked, and its [np.argmax]. *)
Definition select_best (dots : vec T) (selected : list bool) : result nat :=
  let abs_dots := map abs dots in
  let scores :=
    if check_duplicates then mask_neg_inf abs_dots selected
    else map (@Val T) abs_dots in
  argmax scores.

(** The body of the loop at iteration [i]. *)
Definition iteration (i : Z) (s : frame) : result frame :=
  let y := f_y s in
  (* compute pseudo-residuals if needed *)
  let residuals :=
    match loss with
    | Some l => negative_gradient l y (f_y_pred s)
    | None => f_residuals s
    end in
  (* select best basis *)
  let dots := correlations residuals in
  best <- select_best dots (f_selected s) ;;
  let selected := set_at (f_selected s) best true in
  if negb (n_refit =? 0)%Z && (i mod n_refit =? 0)%Z then
    (* fit the selected coefficient and the previous ones too *)
    let K_subset := columns_where K selected in
    coef <- mask_assign (f_coef s) selected (est_coef_ estimator K_subset y) ;;
    let y_pred := est_decision_function estimator K_subset y in
    let residuals :=
      match loss with
      | None => map2 sub y y_pred
      | Some _ => residuals
      end in
    Ok {| f_y := y; f_i := i; f_coef := coef; f_selected := selected;
          f_y_pred := y_pred; f_residuals := residuals |}
  else
    (* find coefficient for the selected basis only *)
    let alpha :=
      match loss with
      | None => div (nth best dots zero) (nth best norms zero)
      | Some l => line_search l y (f_y_pred s) (column K best)
      end in
    let coef := set_at (f_coef s) best (add (nth best (f_coef s) zero) alpha) in
    let weighted_basis := map (mul alpha) (column K best) in
    let y_pred := map2 add (f_y_pred s) weighted_basis in
    let residuals :=
      match loss with
      | None => map2 sub residuals weighted_basis
      | Some _ => residuals
      end in
    Ok {| f_y := y; f_i := i; f_coef := coef; f_selected := selected;
          f_y_pred := y_pred; f_residuals := residuals |}.

(** What [it.next()] does. *)
Inductive step : Type :=
| Yield (coef : vec T) (y_pred : vec T) (g : frame)
| StopIteration
| Throw (e : exn).

(** [it.next()]: the loop [for i in range(1, n_nonzero_coefs + 1)] runs
    its body once and suspends at [yield coef, y_pred]. *)
Definition next (g : frame) : step :=
  if (n_nonzero_coefs <? f_i g)%Z then StopIteration
  else
    match iteration (f_i g) g with
    | Ok s =>
        Yield (f_coef s) (f_y_pred s)
          {| f_y := f_y s; f_i := (f_i g + 1)%Z; f_coef := f_coef s;
             f_selected := f_selected s; f_y_pred := f_y_pred s;
             f_residuals := f_residuals s |}
    | Raise e => Throw e
    end.

(** The pairs a generator yields until it stops or raises, the consumer
    calling [next] at most [fuel] times. *)
Fixpoint yields (fuel : nat) (g : frame) : list (vec T * vec T) :=
  match fuel with
  | O => []
  | S fuel' =>
      match next g with
      | Yield coef y_pred g' => (coef, y_pred) :: yields fuel' g'
      | StopIteration => []
      | Throw _ => []
      end
  end.

(** The loop [for coef, y_pred in g: pass] of [_fit_last] followed by
    [return coef]; [None] when [fuel] calls of [next] did not exhaust
    the generator. *)
Fixpoint drain (fuel : nat) (g : frame) (coef : option (vec T))
  : option (result (vec T)) :=
  match fuel with
  | O => None
  | S fuel' =>
      match next g with
      | Yield coef' _ g' => drain fuel' g' (Some coef')
      | StopIteration =>
          Some (match coef with
                | Some c => Ok c
                | None => Raise UnboundLocalError
                end)
      | Throw e => Some (Raise e)
      end
  end.

(** The frame after [k] calls of [next] that all yielded. *)
Fixpoint advance (k : nat) (g : frame) : option frame :=
  match k with
  | O => Some g
  | S k' =>
      match next g with
      | Yield _ _ g' => advance k' g'
      | _ => None
      end
  end.

(** The arrays of a frame have one entry per component. *)
Definition frame_ok (g : frame) : Prop :=
  length (f_selected g) = shape1 K /\ length (f_coef g) = shape1 K.

(** The iterations a generator still has to run. *)
Definition remaining (g : frame) : nat :=
  Z.to_nat (n_nonzero_coefs + 1 - f_i g).

(** After [k] line-search iterations: at most [k] indices are selected,
    exactly [k] when duplicates are checked and [k] does not exceed the
    number of components, and a coefficient that was never selected is
    still the initial zero. *)
Definition sparse (k : nat) (g : frame) : Prop :=
  frame_ok g /\
  count_true (f_selected g) <= k /\
  (check_duplicates = true -> k <= shape1 K -> count_true (f_selected g) = k) /\
  (forall j, nth j (f_selected g) false = false -> nth j (f_coef g) zero = zero).

(** The target, the loop variable and the length of the prediction
    after [k] iterations. *)
Definition on_target (y : vec T) (k : nat) (g : frame) : Prop :=
  f_y g = y /\ f_i g = (Z.of_nat k + 1)%Z /\
  length (f_y_pred g) = shape0 K.

(** The calls of [next] a fresh generator needs to stop. *)
Definition budget_fuel : nat := S (Z.to_nat n_nonzero_coefs).

(** [_fit_last(estimator, loss, K, y, ...)] *)
Definition _fit_last (y : vec T) : option (result (vec T)) :=
  drain budget_fuel (_fit_generator y) None.

(** The coefficient trajectory of a full run. *)
Definition trajectory (y : vec T) : list (vec T * vec T) :=
  yields budget_fuel (_fit_generator y).

End Pursuit.

Arguments step T : clear implicits.
Arguments frame T : clear implicits.
Arguments Loss T : clear implicits.
Arguments Estimator T : clear implicits.

(** ** The drivers over all target columns *)

Section Orchestrator.
Context {T : Type} {N : Num T}.

(** The last branch of [_score], [-np.mean((y_true - y_pred) ** 2)], for
    a one-dimensional [y_true]: it is broadcast along the rows of
    [y_pred], an axis of length one being stretched.  Lengths that
    numpy refuses to broadcast are read with the default [zero]. *)
Definition regression_score (y_true : vec T) (y_pred : list (vec T)) : T :=
  let width := Nat.max (length y_true) (length (hd [] y_pred)) in
  let at_ (v : vec T) (b : nat) :=
    nth (if (length v =? 1)%nat then O else b) v zero in
  let squares :=
    flat_map
      (fun r =>
         map (fun b => let d := sub (at_ y_true b) (at_ r b) in mul d d)
             (seq 0 width))
      y_pred in
  neg (div (vsum squares) (of_int (Z.of_nat (length squares)))).

(** The targets as the caller gave them ([y], [y_val]): labels or values.
    [_score] dispatches on [score_func] and on the label binarizer, both
    collaborators; it is taken with those fixed.  Its value is a [numpy]
    float, whose division by zero gives an infinity or NaN and does not
    raise. *)
Variable Tgt : Type.
Variable _score : Tgt -> list (vec T) -> T.

Variable estimator : Estimator T.
Variable loss : option (Loss T).
Variable K : ndarray2 T.
Variable n_nonzero_coefs : Z.
Variable norms : vec T.
Variable n_refit : Z.
Variable check_duplicates : bool.

(** [Y[:, i] for i in xrange(Y.shape[1])] *)
Definition target_columns (Y : ndarray2 T) : list (vec T) :=
  map (column Y) (seq 0 (shape1 Y)).

Fixpoint all_done {A : Type} (l : list (option (result A)))
  : option (result (list A)) :=
  match l with
  | [] => Some (Ok [])
  | None :: _ => None
  | Some (Raise e) :: _ => Some (Raise e)
  | Some (Ok a) :: l' =>
      match all_done l' with
      | Some (Ok r) => Some (Ok (a :: r))
      | other => other
      end
  end.

(** [_fit_multi]: one [_fit_last] per target column; the value is
    [np.array(coef)], a list of rows. *)
Definition _fit_multi (Y : ndarray2 T) : option (result (list (vec T))) :=
  all_done
    (map (_fit_last estimator loss K n_nonzero_coefs norms n_refit
            check_duplicates)
         (target_columns Y)).

(** *** With validation *)

Variable K_val : ndarray2 T.
Variable y_val : Tgt.
Variable y : Tgt.
Variable n_validate : Z.
Variable epsilon : T.

(** The attribute [self.coef_] before the call, if it exists. *)
Variable self_coef_ : option (list (vec T)).

(** The locals of [_fit_multi_with_validation] and [self.coef_]. *)
Record validation : Type := {
  v_iterators : list (frame T);
  v_n_iter : Z;
  v_best_score : masked T;
  v_coef_ : option (list (vec T));
  v_validation_scores : list T;
  v_training_scores : list T;
  v_iterations : list Z
}.

Inductive round : Type :=
| RYield (res : list (vec T * vec T)) (its : list (frame T))
| RStop
| RThrow (e : exn).

(** [res = [it.next() for it in iterators]] *)
Fixpoint next_all (its : list (frame T)) : round :=
  match its with
  | [] => RYield [] []
  | g :: its' =>
      match next estimator loss K n_nonzero_coefs norms n_refit
              check_duplicates g with
      | Yield coef y_pred g' =>
          match next_all its' with
          | RYield res gs => RYield ((coef, y_pred) :: res) (g' :: gs)
          | r => r
          end
      | StopIteration => RStop
      | Throw e => RThrow e
      end
  end.

(** [np.array(rows).T] *)
Definition transpose (l : list (vec T)) : list (vec T) :=
  map (fun a => map (fun r => nth a r zero) l)
      (seq 0 (length (hd [] l))).

(** [np.dot(K_val, coef.T)] *)
Definition dot_coef_T (coef : list (vec T)) : list (vec T) :=
  map (fun k => map (fun c => dot k c) coef) (rows K_val).

(** How one pass through the body of [while True] ends. *)
Inductive pass : Type :=
| Continue (s : validation)
| Break (s : validation)
| Exhausted (s : validation)
| Fail (e : exn).

Definition loop_body (s : validation) : pass :=
  match next_all (v_iterators s) with
  | RStop => Exhausted s
  | RThrow e => Fail e
  | RYield [] _ => Fail ValueError
  | RYield ((_ :: _) as res) its =>
      let coef := map fst res in
      let y_train := transpose (map snd res) in
      let n_iter := v_n_iter s in
      if (n_validate =? 0)%Z then Fail ZeroDivisionError
      else if (n_iter mod n_validate =? 0)%Z then
        let y_val_pred := dot_coef_T coef in
        let validation_score := _score y_val y_val_pred in
        let training_score := _score y y_train in
        let improved := masked_gtb validation_score (v_best_score s) in
        let validation_scores := v_validation_scores s ++ [validation_score] in
        let training_scores := v_training_scores s ++ [training_score] in
        let iterations := v_iterations s ++ [n_iter] in
        let s' (n : Z) :=
          {| v_iterators := its;
             v_n_iter := n;
             v_best_score :=
               if improved then Val validation_score else v_best_score s;
             v_coef_ := if improved then Some coef else v_coef_ s;
             v_validation_scores := validation_scores;
             v_training_scores := training_scores;
             v_iterations := iterations |} in
        if (2 <? length iterations)%nat && ltb zero epsilon then
          let diff :=
            sub (last validation_scores zero)
                (nth (length validation_scores - 2) validation_scores zero) in
          let diff := div diff (hd zero validation_scores) in
          if ltb (abs diff) epsilon then Break (s' n_iter)
          else Continue (s' (n_iter + 1)%Z)
        else Continue (s' (n_iter + 1)%Z)
      else
        Continue
          {| v_iterators := its;
             v_n_iter := (n_iter + 1)%Z;
             v_best_score := v_best_score s;
             v_coef_ := v_coef_ s;
             v_validation_scores := v_validation_scores s;
             v_training_scores := v_training_scores s;
             v_iterations := v_iterations s |}
  end.

(** [while True: ...] left by [break], by the [StopIteration] the
    [except] clause catches, or by another exception; [None] when [fuel]
    passes were not enough. *)
Fixpoint while_true (fuel : nat) (s : validation) : option pass :=
  match fuel with
  | O => None
  | S fuel' =>
      match loop_body s with
      | Continue s' => while_true fuel' s'
      | other => Some other
      end
  end.

(** [_fit_multi_with_validation(K, y, Y, n_nonzero_coefs, norms)] *)
Definition _fit_multi_with_validation (Y : ndarray2 T) : option pass :=
  while_true (budget_fuel n_nonzero_coefs)
    {| v_iterators :=
         map (_fit_generator loss K) (target_columns Y);
       v_n_iter := 1;
       v_best_score := NegInf;
       v_coef_ := self_coef_;
       v_validation_scores := [];
       v_training_scores := [];
       v_iterations := [] |}.

(** *** Notions for the properties of the validation loop *)

(** The stopping rule in the words of the specification: the threshold
    is positive, at least three checkpoints are recorded, and the
    difference of the last two validation scores, divided by the first,
    is below the threshold in absolute value. *)
Definition early_stop_rule (scores : list T) : bool :=
  ltb zero epsilon && (3 <=? length scores)%nat &&
  ltb (abs (div (sub (last scores zero)
                     (nth (length scores - 2) scores zero))
                (hd zero scores)))
      epsilon.

(** The coefficient vector of target [y0] after [n] iterations. *)
Definition coef_after (n : nat) (y0 : vec T) : vec T :=
  match advance estimator loss K n_nonzero_coefs norms n_refit
          check_duplicates n (_fit_generator loss K y0) with
  | Some g => f_coef g
  | None => []
  end.

(** The coefficient matrix after [n] iterations, one row per target
    column, and its validation score. *)
Definition snapshot (Y : ndarray2 T) (n : nat) : list (vec T) :=
  map (coef_after n) (target_columns Y).

Definition validation_score_at (Y : ndarray2 T) (n : Z) : T :=
  _score y_val (dot_coef_T (snapshot Y (Z.to_nat n))).

(** The iterations up to [n] at which the scores are taken. *)
Definition checkpoints (n : nat) : list Z :=
  filter (fun z => (z mod n_validate =? 0)%Z) (map Z.of_nat (seq 1 n)).

(** The best score and its snapshot, one checkpoint later. *)
Definition keep_best (Y : ndarray2 T)
    (acc : masked T * option (list (vec T))) (n : Z)
  : masked T * option (list (vec T)) :=
  if masked_gtb (validation_score_at Y n) (fst acc)
  then (Val (validation_score_at Y n), Some (snapshot Y (Z.to_nat n)))
  else acc.

(** The generator of target [y0] has completed [n] iterations and is
    suspended in frame [g]. *)
Definition stepped (n : nat) (g : frame T) (y0 : vec T) : Prop :=
  advance estimator loss K n_nonzero_coefs norms n_refit
    check_duplicates n (_fit_generator loss K y0) = Some g /\
  frame_ok K g /\ f_i g = (Z.of_nat n + 1)%Z.

(** The generators of a state have all completed [n] iterations. *)
Definition in_lockstep (Y : ndarray2 T) (n : nat) (s : validation) : Prop :=
  Forall2 (stepped n) (v_iterators s) (target_columns Y).

(** The trace of a state is that of the checkpoints up to [n]. *)
Definition traced (Y : ndarray2 T) (n : nat) (s : validation) : Prop :=
  v_iterations s = checkpoints n /\
  v_validation_scores s = map (validation_score_at Y) (checkpoints n) /\
  (v_best_score s, v_coef_ s) =
    fold_left (keep_best Y) (checkpoints n) (NegInf, self_coef_).

(** The stopping rule held at none of the checkpoints up to [n]. *)
Definition quiet (Y : ndarray2 T) (n : nat) : Prop :=
  forall k, 0 < k <= length (checkpoints n) ->
            early_stop_rule
              (firstn k (map (validation_score_at Y) (checkpoints n)))
            = false.

(** How a run of budget [t] that has completed [k] iterations ends: the
    budget is used up with the rule never met, or the loop breaks at the
    first checkpoint [n] that meets it. *)
Definition ends_well (Y : ndarray2 T) (t k : nat) (o : pass) : Prop :=
  exists s n,
    traced Y n s /\
    ((o = Exhausted s /\ n = t /\ v_n_iter s = (Z.of_nat t + 1)%Z /\
      quiet Y t) \/
     (o = Break s /\ k < n <= t /\ v_n_iter s = Z.of_nat n /\
      (Z.of_nat n mod n_validate = 0)%Z /\ quiet Y (n - 1) /\
      early_stop_rule
        (map (validation_score_at Y) (checkpoints n)) = true)).

(** What the best score and the stored snapshot are after the
    checkpoints [seen]. *)
Definition best_of (Y : ndarray2 T) (seen : list Z)
    (acc : masked T * option (list (vec T))) : Prop :=
  match fst acc with
  | NegInf =>
      snd acc = self_coef_ /\
      forall z, In z seen -> neg_inf_ltb (validation_score_at Y z) = false
  | Val v =>
      exists z, In z seen /\ v = validation_score_at Y z /\
                snd acc = Some (snapshot Y (Z.to_nat z)) /\
                forall z', In z' seen ->
                           ltb v (validation_score_at Y z') = false
  end.

End Orchestrator.

Arguments validation T : clear implicits.
Arguments pass T : clear implicits.
Arguments round T : clear implicits.

(** ** The estimator facade *)

Section Facade.
Context {T : Type} {N : Num T}.

(** A Python number: the budget [n_nonzero_coefs] and the component
    count [n_components] are an [int] or a [float].  A mixed comparison
    converts the [int] with [of_int]. *)
Inductive pynum : Type :=
| PyInt (n : Z)
| PyFloat (x : T).

Definition py_float (a : pynum) : T :=
  match a with
  | PyInt n => of_int n
  | PyFloat x => x
  end.

(** [a < b] *)
Definition py_ltb (a b : pynum) : bool :=
  match a, b with
  | PyInt m, PyInt n => (m <? n)%Z
  | _, _ => ltb (py_float a) (py_float b)
  end.

(** [a <= b] *)
Definition py_leb (a b : pynum) : bool :=
  match a, b with
  | PyInt m, PyInt n => (m <=? n)%Z
  | _, _ => leb (py_float a) (py_float b)
  end.

(** [a == b] *)
Definition py_eqb (a b : pynum) : bool :=
  match a, b with
  | PyInt m, PyInt n => (m =? n)%Z
  | _, _ => eqb (py_float a) (py_float b)
  end.

(** [a * n] for an [int] [n] *)
Definition py_mul_int (a : pynum) (n : Z) : pynum :=
  match a with
  | PyInt m => PyInt (m * n)
  | PyFloat x => PyFloat (mul x (of_int n))
  end.

(** [int(a)] *)
Definition py_int (a : pynum) : result Z :=
  match a with
  | PyInt n => Ok n
  | PyFloat x => to_int x
  end.

(** The data points, [X] being the list of its rows, and the targets as
    the caller gave them. *)
Variable Sample : Type.
Variable Tgt : Type.

(** [y.shape[0]] of the targets as the caller gave them. *)
Variable target_length : Tgt -> nat.

(** The shuffle of [np.arange(n_samples)] by the random state. *)
Variable shuffled : nat -> list nat.

(** [create_components(X, y, n_components, random_state=...)] with the
    default [class_distrib="random"], as [_pre_fit] calls it.
    [y[indices]] refuses an index past the end of [y], and a count left
    a [float] cannot bound the slice. *)
Definition create_components (X : list Sample) (y : Tgt)
    (n_components : option pynum) : result (list Sample) :=
  let n_samples := Z.of_nat (length X) in
  match n_components with
  | None => Ok X
  | Some n_components =>
      if py_eqb n_components (PyInt 0) then Ok X
      else if py_ltb n_components (PyInt 0) then Raise ValueError
      else
        n_components <-
          (if py_ltb (PyInt 0) n_components && py_leb n_components (PyInt 1)
           then n <- py_int (py_mul_int n_components n_samples) ;; Ok (PyInt n)
           else Ok n_components) ;;
        if py_eqb n_components (PyInt n_samples) then Ok X
        else
          let indices := shuffled (length X) in
          if existsb (fun i => (target_length y <=? i)%nat) indices
          then Raise IndexError
          else
            match n_components with
            | PyInt n =>
                let selected_indices := firstn (Z.to_nat n) indices in
                Ok (flat_map (fun i => firstn 1 (skipn i X)) selected_indices)
            | PyFloat _ => Raise TypeError
            end
  end.

(** The constructor arguments the modelled methods read. *)
Record KMPBase : Type := {
  n_nonzero_coefs : pynum;
  loss : option String.string;
  init_components : option (list Sample);
  n_components : option pynum;
  check_duplicates : bool;
  scale : bool;
  n_refit : Z;
  estimator : Estimator T;
  X_val : option (list Sample);
  y_val : option Tgt;
  n_validate : Z;
  epsilon : T
}.

(** [KMPBase.__init__] *)
Definition KMPBase_init (self : KMPBase) : result KMPBase :=
  if py_ltb (n_nonzero_coefs self) (PyInt 0) then Raise AttributeError
  else Ok self.

(** [_get_loss] *)
Definition _get_loss (self : KMPBase) : option (Loss T) :=
  match loss self with
  | Some name => if String.eqb name "squared"%string then Some SquaredLoss else None
  | None => None
  end.

(** [pairwise_kernels(X, components_, metric=..., ...)] and the scaler
    ([Scaler(copy=False).fit_transform(K)], then [scaler_.transform] with
    the scaler fitted on [K]): collaborators. *)
Variable pairwise_kernels : list Sample -> list Sample -> ndarray2 T.
Variable scaler_fit_transform : ndarray2 T -> ndarray2 T.
Variable scaler_transform : ndarray2 T -> ndarray2 T -> ndarray2 T.

(** [np.sqrt(np.sum(K ** 2, axis=0))] *)
Definition column_norms (K : ndarray2 T) : vec T :=
  map (fun j => sqrt (vsum (map (fun k => mul k k) (column K j))))
      (seq 0 (shape1 K)).

(** What [_pre_fit] returns and stores on [self]. *)
Record prepared : Type := {
  components_ : list Sample;
  budget : pynum;
  dictionary : ndarray2 T;
  unscaled : ndarray2 T;
  norms_ : vec T
}.

(** The components [_pre_fit] stores in [self.components_]. *)
Definition resolve_components (self : KMPBase) (X : list Sample) (y : Tgt)
  : result (list Sample) :=
  match init_components self with
  | None => create_components X y (n_components self)
  | Some c => Ok c
  end.

(** The budget after the fraction test of [_pre_fit], [shape] being
    [self.components_.shape[0]]. *)
Definition resolve_budget (n : pynum) (shape : Z) : result pynum :=
  if py_ltb (PyInt 0) n && py_leb n (PyInt 1)
  then k <- py_int (py_mul_int n shape) ;; Ok (PyInt k)
  else Ok n.

(** [_pre_fit(X, y)] *)
Definition _pre_fit (self : KMPBase) (X : list Sample) (y : Tgt)
  : result prepared :=
  components <- resolve_components self X y ;;
  let shape := Z.of_nat (length components) in
  n <- resolve_budget (n_nonzero_coefs self) shape ;;
  if py_ltb (PyInt shape) n then Raise AttributeError
  else
    let K0 := pairwise_kernels X components in
    let K := if scale self then scaler_fit_transform K0 else K0 in
    Ok {| components_ := components;
          budget := n;
          dictionary := K;
          unscaled := K0;
          norms_ := column_norms K |}.

(** *** Pruning *)

(** [np.sum(coef_ != 0, axis=0, dtype=bool)]: for each column, whether
    some row is nonzero there.  [coef_] is [np.array] of a list of rows,
    so its width is that of its first row. *)
Definition used_basis (coef_ : list (vec T)) : list bool :=
  map (fun j => existsb (fun r => negb (eqb (nth j r zero) zero)) coef_)
      (seq 0 (length (hd [] coef_))).

(** The two assignments of [_post_fit]. *)
Definition prune (components : list Sample) (coef_ : list (vec T))
  : list Sample * list (vec T) :=
  let used := used_basis coef_ in
  (select components used, map (fun r => select r used) coef_).

(** [_post_fit]: [np.array] of no row has one axis only, and the slice
    [[:, used_basis]] is refused. *)
Definition _post_fit (components : list Sample) (coef_ : list (vec T))
  : result (list Sample * list (vec T)) :=
  match coef_ with
  | [] => Raise IndexError
  | _ :: _ => Ok (prune components coef_)
  end.

(** *** [fit] *)

(** [_score] with [score_func] and the label binarizer fixed, and the
    encoding of the targets as a matrix ([y.reshape(-1, 1)] of the
    regressor, [lb_.fit_transform(y)] of the classifier): collaborators. *)
Variable _score : Tgt -> list (vec T) -> T.
Variable encode : Tgt -> ndarray2 T.

(** The attributes a fit leaves on the estimator. *)
Record fitted : Type := {
  fitted_components_ : list Sample;
  fitted_coef_ : list (vec T);
  validation_scores_ : list T;
  training_scores_ : list T;
  iterations_ : list Z
}.

(** [_post_fit] on the attributes left by [_fit], [self.coef_] being
    read first. *)
Definition finish (components : list Sample) (coef_ : option (list (vec T)))
    (vs ts : list T) (its : list Z) : result fitted :=
  match coef_ with
  | None => Raise AttributeError
  | Some c =>
      '(comps, coef) <- _post_fit components c ;;
      Ok {| fitted_components_ := comps;
            fitted_coef_ := coef;
            validation_scores_ := vs;
            training_scores_ := ts;
            iterations_ := its |}
  end.

(** [fit(X, y)] of [KMPRegressor] and [KMPClassifier] on a freshly
    constructed estimator.  [range(1, n_nonzero_coefs + 1)] refuses a
    [float]; the generators evaluate it at their first [next], so with no
    target column it is never evaluated. *)
Definition fit (self : KMPBase) (X : list Sample) (y : Tgt)
  : option (result fitted) :=
  match _pre_fit self X y with
  | Raise e => Some (Raise e)
  | Ok p =>
      let Y := encode y in
      let K := dictionary p in
      let norms := norms_ p in
      match budget p, shape1 Y with
      | PyFloat _, S _ => Some (Raise TypeError)
      | b, _ =>
          let n := match b with PyInt n => n | PyFloat _ => 0%Z end in
          match X_val self, y_val self with
          | Some Xv, Some yv =>
              let K_val0 := pairwise_kernels Xv (components_ p) in
              let K_val :=
                if scale self then scaler_transform (unscaled p) K_val0
                else K_val0 in
              match
                _fit_multi_with_validation _score (estimator self)
                  (_get_loss self) K n norms (n_refit self)
                  (check_duplicates self) K_val yv y (n_validate self)
                  (epsilon self) None Y
              with
              | None | Some (Continue _) => None
              | Some (Fail e) => Some (Raise e)
              | Some (Break s) | Some (Exhausted s) =>
                  Some (finish (components_ p) (v_coef_ s)
                          (v_validation_scores s) (v_training_scores s)
                          (v_iterations s))
              end
          | _, _ =>
              match
                _fit_multi (estimator self) (_get_loss self) K n norms
                  (n_refit self) (check_duplicates self) Y
              with
              | None => None
              | Some (Raise e) => Some (Raise e)
              | Some (Ok coef) =>
                  Some (finish (components_ p) (Some coef) [] [] [])
              end
          end
      end
  end.

(** Construction followed by [fit]. *)
Definition construct_and_fit (args : KMPBase) (X : list Sample) (y : Tgt)
  : option (result fitted) :=
  match KMPBase_init args with
  | Raise e => Some (Raise e)
  | Ok self => fit self X y
  end.

End Facade.

Arguments pynum T : clear implicits.
Arguments KMPBase T Sample Tgt : clear implicits.
Arguments prepared T Sample : clear implicits.
Arguments fitted T Sample : clear implicits.

(** ** Inputs on which the definitions are run *)

Module Float64Examples.

Definition M (n m : nat) (r : list (list float)) : ndarray2 float :=
  {| shape0 := n; shape1 := m; rows := r |}.

(** A regressor for runs that never refit. *)
Definition no_estimator : Estimator float :=
  {| est_coef_ := fun _ _ => []; est_decision_function := fun _ _ => [] |}.

Definition identity2 : ndarray2 float := M 2 2 [[1; 0]; [0; 1]]%float.

Definition identity4 : ndarray2 float :=
  M 4 4 [[1; 0; 0; 0]; [0; 1; 0; 0]; [0; 0; 1; 0]; [0; 0; 0; 1]]%float.

(** One component, two samples. *)
Definition K_ones : ndarray2 float := M 2 1 [[1]; [1]]%float.
Definition K_skew : ndarray2 float := M 2 1 [[1]; [-3]]%float.

(** The facade on scalar samples with the linear kernel
    [k(x, c) = x * c], targets that are vectors of values (the
    regressor), an identity shuffle and no scaling. *)
Definition linear_kernel (X components : list float) : ndarray2 float :=
  M (length X) (length components)
    (map (fun x => map (fun c => (x * c)%float) components) X).

Definition reshape_column (y : list float) : ndarray2 float :=
  M (length y) 1 (map (fun v => [v]) y).

Definition regressor (budget : pynum float) (duplicates : bool)
    (validation : option (list float * list float))
  : KMPBase float float (list float) :=
  {| n_nonzero_coefs := budget;
     loss := None;
     init_components := None;
     n_components := None;
     check_duplicates := duplicates;
     scale := false;
     n_refit := 0;
     estimator := no_estimator;
     X_val := option_map fst validation;
     y_val := option_map snd validation;
     n_validate := 1;
     epsilon := 0%float |}.

Definition fit_regressor :=
  fit (@length float) (seq 0) linear_kernel (fun K => K) (fun _ K => K)
      regression_score reshape_column.

Definition construct_and_fit_regressor :=
  construct_and_fit (@length float) (seq 0) linear_kernel (fun K => K)
      (fun _ K => K) regression_score reshape_column.

(** Three components, the middle one unused by both targets. *)
Definition three_components : list nat := [10; 20; 30].
Definition two_rows : list (vec float) := [[1; 0; 2]; [0; 0; 3]]%float.

(** The runs the properties are tried on. *)

(** One component with two equal entries: the norm is [sqrt 2]. *)
Definition plain_run : list (vec float * vec float) :=
  trajectory no_estimator None K_ones 1 (column_norms K_ones) 0 false
    [1; 0]%float.

Definition squared_run : list (vec float * vec float) :=
  trajectory no_estimator (Some SquaredLoss) K_ones 1 (column_norms K_ones)
    0 false [1; 0]%float.

(** Two iterations on the one component [(1, -3)] with the squared
    loss. *)
Definition skew_run : list (vec float * vec float) :=
  trajectory no_estimator (Some SquaredLoss) K_skew 2 (column_norms K_skew)
    0 false [3; -1]%float.

(** Two iterations without duplicates on a target that the first
    component already explains. *)
Definition degenerate_run : list (vec float * vec float) :=
  trajectory no_estimator None identity2 2 (column_norms identity2) 0 true
    [1; 0]%float.

(** A validated fit whose first sample is the zero vector: with the
    linear kernel the first column of the dictionary is zero. *)
Definition zero_sample_dictionary : ndarray2 float :=
  linear_kernel [0; 2]%float [0; 2]%float.

Definition zero_sample_fit : option (pass float) :=
  _fit_multi_with_validation regression_score no_estimator None
    zero_sample_dictionary 2 (column_norms zero_sample_dictionary) 0 true
    zero_sample_dictionary [1; 2]%float [1; 2]%float 1 0%float None
    (reshape_column [1; 2]%float).

(** The value of a finite float as a rational, and the squared error of
    a prediction computed on those values, without rounding. *)
Definition rational (x : float) : QArith_base.Q :=
  match Prim2SF x with
  | S754_finite s m e =>
      let z := if s then Z.neg m else Z.pos m in
      if (0 <=? e)%Z then QArith_base.Qmake (z * 2 ^ e) 1
      else QArith_base.Qmake z (Z.to_pos (2 ^ (- e)))
  | _ => QArith_base.Qmake 0 1
  end.

Definition rational_squared_error (y y_pred : list float) : QArith_base.Q :=
  fold_left QArith_base.Qplus
    (map2 (fun a b =>
             let d := QArith_base.Qminus (rational a) (rational b) in
             QArith_base.Qmult d d)
          y y_pred)
    (QArith_base.Qmake 0 1).

End Float64Examples.

Module ExactExamples.

Definition M (n m : nat) (r : list (list R)) : ndarray2 R :=
  {| shape0 := n; shape1 := m; rows := r |}.

Definition no_estimator : Estimator R :=
  {| est_coef_ := fun _ _ => []; est_decision_function := fun _ _ => [] |}.

Definition K_one : ndarray2 R := M 1 1 [[1%R]].
Definition K_ones : ndarray2 R := M 2 1 [[1%R]; [1%R]].

End ExactExamples.

(** ** Notions the statements use *)

Section Notions.
Context {T : Type} {N : Num T}.

(** The positions a boolean mask keeps, in increasing order. *)
Definition kept (mask : list bool) : list nat :=
  filter (fun j => nth j mask false) (seq 0 (length mask)).

(** Column [j] has a nonzero coefficient in some row. *)
Definition nonzero_somewhere (coef_ : list (vec T)) (j : nat) : Prop :=
  exists r, In r coef_ /\ eqb (nth j r zero) zero = false.

(** The facts about the scalars that the structural properties rest
    on: zero equals itself, and an absolute value is not [<= -inf]. *)
Class NumLaws : Prop := {
  eqb_zero_zero : eqb zero zero = true;
  abs_above_neg_inf : forall x : T, leb_neg_inf (abs x) = false
}.

(** The regressor returns one coefficient per column it was fitted on. *)
Definition estimator_fits (e : Estimator T) : Prop :=
  forall (Ks : ndarray2 T) (y : vec T), length (est_coef_ e Ks y) = shape1 Ks.

(** The facts about the order of the scalars that keeping the best
    score rests on; NaN, which compares false with everything, is
    allowed. *)
Class OrderLaws : Prop := {
  ltb_irrefl : forall a : T, ltb a a = false;
  ltb_raise : forall a b c : T,
      ltb a b = true -> ltb a c = false -> ltb b c = false;
  ltb_floor : forall a b : T, neg_inf_ltb a = false -> ltb b a = false
}.

(** The regressor returns one prediction per sample. *)
Definition estimator_predicts (e : Estimator T) : Prop :=
  forall (Ks : ndarray2 T) (y : vec T),
    length (est_decision_function e Ks y) = shape0 Ks.

(** The squared training error of a prediction. *)
Definition squared_error (y y_pred : vec T) : T :=
  vsum (map (fun d => mul d d) (map2 sub y y_pred)).

(** The number of nonzero entries of a coefficient vector. *)
Definition count_nonzero (coef : vec T) : nat :=
  length (filter (fun c => negb (eqb c zero)) coef).

(** The shapes of a pursuit run: the dictionary is rectangular, as a
    [numpy] array is, and the target has one entry per sample. *)
Definition conforming (K : ndarray2 T) (y : vec T) : Prop :=
  well_shaped K /\ length y = shape0 K.

(** Unless no iteration refits, the regressor returns arrays of the
    shapes the loop goes on with. *)
Definition refits_conform (n_refit : Z) (e : Estimator T) : Prop :=
  n_refit = 0%Z \/ (estimator_fits e /\ estimator_predicts e).

(** The shapes of a validated fit: the targets [Y] have one row per
    sample of the dictionary [K], and the validation dictionary [K_val]
    one column per component. *)
Definition validation_conforms (K Y K_val : ndarray2 T) : Prop :=
  well_shaped K /\ well_shaped Y /\ shape0 Y = shape0 K /\
  well_shaped K_val /\ shape1 K_val = shape1 K.

End Notions.

(** A frame of the run without loss and the frame of the run with the
    squared loss at the same iteration, in exact arithmetic: the same
    arrays, the residual tracked by the first being the one the second
    recomputes. *)
Definition twin (K : ndarray2 R) (g1 g2 : frame R) : Prop :=
  f_y g1 = f_y g2 /\ f_i g1 = f_i g2 /\ f_coef g1 = f_coef g2 /\
  f_selected g1 = f_selected g2 /\ f_y_pred g1 = f_y_pred g2 /\
  f_residuals g1 = map2 sub (f_y g2) (f_y_pred g2) /\
  frame_ok K g1.

Arguments NumLaws T {N}.
Arguments OrderLaws T {N}.

(** ** Further notions *)

Section MoreNotions.
Context {T : Type} {N : Num T}.

(** The facts about [<=] that the choice of [np.argmax] rests on: apart
    from NaN, which compares false with everything, it is a total
    preorder. *)
Class LebLaws : Prop := {
  leb_refl : forall a : T, isnan a = false -> leb a a = true;
  leb_trans : forall a b c : T,
      leb a b = true -> leb b c = true -> leb a c = true;
  leb_total : forall a b : T,
      isnan a = false -> isnan b = false -> leb a b = false ->
      leb b a = true
}.

(** The facts about NaN that make it spread: it is below nothing, and
    an absolute value, a quotient or a sum of a NaN is a NaN. *)
Class NanLaws : Prop := {
  nan_leb : forall a b : T, isnan a = true -> leb a b = false;
  nan_leb_neg_inf : forall a : T, isnan a = true -> leb_neg_inf a = false;
  nan_abs : forall a : T, isnan (abs a) = isnan a;
  nan_div : forall a b : T, isnan a = true -> isnan (div a b) = true;
  nan_add : forall a b : T, isnan b = true -> isnan (add a b) = true
}.

(** [np.dot(K, coef)]: the prediction of a coefficient vector on the
    samples the dictionary was computed on. *)
Definition dot_rows (K : ndarray2 T) (coef : vec T) : vec T :=
  map (fun r => dot r coef) (rows K).

(** A map of dictionaries that keeps their shape, as the scaler does. *)
Definition shape_preserving (f : ndarray2 T -> ndarray2 T) : Prop :=
  forall K, well_shaped K ->
            well_shaped (f K) /\ shape0 (f K) = shape0 K /\
            shape1 (f K) = shape1 K.

(** The two record arrays of a validated fit have one entry per recorded
    iteration. *)
Definition aligned (s : validation T) : Prop :=
  length (v_validation_scores s) = length (v_iterations s) /\
  length (v_training_scores s) = length (v_iterations s).

End MoreNotions.

Arguments LebLaws T {N}.
Arguments NanLaws T {N}.

(** [shuffled n] is a shuffle of [np.arange(n)]: every index below [n],
    once. *)
Definition shuffles (shuffled : nat -> list nat) (n : nat) : Prop :=
  NoDup (shuffled n) /\ length (shuffled n) = n /\
  forall i, In i (shuffled n) -> i < n.

(** ** Prediction *)

Section Prediction.
Context {T : Type} {N : Num T}.
Variables Sample Tgt : Type.
Variable pairwise_kernels : list Sample -> list Sample -> ndarray2 T.
Variable scaler_transform : ndarray2 T -> ndarray2 T -> ndarray2 T.

(** [decision_function(X)], reading [self.components_] and [self.coef_];
    [scaler_] is the dictionary the scaler was fitted on. *)
Definition decision_function (self : KMPBase T Sample Tgt)
    (scaler_ : ndarray2 T) (components_ : list Sample)
    (coef_ : list (vec T)) (X : list Sample) : list (vec T) :=
  let K := pairwise_kernels X components_ in
  let K := if scale self then scaler_transform scaler_ K else K in
  dot_coef_T K coef_.

(** [KMPRegressor.predict(X)] *)
Definition predict (self : KMPBase T Sample Tgt)
    (scaler_ : ndarray2 T) (components_ : list Sample)
    (coef_ : list (vec T)) (X : list Sample) : list (vec T) :=
  decision_function self scaler_ components_ coef_ X.

(** The kernel matrix has one row per sample and one column per
    component. *)
Definition kernel_shaped : Prop :=
  forall X C, well_shaped (pairwise_kernels X C) /\
              shape0 (pairwise_kernels X C) = length X /\
              shape1 (pairwise_kernels X C) = length C.

(** The kernel is computed pair by pair: the column of a component does
    not depend on the other components. *)
Definition columnwise : Prop :=
  forall X C mask, length mask = length C ->
    pairwise_kernels X (select C mask) =
    columns_where (pairwise_kernels X C) mask.

End Prediction.

(** The linear kernel on scalar samples, in exact arithmetic. *)
Module ExactKernel.

Definition linear_kernel (X components : list R) : ndarray2 R :=
  {| shape0 := length X;
     shape1 := length components;
     rows := map (fun x => map (fun c => (x * c)%R) components) X |}.

End ExactKernel.

(** ** Further inputs *)

Module Float64Cases.
Import Float64Examples.

(** A dictionary of two samples and no component. *)
Definition K_empty : ndarray2 float := M 2 0 [[]; []].

(** The regressor of [Float64Examples], validated every [n] iterations. *)
Definition validated_regressor (budget : pynum float) (n : Z)
    (validation : list float * list float)
  : KMPBase float float (list float) :=
  {| n_nonzero_coefs := budget;
     loss := None;
     init_components := None;
     n_components := None;
     check_duplicates := true;
     scale := false;
     n_refit := 0;
     estimator := no_estimator;
     X_val := Some (fst validation);
     y_val := Some (snd validation);
     n_validate := n;
     epsilon := 0%float |}.

(** A regressor whose refit sets every selected coefficient to [1] and
    predicts [0]. *)
Definition unit_estimator : Estimator float :=
  {| est_coef_ := fun Ks _ => repeat 1%float (shape1 Ks);
     est_decision_function := fun Ks _ => repeat 0%float (shape0 Ks) |}.

(** A dictionary whose second column is zero. *)
Definition K_gap : ndarray2 float := M 2 2 [[1; 0]; [2; 0]]%float.

(** Drawing components from samples that are numbers. *)
Definition draw (X : list nat) (y : list float) (n : Z)
  : result (list nat) :=
  create_components (T := float) (@length float) (seq 0) X y
    (Some (PyInt n)).

End Float64Cases.

Module ExactCases.
Import ExactExamples ExactKernel.

(** A regressor on the components [1] and [2], in exact arithmetic. *)
Definition exact_regressor (budget : pynum R) : KMPBase R R (list R) :=
  {| n_nonzero_coefs := budget;
     loss := None;
     init_components := Some [1%R; 2%R];
     n_components := None;
     check_duplicates := true;
     scale := false;
     n_refit := 0;
     estimator := no_estimator;
     X_val := None;
     y_val := None;
     n_validate := 1;
     epsilon := 0%R |}.

End ExactCases.

(** * Properties *)

(** ** The scalar facts at both instances *)

Lemma float64_laws : NumLaws float.
Proof.
  split.
  - reflexivity.
  - intro x. cbn. rewrite FloatAxioms.leb_spec, abs_spec.
    destruct (Prim2SF x) as [s|s| |s m e]; reflexivity.
Qed.


(** ** Boolean masks *)

Section ListFacts.
Context {A : Type}.

Lemma select_nil_r (v : list A) : select v [] = [].
Proof. destruct v; reflexivity. Qed.

Lemma select_length (v : list A) (mask : list bool) :
  length v = length mask -> length (select v mask) = count_true mask.
Proof.
  revert mask; induction v as [|a v IH]; intros [|b mask] H; simpl in *;
    try discriminate; auto.
  unfold count_true in *; simpl. destruct b; simpl; rewrite IH by lia; auto.
Qed.

Lemma filter_seq_shift (f : nat -> bool) (s n : nat) :
  filter f (seq (S s) n) = map S (filter (fun j => f (S j)) (seq s n)).
Proof.
  revert s; induction n as [|n IH]; intro s; simpl; auto.
  rewrite IH. destruct (f (S s)); reflexivity.
Qed.

Lemma kept_cons (b : bool) (mask : list bool) :
  kept (b :: mask) = if b then O :: map S (kept mask) else map S (kept mask).
Proof.
  unfold kept; simpl. rewrite filter_seq_shift. simpl. reflexivity.
Qed.

Lemma select_kept (d : A) (v : list A) (mask : list bool) :
  length v = length mask ->
  select v mask = map (fun j => nth j v d) (kept mask).
Proof.
  revert mask; induction v as [|a v IH]; intros [|b mask] H; simpl in *;
    try discriminate; auto.
  rewrite kept_cons, (IH mask) by lia.
  destruct b; simpl; rewrite map_map; reflexivity.
Qed.

Lemma kept_sorted (mask : list bool) : StronglySorted lt (kept mask).
Proof.
  induction mask as [|b mask IH].
  - constructor.
  - rewrite kept_cons.
    assert (Hs : StronglySorted lt (map S (kept mask))).
    { clear -IH. induction IH; simpl; constructor; auto.
      rewrite Forall_forall in *. intros y Hy. apply in_map_iff in Hy.
      destruct Hy as [z [<- Hz]]. specialize (H _ Hz). lia. }
    destruct b; auto. constructor; auto.
    rewrite Forall_forall. intros y Hy. apply in_map_iff in Hy.
    destruct Hy as [z [<- _]]. lia.
Qed.

Lemma in_kept (mask : list bool) (j : nat) :
  In j (kept mask) <-> nth j mask false = true.
Proof.
  unfold kept. rewrite filter_In, in_seq. split.
  - tauto.
  - intro H. split; auto. split; [lia|].
    destruct (Nat.lt_ge_cases j (length mask)); auto.
    rewrite nth_overflow in H by lia. discriminate.
Qed.

Lemma kept_length (mask : list bool) : length (kept mask) = count_true mask.
Proof.
  induction mask as [|b mask IH]; auto.
  rewrite kept_cons. unfold count_true in *. simpl.
  destruct b; simpl; rewrite length_map; auto.
Qed.
End ListFacts.

Section MoreListFacts.
Context {A : Type}.

Lemma select_kept_error (v : list A) (mask : list bool) :
  length v = length mask ->
  map Some (select v mask) = map (nth_error v) (kept mask).
Proof.
  revert mask; induction v as [|a v IH]; intros [|b mask] H; simpl in *;
    try discriminate; auto.
  rewrite kept_cons. destruct b; simpl; rewrite (IH mask) by lia;
    rewrite map_map; reflexivity.
Qed.

Lemma select_length_le (v : list A) (mask : list bool) :
  length (select v mask) <= count_true mask.
Proof.
  revert mask; induction v as [|a v IH]; intros [|b mask]; simpl;
    try (unfold count_true; simpl; lia).
  specialize (IH mask). unfold count_true in *; simpl.
  destruct b; simpl; lia.
Qed.

Lemma select_all (v : list A) (k : nat) :
  length v <= k -> select v (repeat true k) = v.
Proof.
  revert k; induction v as [|a v IH]; intros [|k] H; simpl in *; auto;
    try lia.
  rewrite IH by lia. reflexivity.
Qed.
End MoreListFacts.

(** ** Pruning ([_post_fit]) *)

Section Pruning.
Context {T : Type} {N : Num T}.
Variable Sample : Type.

Lemma used_basis_length (coef_ : list (vec T)) :
  length (used_basis coef_) = length (hd [] coef_).
Proof. unfold used_basis. rewrite length_map, length_seq. reflexivity. Qed.

Lemma used_basis_nth (coef_ : list (vec T)) (j : nat) :
  nth j (used_basis coef_) false = true <->
  j < length (hd [] coef_) /\ nonzero_somewhere coef_ j.
Proof.
  unfold used_basis, nonzero_somewhere.
  destruct (Nat.lt_ge_cases j (length (hd [] coef_))) as [Hlt|Hge].
  - rewrite (nth_indep _ false (existsb (fun r => negb (eqb (nth 0 r zero) zero)) coef_))
      by (rewrite length_map, length_seq; exact Hlt).
    rewrite (map_nth (fun j => existsb (fun r => negb (eqb (nth j r zero) zero)) coef_)
               (seq 0 (length (hd [] coef_))) 0 j).
    rewrite seq_nth by exact Hlt. simpl.
    rewrite existsb_exists. split.
    + intros [r [Hin Hr]]. split; auto. exists r. split; auto.
      now apply negb_true_iff.
    + intros [_ [r [Hin Hr]]]. exists r. split; auto.
      now apply negb_true_iff.
  - rewrite nth_overflow by (rewrite length_map, length_seq; exact Hge).
    split; [discriminate | intros [H _]; lia].
Qed.

Lemma used_basis_pruned (coef_ : list (vec T)) (m : nat) :
  Forall (fun r => length r = m) coef_ ->
  used_basis (map (fun r => select r (used_basis coef_)) coef_) =
  repeat true (length (hd [] (map (fun r => select r (used_basis coef_)) coef_))).
Proof.
  intro Hrect.
  set (used := used_basis coef_).
  set (pruned := map (fun r => select r used) coef_).
  apply nth_ext with (d := false) (d' := true).
  - rewrite used_basis_length, repeat_length. reflexivity.
  - intros j Hj. rewrite used_basis_length in Hj.
    rewrite nth_repeat.
    apply used_basis_nth. split; [exact Hj|].
    destruct coef_ as [|r0 rest]; [simpl in Hj; lia|].
    assert (Hlen : forall r, In r (r0 :: rest) -> length r = length used).
    { intros r Hr. unfold used. rewrite used_basis_length. simpl.
      rewrite Forall_forall in Hrect.
      rewrite (Hrect r Hr), (Hrect r0) by (left; reflexivity). reflexivity. }
    assert (Hj' : j < length (kept used)).
    { subst pruned. cbn [map hd] in Hj.
      rewrite select_length in Hj by (apply Hlen; left; reflexivity).
      rewrite kept_length. exact Hj. }
    assert (Hin : In (nth j (kept used) 0) (kept used)) by (apply nth_In; exact Hj').
    apply in_kept in Hin. apply used_basis_nth in Hin.
    destruct Hin as [_ [r [Hr Hnz]]].
    exists (select r used). split.
    + subst pruned. apply (in_map (fun r => select r used)). exact Hr.
    + rewrite (select_kept zero) by (apply Hlen; exact Hr).
      rewrite (nth_indep _ zero (nth 0 r zero)) by (rewrite length_map; exact Hj').
      rewrite (map_nth (fun j => nth j r zero) (kept used) 0 j).
      exact Hnz.
Qed.

(** C8. Pruning is idempotent: pruning the pruned components and
    coefficient matrix once more changes nothing. *)
Theorem prune_twice (components : list Sample) (coef_ : list (vec T)) (m : nat) :
  Forall (fun r => length r = m) coef_ ->
  prune (fst (prune components coef_)) (snd (prune components coef_)) =
  prune components coef_.
Proof.
  intro Hrect. unfold prune at 1. cbn [fst snd prune].
  rewrite (used_basis_pruned Hrect).
  set (used := used_basis coef_).
  unfold prune. fold used. f_equal.
  - apply select_all.
    destruct coef_ as [|r0 rest].
    + subst used. simpl. rewrite select_nil_r. simpl. lia.
    + cbn [map hd]. rewrite (@select_length _ r0).
      * apply select_length_le.
      * subst used. rewrite used_basis_length. reflexivity.
  - rewrite map_map.
    destruct coef_ as [|r0 rest]; [reflexivity|].
    apply map_ext_in. intros r Hr.
    apply select_all. cbn [map hd].
    rewrite Forall_forall in Hrect.
    rewrite !select_length; auto;
      subst used; rewrite used_basis_length; simpl;
      rewrite ?(Hrect r Hr), (Hrect r0); auto; left; reflexivity.
Qed.

(** C7. After pruning, the retained components are those at the
    positions [idx], in increasing order, where [idx] holds exactly the
    columns with a nonzero coefficient in some row; the coefficient rows
    keep the same positions, and every row is as long as the list of
    stored components. *)
Theorem prune_spec (components : list Sample) (coef_ : list (vec T)) (m : nat) :
  length components = m ->
  Forall (fun r => length r = m) coef_ ->
  exists idx : list nat,
    StronglySorted lt idx /\
    (forall j, In j idx <-> j < m /\ nonzero_somewhere coef_ j) /\
    map Some (fst (prune components coef_)) = map (nth_error components) idx /\
    snd (prune components coef_) =
      map (fun r => map (fun j => nth j r zero) idx) coef_ /\
    Forall (fun r => length r = length (fst (prune components coef_)))
           (snd (prune components coef_)).
Proof.
  intros Hc Hrect.
  destruct coef_ as [|r0 rest].
  - exists []. cbn. rewrite select_nil_r.
    split; [constructor|]. split; [|repeat split; constructor].
    intro j. split; [intros [] | intros [_ [r [[] _]]]].
  - set (coef_ := r0 :: rest) in *.
    assert (Hw : length (used_basis coef_) = m).
    { rewrite used_basis_length. simpl. inversion Hrect; auto. }
    exists (kept (used_basis coef_)).
    split; [apply kept_sorted|].
    split.
    { intro j. rewrite in_kept, used_basis_nth.
      rewrite used_basis_length in Hw. rewrite Hw. reflexivity. }
    split.
    { cbn [prune fst]. apply select_kept_error. congruence. }
    split.
    { cbn [prune snd]. apply map_ext_in. intros r Hr.
      apply select_kept. rewrite Forall_forall in Hrect.
      rewrite (Hrect r Hr). congruence. }
    cbn [prune fst snd]. rewrite Forall_forall. intros r' Hr'.
    apply in_map_iff in Hr'. destruct Hr' as [r [<- Hr]].
    rewrite Forall_forall in Hrect.
    rewrite !select_length; auto; try congruence.
    rewrite (Hrect r Hr). congruence.
Qed.
End Pruning.

(** ** Arrays and [np.argmax] *)

Section ArrayFacts.
Context {T : Type} {N : Num T}.

Lemma map2_length {A B C : Type} (f : A -> B -> C) (u : list A) (v : list B) :
  length (map2 f u v) = Nat.min (length u) (length v).
Proof.
  revert v; induction u as [|a u IH]; intros [|b v]; simpl; auto.
Qed.

Lemma map2_nth {A B C : Type} (f : A -> B -> C) (u : list A) (v : list B)
    (j : nat) (da : A) (db : B) (dc : C) :
  j < length u -> j < length v ->
  nth j (map2 f u v) dc = f (nth j u da) (nth j v db).
Proof.
  revert v j; induction u as [|a u IH]; intros [|b v] [|j] Hu Hv;
    simpl in *; try lia; auto.
  apply IH; lia.
Qed.

Lemma set_at_length {A : Type} (l : list A) (i : nat) (x : A) :
  length (set_at l i x) = length l.
Proof.
  revert i; induction l as [|a l IH]; intros [|i]; simpl; auto.
Qed.

Lemma nth_set_at_same {A : Type} (l : list A) (i : nat) (x d : A) :
  i < length l -> nth i (set_at l i x) d = x.
Proof.
  revert i; induction l as [|a l IH]; intros [|i] H; simpl in *; try lia; auto.
  apply IH; lia.
Qed.

Lemma nth_set_at_other {A : Type} (l : list A) (i j : nat) (x d : A) :
  i <> j -> nth j (set_at l i x) d = nth j l d.
Proof.
  revert i j; induction l as [|a l IH]; intros [|i] [|j] H; simpl; auto;
    try lia.
Qed.

Lemma scatter_length (v : vec T) (mask : list bool) (vals : vec T) :
  length (scatter v mask vals) = length v.
Proof.
  revert mask vals; induction v as [|a v IH]; intros [|[|] mask] vals;
    simpl; auto.
  destruct vals; simpl; auto.
Qed.

Lemma mask_assign_length (v : vec T) (mask : list bool) (vals r : vec T) :
  length mask = length v ->
  mask_assign v mask vals = Ok r -> length r = length v.
Proof.
  intros Hm. unfold mask_assign.
  destruct vals as [|x [|x' vals]].
  - destruct (Nat.eqb _ _); intro H; inversion H. apply scatter_length.
  - intro H; inversion H. rewrite map2_length. lia.
  - destruct (Nat.eqb _ _); intro H; inversion H. apply scatter_length.
Qed.

Lemma mask_assign_ok (v : vec T) (mask : list bool) (vals : vec T) :
  length vals = count_true mask ->
  exists r, mask_assign v mask vals = Ok r.
Proof.
  intro H. unfold mask_assign.
  destruct vals as [|x [|x' vals]]; eauto;
    rewrite H, Nat.eqb_refl; eauto.
Qed.

Lemma count_true_repeat_false (n : nat) : count_true (repeat false n) = 0.
Proof. induction n; auto. Qed.

Lemma count_true_le (l : list bool) : count_true l <= length l.
Proof.
  unfold count_true. induction l as [|[|] l IH]; simpl; lia.
Qed.

Lemma count_true_set_at (l : list bool) (b : nat) :
  b < length l -> nth b l false = false ->
  count_true (set_at l b true) = S (count_true l).
Proof.
  unfold count_true.
  revert b; induction l as [|a l IH]; intros [|b] Hb Hn; simpl in *;
    try lia.
  - subst a. reflexivity.
  - destruct a; simpl; rewrite IH; auto; lia.
Qed.

Lemma count_true_set_at_le (l : list bool) (b : nat) :
  count_true (set_at l b true) <= S (count_true l).
Proof.
  unfold count_true.
  revert b; induction l as [|a l IH]; intros [|b]; simpl; try lia.
  - destruct a; simpl; lia.
  - specialize (IH b). destruct a; simpl; lia.
Qed.

Lemma exists_unselected (l : list bool) :
  count_true l < length l -> exists j, j < length l /\ nth j l false = false.
Proof.
  unfold count_true.
  induction l as [|a l IH]; simpl; [lia|].
  destruct a; simpl; intro H.
  - destruct IH as [j [Hj Hn]]; [lia|]. exists (S j). split; [lia|exact Hn].
  - exists 0. split; [lia|reflexivity].
Qed.
End ArrayFacts.

Section ArgmaxFacts.
Context {T : Type} {N : Num T}.

Lemma argmax_scan_range (l : list (masked T)) (mp : masked T) (best i : nat) :
  argmax_scan mp best i l = best \/
  (i <= argmax_scan mp best i l < i + length l).
Proof.
  revert mp best i; induction l as [|x l IH]; intros mp best i; simpl.
  - left; reflexivity.
  - destruct (negb (masked_leb x mp)).
    + destruct (masked_isnan x).
      * right; lia.
      * destruct (IH x i (S i)) as [H|H]; right; lia.
    + destruct (IH mp best (S i)) as [H|H]; [left; exact H | right; lia].
Qed.

Lemma argmax_ok (l : list (masked T)) :
  l <> [] -> exists b, argmax l = Ok b /\ b < length l.
Proof.
  destruct l as [|x l]; [congruence|]. intros _. simpl.
  destruct (masked_isnan x).
  - exists 0. split; [reflexivity|lia].
  - eexists. split; [reflexivity|].
    destruct (argmax_scan_range l x 0 1) as [H|H]; lia.
Qed.

Lemma argmax_in_range (l : list (masked T)) (b : nat) :
  argmax l = Ok b -> b < length l.
Proof.
  destruct l as [|x l]; [discriminate|].
  intro H. destruct (@argmax_ok (x :: l)) as [b' [Hb' Hlt]]; [congruence|].
  congruence.
Qed.

(** With every entry at [-inf], the scan never moves. *)
Lemma argmax_scan_all_neg_inf (l : list (masked T)) (best i : nat) :
  Forall (fun x => x = NegInf) l -> argmax_scan NegInf best i l = best.
Proof.
  revert best i; induction l as [|x l IH]; intros best i H; simpl; auto.
  inversion H; subst. simpl. apply IH. assumption.
Qed.

Lemma argmax_scan_val (l : list (masked T)) (mp : masked T) (best i : nat) :
  Forall above l -> masked_isnan mp = false ->
  (is_val mp = true \/ exists x, In x l /\ is_val x = true) ->
  let r := argmax_scan mp best i l in
  (r = best /\ is_val mp = true) \/
  (i <= r /\ is_val (nth (r - i) l NegInf) = true).
Proof.
  revert mp best i; induction l as [|x l IH]; intros mp best i Hab Hnan Hex;
    simpl.
  - destruct Hex as [H|[x [[] _]]]. left; auto.
  - inversion Hab as [|? ? Hx Hl]; subst.
    destruct (negb (masked_leb x mp)) eqn:Hcmp.
    + assert (Hvx : is_val x = true).
      { destruct x as [|v]; [|reflexivity].
        destruct mp as [|w]; simpl in Hcmp; [discriminate|].
        simpl in Hnan. rewrite Hnan in Hcmp. discriminate. }
      destruct (masked_isnan x) eqn:Hxn.
      * right. split; [lia|]. rewrite Nat.sub_diag. exact Hvx.
      * destruct (IH x i (S i) Hl Hxn (or_introl Hvx)) as [[Hr _]|[Hr Hv]].
        -- right. rewrite Hr. split; [lia|]. rewrite Nat.sub_diag. exact Hvx.
        -- right. split; [lia|].
           replace (argmax_scan x i (S i) l - i)
             with (S (argmax_scan x i (S i) l - S i)) by lia.
           exact Hv.
    + assert (Hex' : is_val mp = true \/ exists x0, In x0 l /\ is_val x0 = true).
      { destruct Hex as [H|[x0 [[->|Hin] Hv]]]; auto.
        - destruct x0 as [|v]; [discriminate|].
          destruct mp as [|w]; [|left; reflexivity].
          simpl in Hcmp, Hx. rewrite Hx in Hcmp. discriminate.
        - right. exists x0. auto. }
      destruct (IH mp best (S i) Hl Hnan Hex') as [[Hr Hv]|[Hr Hv]].
      * left. auto.
      * right. split; [lia|].
        replace (argmax_scan mp best (S i) l - i)
          with (S (argmax_scan mp best (S i) l - S i)) by lia.
        exact Hv.
Qed.

Lemma argmax_val (l : list (masked T)) (b : nat) :
  Forall above l ->
  (exists x, In x l /\ is_val x = true) ->
  argmax l = Ok b -> is_val (nth b l NegInf) = true.
Proof.
  destruct l as [|x l]; [intros _ [x [[] _]]|].
  intros Hab Hex. inversion Hab as [|? ? Hx Hl]; subst. simpl.
  destruct (masked_isnan x) eqn:Hn.
  - intro H; inversion H; subst. destruct x; [discriminate|reflexivity].
  - intro H; inversion H; subst; clear H.
    assert (Hex' : is_val x = true \/ exists x0, In x0 l /\ is_val x0 = true).
    { destruct Hex as [x0 [[->|Hin] Hv]]; eauto. }
    destruct (@argmax_scan_val l x 0 1 Hl Hn Hex') as [[Hr Hv]|[Hr Hv]].
    + rewrite Hr. exact Hv.
    + destruct (argmax_scan x 0 1 l) as [|r]; [lia|].
      simpl in Hv. rewrite Nat.sub_0_r in Hv. exact Hv.
Qed.
End ArgmaxFacts.

(** ** The pursuit loop: structure *)

Section MaskFacts.
Context {T : Type} {N : Num T}.

Lemma nth_mask_neg_inf (a : vec T) (sel : list bool) (b : nat) :
  b < length a -> b < length sel ->
  nth b (mask_neg_inf a sel) NegInf =
  if nth b sel false then NegInf else Val (nth b a zero).
Proof.
  intros Ha Hs. unfold mask_neg_inf.
  rewrite (@map2_nth _ _ _ (fun x (s : bool) => if s then NegInf else Val x)
             a sel b zero false NegInf Ha Hs).
  reflexivity.
Qed.

Lemma masked_scores_above (a : vec T) (sel : list bool) :
  NumLaws T -> Forall (@above T N) (mask_neg_inf (map abs a) sel).
Proof.
  intro L. unfold mask_neg_inf.
  revert sel; induction a as [|x a IH]; intros [|b sel]; simpl;
    try constructor; auto.
  destruct b; simpl; [exact I | apply abs_above_neg_inf].
Qed.

Lemma count_nonzero_le_selected (coef : vec T) (sel : list bool) :
  NumLaws T -> length coef = length sel ->
  (forall j, nth j sel false = false -> nth j coef zero = zero) ->
  count_nonzero coef <= count_true sel.
Proof.
  intro L. unfold count_nonzero, count_true.
  revert sel; induction coef as [|c coef IH]; intros [|b sel] Hlen Hz;
    simpl in *; try lia.
  assert (IH' : length (filter (fun c => negb (eqb c zero)) coef) <=
                length (filter (fun b => b) sel)).
  { apply IH; [lia|]. intros j Hj. apply (Hz (S j)). exact Hj. }
  destruct b; simpl.
  - destruct (negb (eqb c zero)); simpl; lia.
  - rewrite (Hz 0 eq_refl). rewrite eqb_zero_zero. simpl. lia.
Qed.
End MaskFacts.

Section PursuitFacts.
Context {T : Type} {N : Num T}.
Variable estimator : Estimator T.
Variable loss : option (Loss T).
Variable K : ndarray2 T.
Variable n_nonzero_coefs : Z.
Variable norms : vec T.
Variable n_refit : Z.
Variable check_duplicates : bool.

Local Abbreviation iteration :=
  (iteration estimator loss K norms n_refit check_duplicates).
Local Abbreviation next :=
  (next estimator loss K n_nonzero_coefs norms n_refit check_duplicates).
Local Abbreviation yields :=
  (yields estimator loss K n_nonzero_coefs norms n_refit check_duplicates).
Local Abbreviation drain :=
  (drain estimator loss K n_nonzero_coefs norms n_refit check_duplicates).
Local Abbreviation advance :=
  (advance estimator loss K n_nonzero_coefs norms n_refit check_duplicates).

Local Abbreviation frame_ok := (frame_ok K).
Local Abbreviation remaining := (remaining n_nonzero_coefs).

Hypothesis norms_length : length norms = shape1 K.

Lemma correlations_length (r : vec T) :
  length (correlations K norms r) = shape1 K.
Proof.
  unfold correlations, dot_T.
  rewrite map2_length, length_map, length_seq. lia.
Qed.

Lemma scores_length (dots : vec T) (selected : list bool) :
  length dots = shape1 K -> length selected = shape1 K ->
  length (if check_duplicates then mask_neg_inf (map abs dots) selected
          else map (@Val T) (map abs dots)) = shape1 K.
Proof.
  intros Hd Hs. destruct check_duplicates.
  - unfold mask_neg_inf. rewrite map2_length, length_map. lia.
  - rewrite !length_map. exact Hd.
Qed.

Lemma select_best_ok (dots : vec T) (selected : list bool) :
  1 <= shape1 K ->
  length dots = shape1 K -> length selected = shape1 K ->
  exists b, select_best check_duplicates dots selected = Ok b /\ b < shape1 K.
Proof.
  intros Hm Hd Hs. unfold select_best.
  pose proof (scores_length dots selected Hd Hs) as Hlen.
  destruct (@argmax_ok T N
              (if check_duplicates then mask_neg_inf (map abs dots) selected
               else map (@Val T) (map abs dots))) as [b [Hb Hlt]].
  - intro H. rewrite H in Hlen. simpl in Hlen. lia.
  - exists b. split; [exact Hb|lia].
Qed.

Lemma select_best_range (dots : vec T) (selected : list bool) (b : nat) :
  length dots = shape1 K -> length selected = shape1 K ->
  select_best check_duplicates dots selected = Ok b -> b < shape1 K.
Proof.
  intros Hd Hs H. unfold select_best in H. apply argmax_in_range in H.
  rewrite (scores_length dots selected Hd Hs) in H. exact H.
Qed.

Hypothesis fits : n_refit = 0%Z \/ estimator_fits estimator.

Lemma iteration_ok (i : Z) (s : frame T) :
  1 <= shape1 K -> frame_ok s ->
  exists s', iteration i s = Ok s' /\ frame_ok s' /\ f_y s' = f_y s.
Proof.
  intros Hm [Hsel Hcoef]. unfold iteration.
  set (residuals := match loss with
                    | Some l => negative_gradient l (f_y s) (f_y_pred s)
                    | None => f_residuals s
                    end).
  destruct (select_best_ok (correlations K norms residuals) (f_selected s) Hm
              (correlations_length residuals) Hsel) as [b [Hb Hlt]].
  rewrite Hb. cbn [bind].
  destruct (negb (n_refit =? 0)%Z && (i mod n_refit =? 0)%Z) eqn:Hrefit.
  - assert (Hfits : estimator_fits estimator).
    { destruct fits as [H0|H]; [|exact H].
      rewrite H0 in Hrefit. discriminate. }
    destruct (@mask_assign_ok T (f_coef s) (set_at (f_selected s) b true)
                (est_coef_ estimator
                   (columns_where K (set_at (f_selected s) b true)) (f_y s)))
      as [c Hc].
    { rewrite Hfits. reflexivity. }
    rewrite Hc. cbn [bind]. eexists. split; [reflexivity|].
    split; [|reflexivity]. split; cbn.
    + rewrite set_at_length. exact Hsel.
    + apply mask_assign_length in Hc.
      * congruence.
      * rewrite set_at_length. congruence.
  - eexists. split; [reflexivity|]. split; [|reflexivity]. split; cbn.
    + rewrite set_at_length. exact Hsel.
    + rewrite set_at_length. exact Hcoef.
Qed.

Lemma next_stop (g : frame T) :
  (n_nonzero_coefs < f_i g)%Z -> next g = StopIteration.
Proof.
  clear norms_length fits.
  intro H. unfold next.
  destruct (Z.ltb_spec n_nonzero_coefs (f_i g)); [reflexivity|lia].
Qed.

Lemma next_yield (g : frame T) :
  1 <= shape1 K -> frame_ok g -> (f_i g <= n_nonzero_coefs)%Z ->
  exists g', next g = Yield (f_coef g') (f_y_pred g') g' /\
             frame_ok g' /\ f_i g' = (f_i g + 1)%Z /\ f_y g' = f_y g.
Proof.
  intros Hm Hok Hi. unfold next.
  destruct (Z.ltb_spec n_nonzero_coefs (f_i g)); [lia|].
  destruct (iteration_ok (f_i g) Hm Hok) as [s' [Hs' [[Hsel Hcoef] Hy]]].
  rewrite Hs'.
  exists {| f_y := f_y s'; f_i := (f_i g + 1)%Z; f_coef := f_coef s';
            f_selected := f_selected s'; f_y_pred := f_y_pred s';
            f_residuals := f_residuals s' |}.
  split; [reflexivity|].
  split; [split; assumption|]. split; [reflexivity|exact Hy].
Qed.

Lemma yields_length (fuel : nat) (g : frame T) :
  (remaining g = 0 \/ 1 <= shape1 K) -> frame_ok g ->
  length (yields fuel g) = Nat.min fuel (remaining g).
Proof.
  revert g; induction fuel as [|fuel IH]; intros g Hm Hok; [reflexivity|].
  cbn [yields].
  destruct (Z.lt_ge_cases n_nonzero_coefs (f_i g)) as [Hlt|Hge].
  - rewrite next_stop by exact Hlt. unfold remaining.
    replace (Z.to_nat (n_nonzero_coefs + 1 - f_i g)) with 0 by lia.
    reflexivity.
  - assert (Hm' : 1 <= shape1 K).
    { destruct Hm as [H|H]; [unfold remaining in H; lia|exact H]. }
    destruct (next_yield Hm' Hok Hge) as [g' [Hn [Hok' [Hi' _]]]].
    rewrite Hn. cbn [length]. rewrite IH by (auto).
    unfold remaining. rewrite Hi'.
    replace (Z.to_nat (n_nonzero_coefs + 1 - f_i g))
      with (S (Z.to_nat (n_nonzero_coefs + 1 - (f_i g + 1)))) by lia.
    reflexivity.
Qed.

Lemma drain_total (fuel : nat) (g : frame T) (c : option (vec T)) :
  (remaining g = 0 \/ 1 <= shape1 K) -> frame_ok g ->
  remaining g < fuel -> exists r, drain fuel g c = Some r.
Proof.
  revert g c; induction fuel as [|fuel IH]; intros g c Hm Hok Hf; [lia|].
  cbn [drain].
  destruct (Z.lt_ge_cases n_nonzero_coefs (f_i g)) as [Hlt|Hge].
  - rewrite next_stop by exact Hlt. eauto.
  - assert (Hm' : 1 <= shape1 K).
    { destruct Hm as [H|H]; [unfold remaining in H; lia|exact H]. }
    destruct (next_yield Hm' Hok Hge) as [g' [Hn [Hok' [Hi' _]]]].
    rewrite Hn. apply IH; auto.
    unfold remaining in *. rewrite Hi'. lia.
Qed.

Lemma advance_total (k : nat) (g : frame T) :
  1 <= shape1 K -> frame_ok g -> k <= remaining g ->
  exists g', advance k g = Some g' /\ frame_ok g' /\
             f_i g' = (f_i g + Z.of_nat k)%Z /\ f_y g' = f_y g.
Proof.
  revert g; induction k as [|k IH]; intros g Hm Hok Hk.
  - exists g. repeat split; try apply Hok. lia.
  - cbn [advance].
    assert (Hge : (f_i g <= n_nonzero_coefs)%Z) by (unfold remaining in Hk; lia).
    destruct (next_yield Hm Hok Hge) as [g' [Hn [Hok' [Hi' Hy']]]].
    rewrite Hn.
    destruct (IH g' Hm Hok') as [g'' [Ha [Hok'' [Hi'' Hy'']]]].
    { unfold remaining in *. rewrite Hi'. lia. }
    exists g''. split; [exact Ha|]. split; [exact Hok''|].
    split; [lia|congruence].
Qed.

Lemma fit_generator_ok (y : vec T) : frame_ok (_fit_generator loss K y).
Proof. split; cbn; apply repeat_length. Qed.

(** *** What one call of [next] changes *)

Lemma next_inv (g g' : frame T) (c p : vec T) :
  next g = Yield c p g' ->
  exists s', iteration (f_i g) g = Ok s' /\
             c = f_coef g' /\ p = f_y_pred g' /\
             f_coef g' = f_coef s' /\ f_selected g' = f_selected s' /\
             f_y_pred g' = f_y_pred s' /\ f_y g' = f_y s' /\
             f_residuals g' = f_residuals s' /\
             f_i g' = (f_i g + 1)%Z.
Proof.
  clear norms_length fits.
  unfold next.
  destruct (n_nonzero_coefs <? f_i g)%Z; [discriminate|].
  destruct (iteration (f_i g) g) as [s'|e]; [|discriminate].
  intro H. inversion H; subst; clear H. exists s'. cbn. tauto.
Qed.

Lemma iteration_line_search (i : Z) (s s' : frame T) :
  n_refit = 0%Z -> iteration i s = Ok s' ->
  exists best alpha,
    select_best check_duplicates
      (correlations K norms
         match loss with
         | Some l => negative_gradient l (f_y s) (f_y_pred s)
         | None => f_residuals s
         end) (f_selected s) = Ok best /\
    f_selected s' = set_at (f_selected s) best true /\
    f_coef s' = set_at (f_coef s) best (add (nth best (f_coef s) zero) alpha) /\
    f_y_pred s' = map2 add (f_y_pred s) (map (mul alpha) (column K best)).
Proof.
  clear norms_length fits.
  intros H0. unfold iteration. rewrite H0. cbn [Z.eqb negb andb].
  destruct (select_best _ _ _) as [best|e]; [|discriminate].
  cbn [bind]. intro H. inversion H; subst; clear H. cbn.
  eexists. eexists. repeat split.
Qed.

(** With duplicates checked, the index chosen was not selected before,
    as long as some index is left. *)
Lemma select_best_fresh (dots : vec T) (selected : list bool) (best : nat) :
  NumLaws T -> check_duplicates = true ->
  length dots = shape1 K -> length selected = shape1 K ->
  count_true selected < shape1 K ->
  select_best check_duplicates dots selected = Ok best ->
  nth best selected false = false.
Proof.
  clear fits.
  intros L Hcd Hd Hs Hcount Hbest.
  pose proof (select_best_range dots selected Hd Hs Hbest) as Hlt.
  unfold select_best in Hbest. rewrite Hcd in Hbest.
  destruct (@exists_unselected selected) as [j [Hj Hnj]]; [lia|].
  assert (Hv : is_val (nth best (mask_neg_inf (map abs dots) selected) NegInf) = true).
  { apply argmax_val; auto.
    - apply masked_scores_above; exact L.
    - exists (nth j (mask_neg_inf (map abs dots) selected) NegInf). split.
      + apply nth_In. unfold mask_neg_inf.
        rewrite map2_length, length_map. lia.
      + rewrite nth_mask_neg_inf by (rewrite ?length_map; lia).
        rewrite Hnj. reflexivity. }
  rewrite nth_mask_neg_inf in Hv by (rewrite ?length_map; lia).
  destruct (nth best selected false); [discriminate|reflexivity].
Qed.

Local Abbreviation sparse := (sparse K check_duplicates).

Lemma sparse_init (y : vec T) : sparse 0 (_fit_generator loss K y).
Proof.
  clear norms_length fits.
  split; [apply fit_generator_ok|].
  unfold _fit_generator; cbn [f_selected f_coef].
  rewrite count_true_repeat_false. split; [lia|]. split; [reflexivity|].
  intros j _. unfold zeros. apply nth_repeat.
Qed.

Lemma sparse_next (k : nat) (g g' : frame T) (c p : vec T) :
  NumLaws T -> n_refit = 0%Z ->
  sparse k g -> next g = Yield c p g' -> sparse (S k) g'.
Proof.
  clear fits.
  intros L H0 [[Hsel Hcoef] [Hle [Heq Hzero]]] Hn.
  destruct (next_inv g Hn) as [s' [Hit [_ [_ [Hc [Hs _]]]]]].
  destruct (iteration_line_search _ _ H0 Hit) as [best [alpha [Hb [Hs' [Hc' _]]]]].
  pose proof (select_best_range _ _ (correlations_length _) Hsel Hb) as Hlt.
  unfold sparse, frame_ok. rewrite Hs, Hs', Hc, Hc'.
  split; [split; rewrite set_at_length; assumption|].
  split; [pose proof (count_true_set_at_le (f_selected g) best); lia|].
  split.
  - intros Hcd Hk.
    rewrite count_true_set_at; [rewrite Heq; auto; lia | lia |].
    eapply select_best_fresh;
      [exact L | exact Hcd | apply correlations_length | exact Hsel
      | | exact Hb].
    rewrite Heq; auto; lia.
  - intros j Hj.
    destruct (Nat.eq_dec best j) as [->|Hne].
    + rewrite nth_set_at_same in Hj by lia. discriminate.
    + rewrite nth_set_at_other in Hj by exact Hne.
      rewrite nth_set_at_other by exact Hne. apply Hzero. exact Hj.
Qed.

Lemma sparse_advance (k j : nat) (g g' : frame T) :
  NumLaws T -> n_refit = 0%Z ->
  sparse j g -> advance k g = Some g' -> sparse (k + j) g'.
Proof.
  clear fits.
  intros L H0. revert j g; induction k as [|k IH]; intros j g Hsp Ha.
  - inversion Ha; subst. exact Hsp.
  - cbn [advance] in Ha.
    destruct (next g) as [c p g1| |e] eqn:Hn; try discriminate.
    replace (S k + j) with (k + S j) by lia.
    apply (IH (S j) g1); [|exact Ha].
    eapply sparse_next; eauto.
Qed.

Lemma yields_advance (fuel k : nat) (g : frame T) (c p : vec T) :
  nth_error (yields fuel g) k = Some (c, p) ->
  exists g', advance (S k) g = Some g' /\ c = f_coef g' /\ p = f_y_pred g'.
Proof.
  clear norms_length fits.
  revert k g; induction fuel as [|fuel IH]; intros k g H.
  - destruct k; discriminate.
  - cbn [yields] in H.
    destruct (next g) as [c1 p1 g1| |e] eqn:Hn;
      try (destruct k; discriminate).
    destruct k as [|k].
    + cbn in H. inversion H; subst.
      destruct (next_inv g Hn) as [s' [_ [Hc [Hp _]]]].
      exists g1. cbn [advance]. rewrite Hn. auto.
    + cbn [nth_error] in H. destruct (IH k g1 H) as [g' [Ha Hcp]].
      exists g'. split; [|exact Hcp].
      change (advance (S (S k)) g)
        with (match next g with
              | Yield _ _ g2 => advance (S k) g2
              | _ => None
              end).
      rewrite Hn. exact Ha.
Qed.

End PursuitFacts.

Section PursuitTheorems.
Context {T : Type} {N : Num T}.
Variable estimator : Estimator T.
Variable loss : option (Loss T).
Variable K : ndarray2 T.
Variable norms : vec T.
Variable n_refit : Z.
Variable check_duplicates : bool.

Lemma trajectory_length (y : vec T) (t : nat) :
  length norms = shape1 K ->
  n_refit = 0%Z \/ estimator_fits estimator ->
  t = 0 \/ 1 <= shape1 K ->
  length (trajectory estimator loss K (Z.of_nat t) norms n_refit
            check_duplicates y) = t.
Proof.
  intros Hn Hfits Hm.
  assert (Hrem : remaining (Z.of_nat t) (_fit_generator loss K y) = t).
  { unfold remaining. cbn. lia. }
  unfold trajectory.
  rewrite (@yields_length T N estimator loss K (Z.of_nat t) norms n_refit
             check_duplicates Hn Hfits).
  - rewrite Hrem. unfold budget_fuel. lia.
  - rewrite Hrem. exact Hm.
  - apply fit_generator_ok.
Qed.

(** C9. With a budget of [t] iterations (and a dictionary that has a
    column unless [t] is zero, which [t <= m] implies), the loop yields
    exactly [t] times and [_fit_last] returns; when duplicates are
    checked and every index is already selected, so that every score is
    [-inf], the index chosen is the first one, [0]. *)
Theorem pursuit_yields_budget (y : vec T) (t : nat) :
  conforming K y ->
  length norms = shape1 K ->
  refits_conform n_refit estimator ->
  t = 0 \/ 1 <= shape1 K ->
  length (trajectory estimator loss K (Z.of_nat t) norms n_refit
            check_duplicates y) = t /\
  (exists r, _fit_last estimator loss K (Z.of_nat t) norms n_refit
               check_duplicates y = Some r) /\
  (forall (dots : vec T) (selected : list bool),
      dots <> [] -> length selected = length dots ->
      Forall (fun b => b = true) selected ->
      select_best true dots selected = Ok 0).
Proof.
  intros _ Hn Hrefit Hm.
  assert (Hfits : n_refit = 0%Z \/ estimator_fits estimator)
    by (destruct Hrefit as [H0|[Hf _]]; [left|right]; assumption).
  assert (Hrem : remaining (Z.of_nat t) (_fit_generator loss K y) = t).
  { unfold remaining. cbn. lia. }
  split; [|split].
  - apply trajectory_length; assumption.
  - unfold _fit_last.
    apply (@drain_total T N estimator loss K (Z.of_nat t) norms n_refit
             check_duplicates Hn Hfits).
    + rewrite Hrem. exact Hm.
    + apply fit_generator_ok.
    + rewrite Hrem. unfold budget_fuel. lia.
  - intros dots selected Hne Hlen Hall. unfold select_best.
    assert (Hs : Forall (fun x : masked T => x = NegInf)
                   (mask_neg_inf (map abs dots) selected)).
    { clear Hne. unfold mask_neg_inf.
      revert selected Hlen Hall; induction dots as [|d dots IH];
        intros [|b selected] Hlen Hall; simpl in *; try constructor.
      - inversion Hall; subst. reflexivity.
      - apply IH; [lia|]. inversion Hall; assumption. }
    destruct dots as [|d dots]; [congruence|].
    destruct selected as [|b selected]; [discriminate|].
    inversion Hall; subst. simpl in *.
    inversion Hs; subst.
    rewrite argmax_scan_all_neg_inf by assumption. reflexivity.
Qed.

(** C6, amended.  Without refits, after iteration [k + 1] at most
    [k + 1] coefficients are nonzero, whether duplicates are checked or
    not; with duplicates checked and [t <= m], the [t] iterations select
    [t] distinct indices, and every nonzero coefficient is at a selected
    index. *)
Theorem pursuit_sparsity (y : vec T) (t : nat) :
  NumLaws T ->
  conforming K y ->
  length norms = shape1 K ->
  n_refit = 0%Z ->
  (forall k coef y_pred,
      nth_error (trajectory estimator loss K (Z.of_nat t) norms n_refit
                   check_duplicates y) k = Some (coef, y_pred) ->
      count_nonzero coef <= S k) /\
  (check_duplicates = true -> t <= shape1 K ->
   exists g,
     advance estimator loss K (Z.of_nat t) norms n_refit check_duplicates t
       (_fit_generator loss K y) = Some g /\
     count_true (f_selected g) = t /\
     forall j, eqb (nth j (f_coef g) zero) zero = false ->
               nth j (f_selected g) false = true).
Proof.
  intros L _ Hn H0.
  assert (Hfits : n_refit = 0%Z \/ estimator_fits estimator) by (left; exact H0).
  split.
  - intros k coef y_pred Hk. unfold trajectory in Hk.
    apply yields_advance in Hk; try assumption. destruct Hk as [g [Ha [-> _]]].
    assert (Hsp : sparse K check_duplicates (S k + 0) g).
    { eapply sparse_advance;
        [exact Hn | exact L | exact H0 | apply sparse_init | exact Ha]. }
    destruct Hsp as [[Hsel Hcoef] [Hle [_ Hz]]].
    rewrite Nat.add_0_r in Hle.
    etransitivity; [|exact Hle].
    apply count_nonzero_le_selected; [exact L | congruence | exact Hz].
  - intros Hcd Ht.
    assert (Hex : exists g,
               advance estimator loss K (Z.of_nat t) norms n_refit
                 check_duplicates t (_fit_generator loss K y) = Some g).
    { destruct t as [|t]; [eexists; reflexivity|].
      destruct (@advance_total T N estimator loss K (Z.of_nat (S t)) norms
                  n_refit check_duplicates Hn Hfits (S t)
                  (_fit_generator loss K y)) as [g [Ha _]].
      - lia.
      - apply fit_generator_ok.
      - unfold remaining. cbn [f_i _fit_generator]. lia.
      - exists g. exact Ha. }
    destruct Hex as [g Ha]. exists g. split; [exact Ha|].
    assert (Hsp : sparse K check_duplicates (t + 0) g).
    { eapply sparse_advance;
        [exact Hn | exact L | exact H0 | apply sparse_init | exact Ha]. }
    destruct Hsp as [[Hsel Hcoef] [Hle [Heq Hz]]].
    rewrite Nat.add_0_r in Heq.
    split; [apply Heq; assumption|].
    intros j Hj.
    destruct (nth j (f_selected g) false) eqn:Hs; [reflexivity|].
    rewrite (Hz j Hs), eqb_zero_zero in Hj. discriminate.
Qed.
End PursuitTheorems.

(** ** The facade: budget resolution *)

Section FacadeTheorems.
Context {T : Type} {N : Num T}.
Variables Sample Tgt : Type.
Variable target_length : Tgt -> nat.
Variable shuffled : nat -> list nat.
Variable pairwise_kernels : list Sample -> list Sample -> ndarray2 T.
Variable scaler_fit_transform : ndarray2 T -> ndarray2 T.
Variable scaler_transform : ndarray2 T -> ndarray2 T -> ndarray2 T.
Variable _score : Tgt -> list (vec T) -> T.
Variable encode : Tgt -> ndarray2 T.

Local Abbreviation create_components :=
  (create_components target_length shuffled).
Local Abbreviation resolve_components :=
  (resolve_components target_length shuffled).
Local Abbreviation _pre_fit :=
  (_pre_fit target_length shuffled pairwise_kernels scaler_fit_transform).
Local Abbreviation fit :=
  (fit target_length shuffled pairwise_kernels scaler_fit_transform
     scaler_transform _score encode).
Local Abbreviation construct_and_fit :=
  (construct_and_fit target_length shuffled pairwise_kernels
     scaler_fit_transform scaler_transform _score encode).

Lemma column_norms_length (K : ndarray2 T) :
  length (column_norms K) = shape1 K.
Proof. unfold column_norms. rewrite length_map, length_seq. reflexivity. Qed.

(** C5. A negative budget is refused by the constructor, and a budget
    whose resolved integer value exceeds the number of resolved
    components is refused by [_pre_fit]: either way fitting ends with
    the [AttributeError] that signals a bad configuration, whatever the
    kernel, regressor and scorer, none of which is consulted. *)
Theorem budget_refused (self : KMPBase T Sample Tgt) (X : list Sample)
    (y : Tgt) :
  (py_ltb (n_nonzero_coefs self) (PyInt 0) = true ->
   KMPBase_init self = Raise AttributeError /\
   construct_and_fit self X y = Some (Raise AttributeError)) /\
  (forall (components : list Sample) (k : Z),
      resolve_components self X y = Ok components ->
      resolve_budget (n_nonzero_coefs self) (Z.of_nat (length components))
        = Ok (PyInt k) ->
      (Z.of_nat (length components) < k)%Z ->
      _pre_fit self X y = Raise AttributeError /\
      fit self X y = Some (Raise AttributeError)).
Proof.
  split.
  - intro Hneg. unfold construct_and_fit, KMPBase_init.
    rewrite Hneg. split; reflexivity.
  - intros components k Hc Hb Hlt.
    assert (Hpre : _pre_fit self X y = Raise AttributeError).
    { unfold _pre_fit. rewrite Hc. cbn [bind]. rewrite Hb.
      cbn [bind py_ltb].
      destruct (Z.ltb_spec (Z.of_nat (length components)) k); [reflexivity|lia]. }
    split; [exact Hpre|]. unfold fit. rewrite Hpre. reflexivity.
Qed.

(** C10. A budget given as the integer [1] passes the fraction test and
    resolves to [int(1 * n_components)], the number of resolved
    components, so the pursuit runs that many iterations; likewise
    [n_components = 1] makes [create_components] return every sample. *)
Theorem unit_budget_is_whole (self : KMPBase T Sample Tgt) (X : list Sample)
    (y : Tgt) (components : list Sample) :
  n_nonzero_coefs self = PyInt 1 ->
  resolve_components self X y = Ok components ->
  resolve_budget (n_nonzero_coefs self) (Z.of_nat (length components))
    = Ok (PyInt (Z.of_nat (length components))) /\
  (exists p,
      _pre_fit self X y = Ok p /\
      components_ p = components /\
      budget p = PyInt (Z.of_nat (length components)) /\
      (shape1 (dictionary p) = length components ->
       refits_conform (n_refit self) (estimator self) ->
       forall target : vec T,
         conforming (dictionary p) target ->
         length (trajectory (estimator self) (_get_loss self) (dictionary p)
                   (Z.of_nat (length components)) (norms_ p) (n_refit self)
                   (check_duplicates self) target) = length components)) /\
  create_components X y (Some (PyInt 1)) = Ok X.
Proof.
  intros H1 Hc.
  assert (Hb : resolve_budget (n_nonzero_coefs self)
                 (Z.of_nat (length components))
               = Ok (PyInt (Z.of_nat (length components)))).
  { rewrite H1. unfold resolve_budget. cbn.
    destruct (Z.of_nat (length components)); reflexivity. }
  split; [exact Hb|]. split.
  - unfold _pre_fit. rewrite Hc. cbn [bind]. rewrite Hb.
    cbn [bind py_ltb]. rewrite Z.ltb_irrefl.
    eexists. split; [reflexivity|]. cbn [components_ budget dictionary norms_].
    split; [reflexivity|]. split; [reflexivity|].
    intros Hshape Hrefit target _.
    apply trajectory_length.
    + apply column_norms_length.
    + destruct Hrefit as [H0|[Hf _]]; [left|right]; assumption.
    + rewrite Hshape. lia.
  - unfold create_components. cbn.
    destruct (Z.of_nat (length X)) eqn:HX; cbn;
      rewrite ?Z.eqb_refl, ?Pos.eqb_refl; reflexivity.
Qed.
End FacadeTheorems.

(** ** The order of the scalars *)

Section SpecFloatOrder.

Lemma SFltb_irrefl (x : spec_float) : SFltb x x = false.
Proof.
  unfold SFltb, SFcompare.
  destruct x as [s|s| |s m e]; try reflexivity.
  - destruct s; reflexivity.
  - rewrite Z.compare_refl, Pos.compare_cont_refl. destruct s; reflexivity.
Qed.

Lemma SFltb_raise (x y z : spec_float) :
  SFltb x y = true -> SFltb x z = false -> SFltb y z = false.
Proof.
  unfold SFltb, SFcompare.
  destruct x as [sx|sx| |sx mx ex], y as [sy|sy| |sy my ey],
           z as [sz|sz| |sz mz ez];
    try destruct sx; try destruct sy; try destruct sz;
    try discriminate; try reflexivity;
    repeat match goal with
      | |- context [Z.compare ?a ?b] =>
          destruct (Z.compare_spec a b); subst
      end;
    try discriminate; try reflexivity; try lia;
    repeat match goal with
      | |- context [PosDef.Pos.compare_cont Eq ?a ?b] =>
          change (PosDef.Pos.compare_cont Eq a b) with (Pos.compare a b)
      end;
    repeat match goal with
      | |- context [Pos.compare ?a ?b] =>
          destruct (Pos.compare_spec a b); subst
      end;
    simpl; try discriminate; try reflexivity; try lia.
Qed.

Lemma SFltb_floor (x y : spec_float) :
  SFltb (S754_infinity true) x = false -> SFltb y x = false.
Proof.
  unfold SFltb, SFcompare.
  destruct x as [sx|sx| |sx mx ex], y as [sy|sy| |sy my ey];
    try destruct sx; try destruct sy; try discriminate; try reflexivity.
Qed.
End SpecFloatOrder.

Lemma float64_order : OrderLaws float.
Proof.
  split; cbn.
  - intro a. rewrite FloatAxioms.ltb_spec. apply SFltb_irrefl.
  - intros a b c. rewrite !FloatAxioms.ltb_spec. apply SFltb_raise.
  - intros a b. rewrite !FloatAxioms.ltb_spec.
    change (Prim2SF neg_infinity) with (S754_infinity true).
    apply SFltb_floor.
Qed.

Lemma exact_order : OrderLaws R.
Proof.
  split; cbn; unfold Rltb.
  - intro a. destruct (Rlt_dec a a); [lra|reflexivity].
  - intros a b c. destruct (Rlt_dec a b), (Rlt_dec a c), (Rlt_dec b c);
      try reflexivity; try discriminate; lra.
  - discriminate.
Qed.

(** ** The validation loop *)

Section ValidationFacts.
Context {T : Type} {N : Num T}.
Variable Tgt : Type.
Variable _score : Tgt -> list (vec T) -> T.
Variable estimator : Estimator T.
Variable loss : option (Loss T).
Variable K : ndarray2 T.
Variable t : nat.
Variable norms : vec T.
Variable n_refit : Z.
Variable check_duplicates : bool.
Variable K_val : ndarray2 T.
Variable y_val : Tgt.
Variable y : Tgt.
Variable n_validate : Z.
Variable epsilon : T.
Variable self_coef_ : option (list (vec T)).
Variable Y : ndarray2 T.

Local Abbreviation budget := (Z.of_nat t).
Local Abbreviation next :=
  (next estimator loss K budget norms n_refit check_duplicates).
Local Abbreviation next_all :=
  (next_all estimator loss K budget norms n_refit check_duplicates).
Local Abbreviation advance :=
  (advance estimator loss K budget norms n_refit check_duplicates).
Local Abbreviation loop_body :=
  (loop_body _score estimator loss K budget norms n_refit check_duplicates
     K_val y_val y n_validate epsilon).
Local Abbreviation while_true :=
  (while_true _score estimator loss K budget norms n_refit check_duplicates
     K_val y_val y n_validate epsilon).
Local Abbreviation in_lockstep :=
  (in_lockstep estimator loss K budget norms n_refit check_duplicates Y).
Local Abbreviation traced :=
  (traced _score estimator loss K budget norms n_refit check_duplicates
     K_val y_val n_validate self_coef_ Y).
Local Abbreviation quiet :=
  (quiet _score estimator loss K budget norms n_refit check_duplicates
     K_val y_val n_validate epsilon Y).
Local Abbreviation score_at :=
  (validation_score_at _score estimator loss K budget norms n_refit
     check_duplicates K_val y_val Y).
Local Abbreviation snapshot :=
  (snapshot estimator loss K budget norms n_refit check_duplicates Y).
Local Abbreviation coef_after :=
  (coef_after estimator loss K budget norms n_refit check_duplicates).
Local Abbreviation keep_best :=
  (keep_best _score estimator loss K budget norms n_refit check_duplicates
     K_val y_val Y).
Local Abbreviation checkpoints := (checkpoints n_validate).
Local Abbreviation stop_rule := (early_stop_rule epsilon).
Local Abbreviation stepped :=
  (stepped estimator loss K budget norms n_refit check_duplicates).
Local Abbreviation ends_well :=
  (ends_well _score estimator loss K budget norms n_refit check_duplicates
     K_val y_val n_validate epsilon self_coef_ Y t).
Local Abbreviation best_of :=
  (best_of _score estimator loss K budget norms n_refit check_duplicates
     K_val y_val self_coef_ Y).

Lemma advance_snoc (k : nat) (g0 g g' : frame T) (c p : vec T) :
  advance k g0 = Some g -> next g = Yield c p g' ->
  advance (S k) g0 = Some g'.
Proof.
  revert g0; induction k as [|k IH]; intros g0 Ha Hn.
  - inversion Ha; subst. cbn [advance]. rewrite Hn. reflexivity.
  - change (advance (S (S k)) g0)
      with (match next g0 with
            | Yield _ _ g1 => advance (S k) g1
            | _ => None
            end).
    cbn [advance] in Ha.
    destruct (next g0) as [c1 p1 g1| |e]; try discriminate.
    apply IH; assumption.
Qed.

Lemma checkpoints_S (k : nat) :
  checkpoints (S k) =
  checkpoints k ++
    (if (Z.of_nat (S k) mod n_validate =? 0)%Z then [Z.of_nat (S k)] else []).
Proof.
  unfold checkpoints.
  rewrite seq_S, map_app, filter_app. cbn [map filter Nat.add].
  reflexivity.
Qed.

Lemma checkpoints_bound (k : nat) (z : Z) :
  In z (checkpoints k) -> (1 <= z <= Z.of_nat k)%Z.
Proof.
  unfold checkpoints. rewrite filter_In, in_map_iff.
  intros [[j [<- Hj]] _]. apply in_seq in Hj. lia.
Qed.

Hypothesis norms_length : length norms = shape1 K.
Hypothesis fits : n_refit = 0%Z \/ estimator_fits estimator.
Hypothesis has_column : t = 0 \/ 1 <= shape1 K.
Hypothesis has_target : 1 <= shape1 Y.
Hypothesis validates : n_validate <> 0%Z.


Lemma next_all_yield (k : nat) (its : list (frame T)) (ys : list (vec T)) :
  k < t -> Forall2 (stepped k) its ys ->
  exists its',
    next_all its = RYield (map (fun g => (f_coef g, f_y_pred g)) its') its' /\
    Forall2 (stepped (S k)) its' ys.
Proof.
  intros Hk H. induction H as [|g y0 its ys [Ha [Hok Hi]] _ IH].
  - exists []. split; [reflexivity|constructor].
  - destruct IH as [its' [Hn' H']].
    assert (Hm : 1 <= shape1 K) by (destruct has_column; lia).
    destruct (@next_yield T N estimator loss K budget norms n_refit
                check_duplicates norms_length fits g Hm Hok)
      as [g' [Hn [Hok' [Hi' _]]]]; [lia|].
    exists (g' :: its'). split.
    + cbn [next_all map]. rewrite Hn, Hn'. reflexivity.
    + constructor; [|exact H'].
      split; [eapply advance_snoc; eauto|]. split; [exact Hok'|]. lia.
Qed.

Lemma stepped_coefs (k : nat) (its : list (frame T)) (ys : list (vec T)) :
  Forall2 (stepped k) its ys -> map (@f_coef T) its = map (coef_after k) ys.
Proof.
  intro H. induction H as [|g y0 its ys [Ha _] _ IH]; [reflexivity|].
  cbn [map]. rewrite IH. unfold coef_after. rewrite Ha. reflexivity.
Qed.

Lemma targets_nonempty : target_columns Y <> [].
Proof.
  unfold target_columns. destruct (shape1 Y); [lia|]. discriminate.
Qed.

Lemma stop_rule_code (its : list Z) (vs : list T) :
  length its = length vs ->
  ((2 <? length its)%nat && ltb zero epsilon &&
   ltb (abs (div (sub (last vs zero) (nth (length vs - 2) vs zero))
                 (hd zero vs))) epsilon) = stop_rule vs.
Proof.
  intro H. unfold early_stop_rule. rewrite H.
  change (2 <? length vs)%nat with (3 <=? length vs)%nat.
  destruct (3 <=? length vs)%nat, (ltb zero epsilon); reflexivity.
Qed.

(** One pass through the loop body before the budget is used up. *)
Lemma loop_body_pass (k : nat) (s : validation T) :
  k < t -> v_n_iter s = (Z.of_nat k + 1)%Z ->
  in_lockstep k s -> traced k s ->
  exists s',
    traced (S k) s' /\
    ((loop_body s = Continue s' /\ in_lockstep (S k) s' /\
      v_n_iter s' = (Z.of_nat (S k) + 1)%Z /\
      (checkpoints (S k) = checkpoints k \/
       stop_rule (map score_at (checkpoints (S k))) = false)) \/
     (loop_body s = Break s' /\ v_n_iter s' = Z.of_nat (S k) /\
      (Z.of_nat (S k) mod n_validate = 0)%Z /\
      stop_rule (map score_at (checkpoints (S k))) = true)).
Proof.
  intros Hk Hi Hlock [Hits [Hvs Hbest]].
  destruct (next_all_yield Hk Hlock) as [its' [Hn Hlock']].
  unfold loop_body. rewrite Hn.
  destruct its' as [|g' its''].
  { inversion Hlock' as [Hy|]. exfalso. apply targets_nonempty. auto. }
  cbn [map]. cbv beta iota zeta.
  destruct (Z.eqb_spec n_validate 0) as [|_]; [contradiction|].
  assert (Hcoef : fst (f_coef g', f_y_pred g')
                  :: map fst (map (fun g => (f_coef g, f_y_pred g)) its'')
                  = snapshot (S k)).
  { unfold snapshot. rewrite <- (stepped_coefs Hlock').
    cbn [map fst]. rewrite map_map. reflexivity. }
  rewrite Hi. replace (Z.of_nat k + 1)%Z with (Z.of_nat (S k)) by lia.
  rewrite checkpoints_S.
  destruct (Z.of_nat (S k) mod n_validate =? 0)%Z eqn:Hcp.
  - (* a checkpoint *)
    rewrite Hcoef.
    assert (Hscore : _score y_val (dot_coef_T K_val (snapshot (S k)))
                     = score_at (Z.of_nat (S k))).
    { unfold validation_score_at. rewrite Nat2Z.id. reflexivity. }
    rewrite Hscore.
    set (v := score_at (Z.of_nat (S k))).
    assert (Htr : forall n ts,
               traced (S k)
                 {| v_iterators := g' :: its'';
                    v_n_iter := n;
                    v_best_score :=
                      if masked_gtb v (v_best_score s) then Val v
                      else v_best_score s;
                    v_coef_ :=
                      if masked_gtb v (v_best_score s)
                      then Some (snapshot (S k)) else v_coef_ s;
                    v_validation_scores := v_validation_scores s ++ [v];
                    v_training_scores := ts;
                    v_iterations := v_iterations s ++ [Z.of_nat (S k)] |}).
    { intros n ts. unfold traced. cbn [v_iterations v_validation_scores v_best_score v_coef_].
      rewrite checkpoints_S, Hcp, Hits, Hvs, map_app, fold_left_app.
      cbn [map fold_left]. rewrite <- Hbest.
      split; [reflexivity|]. split; [reflexivity|].
      unfold keep_best. cbn [fst]. fold v.
      rewrite Nat2Z.id.
      destruct (masked_gtb v (v_best_score s)); reflexivity. }
    assert (Hlen : length (v_iterations s ++ [Z.of_nat (S k)])
                   = length (v_validation_scores s ++ [v])).
    { rewrite !length_app, Hits, Hvs, length_map. reflexivity. }
    pose proof (stop_rule_code _ _ Hlen) as Hrule.
    assert (Hfull : v_validation_scores s ++ [v]
                    = map score_at (checkpoints k ++ [Z.of_nat (S k)])).
    { rewrite Hvs, map_app. reflexivity. }
    rewrite <- Hfull.
    destruct ((2 <? length (v_iterations s ++ [Z.of_nat (S k)]))%nat
              && ltb zero epsilon) eqn:Hlong.
    + cbn [andb] in Hrule.
      destruct (ltb (abs _) epsilon) eqn:Hlt.
      * eexists. split; cycle 1.
        { right. split; [reflexivity|]. split; [reflexivity|].
          split; [apply Z.eqb_eq; exact Hcp | symmetry; exact Hrule]. }
        apply Htr.
      * eexists. split; cycle 1.
        { left. split; [reflexivity|]. split; [exact Hlock'|].
          split; [reflexivity|]. right. symmetry; exact Hrule. }
        apply Htr.
    + cbn [andb] in Hrule.
      eexists. split; cycle 1.
      { left. split; [reflexivity|]. split; [exact Hlock'|].
        split; [reflexivity|]. right. symmetry; exact Hrule. }
      apply Htr.
  - (* not a checkpoint *)
    rewrite app_nil_r.
    eexists. split; cycle 1.
    { left. split; [reflexivity|]. split; [exact Hlock'|].
      split; [reflexivity|]. left; reflexivity. }
    unfold traced.
    cbn [v_iterations v_validation_scores v_best_score v_coef_].
    rewrite checkpoints_S, Hcp, app_nil_r. auto.
Qed.

Lemma loop_body_exhausted (s : validation T) :
  v_n_iter s = (Z.of_nat t + 1)%Z -> in_lockstep t s ->
  loop_body s = Exhausted s.
Proof.
  intros Hi Hlock. unfold loop_body.
  unfold in_lockstep in Hlock.
  inversion Hlock as [Hits Hys|g y0 its ys [_ [_ Hg]] _ Hits Hys].
  - exfalso. apply targets_nonempty. auto.
  - cbn [next_all].
    rewrite (@next_stop T N estimator loss K budget norms n_refit
               check_duplicates g) by lia.
    reflexivity.
Qed.

Lemma quiet_S (k : nat) :
  quiet k ->
  checkpoints (S k) = checkpoints k \/
  stop_rule (map score_at (checkpoints (S k))) = false ->
  quiet (S k).
Proof.
  intros Hq [Hsame|Hfalse]; unfold quiet in *.
  - rewrite Hsame. exact Hq.
  - intros j Hj.
    destruct (Nat.eq_dec j (length (checkpoints (S k)))) as [->|Hne].
    + rewrite <- (length_map score_at), firstn_all. exact Hfalse.
    + rewrite checkpoints_S in *.
      assert (Hjk : j <= length (checkpoints k)).
      { rewrite length_app in Hj, Hne.
        destruct (Z.of_nat (S k) mod n_validate =? 0)%Z; cbn in *; lia. }
      rewrite map_app, firstn_app.
      replace (j - length (map score_at (checkpoints k))) with 0
        by (rewrite length_map; lia).
      rewrite firstn_O, app_nil_r. apply Hq. lia.
Qed.

Lemma while_true_from (fuel k : nat) (s : validation T) :
  k <= t -> t - k < fuel ->
  v_n_iter s = (Z.of_nat k + 1)%Z -> in_lockstep k s -> traced k s ->
  quiet k ->
  exists o, while_true fuel s = Some o /\ ends_well k o.
Proof.
  revert k s; induction fuel as [|fuel IH]; intros k s Hk Hf Hi Hlock Htr Hq;
    [lia|].
  cbn [while_true].
  destruct (Nat.eq_dec k t) as [->|Hne].
  - rewrite (loop_body_exhausted Hi Hlock).
    eexists. split; [reflexivity|]. exists s, t. split; [exact Htr|].
    left. auto.
  - assert (Hlt : k < t) by lia.
    destruct (loop_body_pass Hlt Hi Hlock Htr)
      as [s' [Htr' [[Hb [Hlock' [Hi' Hcase]]]|[Hb [Hi' [Hmod Hrule]]]]]];
      rewrite Hb.
    + destruct (IH (S k) s') as [o [Ho [s2 [n [Htr2 Hend]]]]]; auto;
        try lia.
      { apply quiet_S; assumption. }
      exists o. split; [exact Ho|]. exists s2, n. split; [exact Htr2|].
      destruct Hend as [Hend|[Ho' [Hn Hrest]]]; [left; exact Hend|].
      right. split; [exact Ho'|]. split; [lia|exact Hrest].
    + eexists. split; [reflexivity|]. exists s', (S k).
      split; [exact Htr'|]. right. split; [reflexivity|].
      split; [lia|]. split; [exact Hi'|]. split; [exact Hmod|].
      split; [|exact Hrule].
      replace (S k - 1) with k by lia. exact Hq.
Qed.

Lemma validation_run :
  exists o,
    _fit_multi_with_validation _score estimator loss K budget norms n_refit
      check_duplicates K_val y_val y n_validate epsilon self_coef_ Y
    = Some o /\ ends_well 0 o.
Proof.
  unfold _fit_multi_with_validation.
  apply while_true_from.
  - lia.
  - unfold budget_fuel. lia.
  - reflexivity.
  - unfold in_lockstep. cbn [v_iterators].
    induction (target_columns Y) as [|y0 ys IH]; cbn [map]; constructor;
      auto.
    split; [reflexivity|]. split; [apply fit_generator_ok|reflexivity].
  - unfold traced. cbn. auto.
  - unfold quiet. cbn. intros j Hj. lia.
Qed.

(** *** Keeping the best score *)

Lemma best_of_fold (l seen : list Z)
    (acc : masked T * option (list (vec T))) :
  OrderLaws T -> best_of seen acc ->
  best_of (seen ++ l) (fold_left keep_best l acc).
Proof.
  clear norms_length fits has_column has_target validates.
  intro L. revert seen acc; induction l as [|z l IH]; intros seen acc H.
  - rewrite app_nil_r. exact H.
  - cbn [fold_left].
    replace (seen ++ z :: l) with ((seen ++ [z]) ++ l)
      by (rewrite <- app_assoc; reflexivity).
    apply IH. unfold keep_best. unfold best_of in *.
    destruct acc as [[|w] c]; cbn [fst snd masked_gtb] in *.
    + destruct H as [Hc Hlow].
      destruct (neg_inf_ltb (score_at z)) eqn:Hz; cbn [fst snd].
      * exists z. split; [apply in_or_app; right; left; reflexivity|].
        split; [reflexivity|]. split; [reflexivity|].
        intros z' Hz'. apply in_app_or in Hz'.
        destruct Hz' as [Hz'|[<-|[]]].
        -- apply ltb_floor. apply Hlow. exact Hz'.
        -- apply ltb_irrefl.
      * split; [exact Hc|]. intros z' Hz'. apply in_app_or in Hz'.
        destruct Hz' as [Hz'|[<-|[]]]; auto.
    + destruct H as [z0 [Hin [Hw [Hc Hmax]]]].
      destruct (ltb w (score_at z)) eqn:Hz; cbn [fst snd].
      * exists z. split; [apply in_or_app; right; left; reflexivity|].
        split; [reflexivity|]. split; [reflexivity|].
        intros z' Hz'. apply in_app_or in Hz'.
        destruct Hz' as [Hz'|[<-|[]]].
        -- apply (ltb_raise w); [exact Hz | apply Hmax; exact Hz'].
        -- apply ltb_irrefl.
      * exists z0. split; [apply in_or_app; left; exact Hin|].
        split; [exact Hw|]. split; [exact Hc|].
        intros z' Hz'. apply in_app_or in Hz'.
        destruct Hz' as [Hz'|[<-|[]]]; auto.
Qed.

End ValidationFacts.

Section ValidationTheorems.
Context {T : Type} {N : Num T}.
Variable Tgt : Type.
Variable _score : Tgt -> list (vec T) -> T.
Variable estimator : Estimator T.
Variable loss : option (Loss T).
Variable K : ndarray2 T.
Variable t : nat.
Variable norms : vec T.
Variable n_refit : Z.
Variable check_duplicates : bool.
Variable K_val : ndarray2 T.
Variable y_val : Tgt.
Variable y : Tgt.
Variable n_validate : Z.
Variable epsilon : T.
Variable self_coef_ : option (list (vec T)).
Variable Y : ndarray2 T.

Local Abbreviation budget := (Z.of_nat t).
Local Abbreviation score_at :=
  (validation_score_at _score estimator loss K budget norms n_refit
     check_duplicates K_val y_val Y).
Local Abbreviation snapshot :=
  (snapshot estimator loss K budget norms n_refit check_duplicates Y).
Local Abbreviation keep_best :=
  (keep_best _score estimator loss K budget norms n_refit check_duplicates
     K_val y_val Y).
Local Abbreviation checkpoints := (checkpoints n_validate).
Local Abbreviation stop_rule := (early_stop_rule epsilon).
Local Abbreviation best_of :=
  (best_of _score estimator loss K budget norms n_refit check_duplicates
     K_val y_val self_coef_ Y).

(** The run of a validated fit on conforming shapes returns, its
    records being those of the checkpoints passed. *)
Lemma conforming_run :
  validation_conforms K Y K_val ->
  length norms = shape1 K ->
  refits_conform n_refit estimator ->
  t = 0 \/ 1 <= shape1 K ->
  1 <= shape1 Y ->
  n_validate <> 0%Z ->
  exists o,
    _fit_multi_with_validation _score estimator loss K budget norms n_refit
      check_duplicates K_val y_val y n_validate epsilon self_coef_ Y
    = Some o /\
    ends_well _score estimator loss K budget norms n_refit check_duplicates
      K_val y_val n_validate epsilon self_coef_ Y t 0 o.
Proof.
  intros _ Hn Hrefit Hcol Htgt Hval.
  apply validation_run; try assumption.
  destruct Hrefit as [H0|[Hf _]]; [left|right]; assumption.
Qed.


(** C3, amended.  The run returns, and when some recorded validation
    score is above [-inf] the coefficient matrix it leaves in
    [self.coef_] is the snapshot taken at a checkpoint whose validation
    score no recorded score exceeds; when no recorded score is above
    [-inf] (each is NaN or [-inf]), [self.coef_] is left as it was. *)
Theorem best_snapshot_stored :
  OrderLaws T ->
  validation_conforms K Y K_val ->
  length norms = shape1 K ->
  refits_conform n_refit estimator ->
  t = 0 \/ 1 <= shape1 K ->
  1 <= shape1 Y ->
  n_validate <> 0%Z ->
  exists o s n,
    _fit_multi_with_validation _score estimator loss K budget norms n_refit
      check_duplicates K_val y_val y n_validate epsilon self_coef_ Y
    = Some o /\
    (o = Break s \/ o = Exhausted s) /\
    v_iterations s = checkpoints n /\
    v_validation_scores s = map score_at (v_iterations s) /\
    ((exists z, In z (v_iterations s) /\ neg_inf_ltb (score_at z) = true) ->
     exists z,
       In z (v_iterations s) /\
       v_coef_ s = Some (snapshot (Z.to_nat z)) /\
       v_best_score s = Val (score_at z) /\
       forall z', In z' (v_iterations s) ->
                  ltb (score_at z) (score_at z') = false) /\
    ((forall z, In z (v_iterations s) -> neg_inf_ltb (score_at z) = false) ->
     v_coef_ s = self_coef_).
Proof.
  intros L Hshape Hnorms Hrefit Hcol Htgt Hval.
  destruct (conforming_run Hshape Hnorms Hrefit Hcol Htgt Hval)
    as [o [Hrun [s [n [[Hits [Hvs Hbest]] Hend]]]]].
  clear Hshape Hnorms Hrefit Hcol Htgt Hval.
  exists o, s, n. split; [exact Hrun|].
  split; [destruct Hend as [[Ho _]|[Ho _]]; auto|].
  split; [exact Hits|]. split; [rewrite Hits; exact Hvs|].
  assert (H : best_of ([] ++ checkpoints n)
                (fold_left keep_best (checkpoints n) (NegInf, self_coef_))).
  { apply best_of_fold; [exact L|]. cbn. split; [reflexivity|].
    intros z []. }
  rewrite <- Hbest, <- Hits in H. cbn [app] in H. unfold best_of in H.
  cbn [fst snd] in H.
  destruct (v_best_score s) as [|v].
  - destruct H as [Hc Hlow]. split.
    + intros [z [Hz Hup]]. rewrite (Hlow z Hz) in Hup. discriminate.
    + intros _. exact Hc.
  - destruct H as [z [Hz [Hv [Hc Hmax]]]]. split.
    + intros _. exists z. split; [exact Hz|]. split; [exact Hc|].
      split; [rewrite Hv; reflexivity|]. rewrite <- Hv. exact Hmax.
    + intros Hlow.
      (* the best score was recorded above [-inf] or above a score *)
      exfalso. clear Hc.
      assert (Hnone : forall l acc,
                 (forall z, In z l -> neg_inf_ltb (score_at z) = false) ->
                 fst acc = NegInf ->
                 fst (fold_left keep_best l acc) = NegInf).
      { clear. induction l as [|z l IH]; intros acc Hl Hacc; [exact Hacc|].
        cbn [fold_left]. apply IH; [intros; apply Hl; right; assumption|].
        unfold keep_best. rewrite Hacc. cbn [masked_gtb].
        rewrite (Hl z (or_introl eq_refl)). exact Hacc. }
      specialize (Hnone (checkpoints n) (NegInf, self_coef_)).
      rewrite <- Hbest, <- Hits in Hnone. cbn [fst] in Hnone.
      discriminate Hnone; auto.
Qed.

End ValidationTheorems.

(** ** Exact arithmetic *)

Section ExactSums.
Open Scope R_scope.

Lemma fold_left_Rplus (l : list R) (a : R) :
  fold_left Rplus l a = a + fold_left Rplus l 0.
Proof.
  revert a; induction l as [|x l IH]; intro a; simpl; [lra|].
  rewrite (IH (a + x)), (IH (0 + x)). lra.
Qed.

Lemma vsum_cons (x : R) (l : list R) : vsum (x :: l) = x + vsum l.
Proof.
  unfold vsum. cbn. rewrite fold_left_Rplus. lra.
Qed.

Lemma vsum_nil : vsum (T := R) [] = 0.
Proof. reflexivity. Qed.

Lemma sum_squares_nonneg (k : list R) :
  0 <= vsum (map (fun c => mul c c) k).
Proof.
  induction k as [|c k IH]; cbn [map].
  - rewrite vsum_nil. lra.
  - rewrite vsum_cons. cbn [mul exact] in *. nra.
Qed.

Lemma dot_cons (a b : R) (u v : list R) :
  dot (a :: u) (b :: v) = a * b + dot u v.
Proof. unfold dot. cbn [map2]. rewrite vsum_cons. reflexivity. Qed.

(** The squared length of [r - alpha k]. *)
Lemma squares_after_step (r k : list R) (alpha : R) :
  length r = length k ->
  vsum (map (fun d => mul d d) (map2 sub r (map (mul alpha) k))) =
  vsum (map (fun d => mul d d) r) - 2 * alpha * dot k r
  + alpha * alpha * vsum (map (fun c => mul c c) k).
Proof.
  revert k; induction r as [|x r IH]; intros [|c k] H; try discriminate.
  - cbn. unfold dot. cbn. lra.
  - cbn [map map2]. rewrite !vsum_cons, dot_cons, IH by (simpl in H; lia).
    cbn [mul sub exact]. ring.
Qed.

Lemma sub_add_assoc (y p w : list R) :
  map2 sub y (map2 add p w) = map2 sub (map2 sub y p) w.
Proof.
  revert p w; induction y as [|a y IH]; intros [|b p] [|c w]; cbn [map2];
    try reflexivity.
  rewrite IH. cbn [sub add exact]. f_equal. ring.
Qed.

Lemma sub_zeros (y : list R) (n : nat) :
  (length y <= n)%nat -> map2 sub y (zeros n) = y.
Proof.
  revert n; induction y as [|a y IH]; intros [|n] H; cbn [length] in H;
    try lia; try reflexivity.
  unfold zeros. cbn [repeat map2].
  change (repeat zero n) with (zeros (T := R) n).
  rewrite IH by lia. f_equal. cbn. lra.
Qed.

(** The optimal step along [k] does not lengthen the residual. *)
Lemma line_search_descends (r k : list R) :
  length r = length k ->
  vsum (map (fun c => mul c c) k) <> 0 ->
  let alpha := dot k r / vsum (map (fun c => mul c c) k) in
  vsum (map (fun d => mul d d) (map2 sub r (map (mul alpha) k)))
  <= vsum (map (fun d => mul d d) r).
Proof.
  intros Hlen Hs alpha. rewrite squares_after_step by exact Hlen.
  pose proof (sum_squares_nonneg k) as Hnn.
  set (s := vsum (map (fun c => mul c c) k)) in *.
  set (d := dot k r) in *.
  assert (Hpos : 0 < s) by lra.
  assert (Ha : alpha * s = d).
  { subst alpha. field. lra. }
  assert (H2 : alpha * alpha * s = alpha * d) by (rewrite <- Ha; ring).
  rewrite H2.
  assert (Hd : 0 <= alpha * d).
  { rewrite <- Ha. replace (alpha * (alpha * s)) with (alpha * alpha * s) by ring.
    apply Rmult_le_pos; [nra|lra]. }
  lra.
Qed.

(** Dividing twice by the norm is dividing by its square. *)
Lemma div_norm_twice (d s : R) :
  0 <= s -> d / R_sqrt.sqrt s / R_sqrt.sqrt s = d / s.
Proof.
  intro Hs. destruct (Req_dec s 0) as [->|Hne].
  - rewrite sqrt_0. unfold Rdiv. rewrite Rinv_0. ring.
  - assert (Hq : R_sqrt.sqrt s * R_sqrt.sqrt s = s)
      by (apply sqrt_sqrt; exact Hs).
    assert (Hq0 : R_sqrt.sqrt s <> 0).
    { intro H0. rewrite H0 in Hq. lra. }
    rewrite <- Hq at 3. field. exact Hq0.
Qed.
End ExactSums.

Section StepFacts.
Context {T : Type} {N : Num T}.
Variable estimator : Estimator T.
Variable loss : option (Loss T).
Variable K : ndarray2 T.
Variable n_nonzero_coefs : Z.
Variable norms : vec T.
Variable n_refit : Z.
Variable check_duplicates : bool.

Local Abbreviation iteration :=
  (iteration estimator loss K norms n_refit check_duplicates).
Local Abbreviation next :=
  (next estimator loss K n_nonzero_coefs norms n_refit check_duplicates).
Local Abbreviation advance :=
  (advance estimator loss K n_nonzero_coefs norms n_refit check_duplicates).

Lemma nth_map_seq {A : Type} (f : nat -> A) (n j : nat) (d : A) :
  j < n -> nth j (map f (seq 0 n)) d = f j.
Proof.
  intro H. rewrite (nth_indep _ d (f 0)) by (rewrite length_map, length_seq; exact H).
  rewrite (map_nth f (seq 0 n) 0 j), seq_nth by exact H. reflexivity.
Qed.

Lemma column_length (j : nat) :
  well_shaped K -> length (column K j) = shape0 K.
Proof. intros [H _]. unfold column. rewrite length_map. exact H. Qed.

(** The single-coordinate branch of the loop body. *)
Lemma iteration_single (i : Z) (s s' : frame T) :
  negb (n_refit =? 0)%Z && (i mod n_refit =? 0)%Z = false ->
  iteration i s = Ok s' ->
  let residuals :=
    match loss with
    | Some l => negative_gradient l (f_y s) (f_y_pred s)
    | None => f_residuals s
    end in
  let dots := correlations K norms residuals in
  exists best,
    select_best check_duplicates dots (f_selected s) = Ok best /\
    let alpha :=
      match loss with
      | None => div (nth best dots zero) (nth best norms zero)
      | Some l => line_search l (f_y s) (f_y_pred s) (column K best)
      end in
    f_y s' = f_y s /\
    f_selected s' = set_at (f_selected s) best true /\
    f_coef s' = set_at (f_coef s) best (add (nth best (f_coef s) zero) alpha) /\
    f_y_pred s' = map2 add (f_y_pred s) (map (mul alpha) (column K best)) /\
    f_residuals s' =
      match loss with
      | None => map2 sub residuals (map (mul alpha) (column K best))
      | Some _ => residuals
      end.
Proof.
  intros Hb. unfold iteration. rewrite Hb.
  destruct (select_best _ _ _) as [best|e]; [|discriminate].
  cbn [bind]. intro H. inversion H; subst; clear H. cbn.
  exists best. repeat split.
Qed.

(** The refit branch of the loop body. *)
Lemma iteration_refit (i : Z) (s s' : frame T) :
  negb (n_refit =? 0)%Z && (i mod n_refit =? 0)%Z = true ->
  iteration i s = Ok s' ->
  exists selected,
    f_y s' = f_y s /\
    f_y_pred s' =
      est_decision_function estimator (columns_where K selected) (f_y s).
Proof.
  intros Hb. unfold iteration. rewrite Hb.
  destruct (select_best _ _ _) as [best|e]; [|discriminate].
  cbn [bind].
  destruct (mask_assign _ _ _) as [c|e]; [|discriminate].
  cbn [bind]. intro H. inversion H; subst; clear H. cbn.
  eexists. split; reflexivity.
Qed.

Lemma advance_S_inv (k : nat) (g0 g' : frame T) :
  advance (S k) g0 = Some g' ->
  exists g c p, advance k g0 = Some g /\ next g = Yield c p g'.
Proof.
  revert g0; induction k as [|k IH]; intros g0 H.
  - cbn [advance] in H.
    destruct (next g0) as [c p g1| |e] eqn:Hn; try discriminate.
    inversion H; subst. exists g0, c, p. split; [reflexivity|exact Hn].
  - change (advance (S (S k)) g0)
      with (match next g0 with
            | Yield _ _ g1 => advance (S k) g1
            | _ => None
            end) in H.
    destruct (next g0) as [c1 p1 g1| |e] eqn:Hn; try discriminate.
    destruct (IH g1 H) as [g [c [p [Ha Hg]]]].
    exists g, c, p. split; [|exact Hg].
    cbn [advance]. rewrite Hn. exact Ha.
Qed.

Local Abbreviation on_target := (on_target K).

Hypothesis shaped : well_shaped K.
Hypothesis predicts : n_refit = 0%Z \/ estimator_predicts estimator.

Lemma on_target_next (y : vec T) (k : nat) (g g' : frame T) (c p : vec T) :
  on_target y k g -> next g = Yield c p g' -> on_target y (S k) g'.
Proof.
  intros [Hy [Hi Hp]] Hn.
  destruct (@next_inv T N estimator loss K n_nonzero_coefs norms n_refit
              check_duplicates g g' c p Hn)
    as [s' [Hit [_ [_ [_ [_ [Hp' [Hy' [_ Hi']]]]]]]]].
  unfold on_target. rewrite Hy', Hp', Hi'.
  destruct (negb (n_refit =? 0)%Z && (f_i g mod n_refit =? 0)%Z) eqn:Hb.
  - destruct (iteration_refit _ _ Hb Hit) as [sel [Hys Hps]].
    split; [congruence|]. split; [lia|].
    rewrite Hps.
    destruct predicts as [H0|Hpr]; [rewrite H0 in Hb; discriminate|].
    rewrite Hpr. reflexivity.
  - destruct (iteration_single _ _ Hb Hit) as [best [_ [Hys [_ [_ [Hps _]]]]]].
    split; [congruence|]. split; [lia|].
    rewrite Hps, map2_length, length_map, column_length, Hp by exact shaped.
    apply Nat.min_id.
Qed.

Lemma on_target_advance (y : vec T) (k j : nat) (g g' : frame T) :
  on_target y j g -> advance k g = Some g' -> on_target y (k + j) g'.
Proof.
  revert j g; induction k as [|k IH]; intros j g Hg Ha.
  - inversion Ha; subst. exact Hg.
  - cbn [advance] in Ha.
    destruct (next g) as [c p g1| |e] eqn:Hn; try discriminate.
    replace (S k + j) with (k + S j) by lia.
    apply (IH (S j) g1); [|exact Ha].
    eapply on_target_next; eauto.
Qed.

Lemma on_target_init (y : vec T) : on_target y 0 (_fit_generator loss K y).
Proof.
  clear shaped predicts.
  split; [reflexivity|]. split; [reflexivity|].
  cbn. apply repeat_length.
Qed.
End StepFacts.

Section ExactPursuit.
Open Scope R_scope.
Variable estimator : Estimator R.
Variable K : ndarray2 R.
Variable n_refit : Z.
Variable check_duplicates : bool.

(** C2, amended.  In exact arithmetic, with the squared loss, a
    dictionary whose columns are nonzero, and an iteration [k + 2] that
    is a single-coordinate update, the squared training error of the
    prediction after iteration [k + 2] is at most the one after
    iteration [k + 1]. *)
Theorem squared_error_descends (norms y c1 p1 c2 p2 : vec R) (t k : nat) :
  conforming K y ->
  length norms = shape1 K ->
  n_refit = 0%Z \/ estimator_predicts estimator ->
  (forall j, (j < shape1 K)%nat ->
             vsum (map (fun c => mul c c) (column K j)) <> 0) ->
  n_refit = 0%Z \/ (Z.of_nat (k + 2) mod n_refit <> 0)%Z ->
  nth_error (trajectory estimator (Some SquaredLoss) K (Z.of_nat t) norms
               n_refit check_duplicates y) k = Some (c1, p1) ->
  nth_error (trajectory estimator (Some SquaredLoss) K (Z.of_nat t) norms
               n_refit check_duplicates y) (S k) = Some (c2, p2) ->
  squared_error y p2 <= squared_error y p1.
Proof.
  intros [Hshape Hy] _ Hpred Hnz Hsingle H1 H2.
  unfold trajectory in H1, H2.
  apply yields_advance in H1. destruct H1 as [g1 [Ha1 [_ Hp1]]].
  apply yields_advance in H2. destruct H2 as [g2 [Ha2 [_ Hp2]]].
  apply advance_S_inv in Ha2. destruct Ha2 as [g [c [p [Ha Hn]]]].
  rewrite Ha1 in Ha. inversion Ha; subst g; clear Ha.
  assert (Ht : on_target K y (S k + 0) g1).
  { eapply on_target_advance;
      [exact Hshape | exact Hpred | apply on_target_init | exact Ha1]. }
  destruct Ht as [Hy1 [Hi1 Hlen1]].
  destruct (@next_inv R exact estimator (Some SquaredLoss) K (Z.of_nat t)
              norms n_refit check_duplicates g1 g2 c p Hn)
    as [s' [Hit [_ [_ [_ [_ [Hp' _]]]]]]].
  assert (Hb : negb (n_refit =? 0)%Z && (f_i g1 mod n_refit =? 0)%Z = false).
  { destruct Hsingle as [H0|Hmod]; [rewrite H0; reflexivity|].
    rewrite Hi1. replace (Z.of_nat (S k + 0) + 1)%Z with (Z.of_nat (k + 2)) by lia.
    apply andb_false_iff. right. apply Z.eqb_neq. exact Hmod. }
  apply (iteration_single _ _ _ _ _ _ _ _ Hb) in Hit.
  destruct Hit as [best [Hbest [_ [_ [_ [Hps _]]]]]].
  apply argmax_in_range in Hbest.
  assert (Hlt : (best < shape1 K)%nat).
  { destruct check_duplicates; unfold mask_neg_inf in Hbest;
      rewrite ?map2_length, !length_map in Hbest;
      unfold correlations, dot_T in Hbest;
      rewrite map2_length, length_map, length_seq in Hbest; lia. }
  subst p1 p2. rewrite Hp', Hps. rewrite Hy1.
  unfold squared_error. rewrite sub_add_assoc.
  cbn [line_search SquaredLoss].
  apply line_search_descends.
  - rewrite map2_length, Hy, Hlen1, column_length by exact Hshape.
    apply Nat.min_id.
  - apply Hnz. exact Hlt.
Qed.
End ExactPursuit.

Section ExactEquivalence.
Open Scope R_scope.
Variable estimator : Estimator R.
Variable K : ndarray2 R.
Variable n_nonzero_coefs : Z.
Variable check_duplicates : bool.

Local Abbreviation norms := (column_norms K).
Local Abbreviation next_plain :=
  (next estimator None K n_nonzero_coefs norms 0 check_duplicates).
Local Abbreviation next_squared :=
  (next estimator (Some SquaredLoss) K n_nonzero_coefs norms 0
     check_duplicates).

Local Abbreviation twin := (twin K).

Lemma nth_column_norms (j : nat) :
  (j < shape1 K)%nat ->
  nth j norms 0 = R_sqrt.sqrt (vsum (map (fun c => mul c c) (column K j))).
Proof.
  intro H. unfold column_norms.
  rewrite (nth_map_seq (fun j => sqrt (vsum (map (fun k => mul k k) (column K j))))
             0 H).
  reflexivity.
Qed.

Lemma twin_next (g1 g2 : frame R) :
  twin g1 g2 ->
  match next_plain g1, next_squared g2 with
  | Yield c1 p1 g1', Yield c2 p2 g2' => c1 = c2 /\ p1 = p2 /\ twin g1' g2'
  | StopIteration, StopIteration => True
  | Throw e1, Throw e2 => e1 = e2
  | _, _ => False
  end.
Proof.
  intros [Hy [Hi [Hc [Hs [Hp [Hr [Hsel Hcoef]]]]]]].
  unfold next. rewrite <- Hi.
  destruct (n_nonzero_coefs <? f_i g1)%Z; [exact I|].
  unfold iteration. cbn [Z.eqb negb andb negative_gradient SquaredLoss].
  rewrite <- Hy, <- Hs, <- Hp, <- Hc.
  rewrite Hr, <- Hy, <- Hp.
  set (r := map2 sub (f_y g1) (f_y_pred g1)).
  destruct (select_best check_duplicates (correlations K norms r)
              (f_selected g1)) as [best|e] eqn:Hbest; cbn [bind];
    [|reflexivity].
  assert (Hlt : (best < shape1 K)%nat).
  { eapply select_best_range; [| |exact Hsel|exact Hbest].
    - apply column_norms_length.
    - apply correlations_length. apply column_norms_length. }
  assert (Halpha :
            div (nth best (correlations K norms r) zero) (nth best norms zero)
            = line_search SquaredLoss (f_y g1) (f_y_pred g1) (column K best)).
  { cbn [line_search SquaredLoss]. fold r.
    unfold correlations.
    rewrite (@map2_nth _ _ _ div (dot_T K r) norms best zero zero zero)
      by (unfold dot_T; rewrite ?length_map, ?length_seq, ?column_norms_length; lia).
    unfold dot_T. rewrite (nth_map_seq (fun j => dot (column K j) r) zero Hlt).
    cbn [zero exact]. rewrite nth_column_norms by exact Hlt.
    cbn [div exact]. apply div_norm_twice. apply sum_squares_nonneg. }
  rewrite Halpha.
  set (alpha := line_search SquaredLoss (f_y g1) (f_y_pred g1) (column K best)).
  cbn [f_coef f_y_pred f_y f_selected f_residuals f_i].
  split; [reflexivity|]. split; [reflexivity|].
  unfold twin, frame_ok.
  cbn [f_coef f_y_pred f_y f_selected f_residuals f_i].
  repeat split; try reflexivity.
  - subst r. symmetry. apply sub_add_assoc.
  - rewrite set_at_length. exact Hsel.
  - rewrite set_at_length. exact Hcoef.
Qed.

Lemma twin_yields (fuel : nat) (g1 g2 : frame R) :
  twin g1 g2 ->
  yields estimator None K n_nonzero_coefs norms 0 check_duplicates fuel g1 =
  yields estimator (Some SquaredLoss) K n_nonzero_coefs norms 0
    check_duplicates fuel g2.
Proof.
  revert g1 g2; induction fuel as [|fuel IH]; intros g1 g2 H; [reflexivity|].
  cbn [yields]. pose proof (twin_next H) as Hn.
  destruct (next_plain g1) as [c1 p1 g1'| |e1],
           (next_squared g2) as [c2 p2 g2'| |e2];
    try contradiction; try reflexivity.
  destruct Hn as [-> [-> Ht]]. f_equal. apply IH. exact Ht.
Qed.

(** C1, amended.  In exact arithmetic, with the column norms that
    [_pre_fit] computes and no refit, the run without loss and the run
    with the squared loss yield the same coefficient vector and the same
    prediction after every iteration. *)
Theorem squared_loss_equivalence (y : vec R) :
  conforming K y ->
  trajectory estimator None K n_nonzero_coefs norms 0 check_duplicates y =
  trajectory estimator (Some SquaredLoss) K n_nonzero_coefs norms 0
    check_duplicates y.
Proof.
  intros [_ Hy]. unfold trajectory. apply twin_yields.
  unfold twin, frame_ok, _fit_generator.
  cbn [f_coef f_y_pred f_y f_selected f_residuals f_i].
  repeat split; try reflexivity.
  - symmetry. apply sub_zeros. lia.
  - apply repeat_length.
  - apply repeat_length.
Qed.
End ExactEquivalence.

(** ** The properties on concrete inputs *)

Section OnFloat64.
Import Float64Examples.

(** The end-to-end runs of the specification: an orthonormal dictionary
    recovers the target in one step per component. *)
Example recover_one :
  trajectory no_estimator None identity4 1 (column_norms identity4) 0 true
    [1; 0; 0; 0]%float
  = [([1; 0; 0; 0]%float, [1; 0; 0; 0]%float)].
Proof. vm_compute. reflexivity. Qed.

Example recover_two :
  trajectory no_estimator None identity4 2 (column_norms identity4) 0 true
    [1; 1; 0; 0]%float
  = [([1; 0; 0; 0]%float, [1; 0; 0; 0]%float);
     ([1; 1; 0; 0]%float, [1; 1; 0; 0]%float)].
Proof. vm_compute. reflexivity. Qed.

Example prune_middle :
  prune three_components two_rows = ([10; 30], [[1; 2]; [0; 3]]%float).
Proof. vm_compute. reflexivity. Qed.

(** C1, as stated, fails on binary64: on a column of norm [sqrt 2] the
    step of the run without loss, [(1 / sqrt 2) / sqrt 2], rounds to
    [0.49999999999999994] (the float below [0.5]), and the step of the
    squared loss, [1 / 2], is [0.5]. *)
Lemma squared_loss_rounding :
  plain_run = [([0x1.fffffffffffffp-2]%float,
                [0x1.fffffffffffffp-2; 0x1.fffffffffffffp-2]%float)] /\
  squared_run = [([0.5]%float, [0.5; 0.5]%float)] /\
  plain_run <> squared_run.
Proof.
  split; [vm_compute; reflexivity|]. split; [vm_compute; reflexivity|].
  intro H.
  apply (f_equal (map (fun cp => map Prim2SF (fst cp)))) in H.
  vm_compute in H. discriminate H.
Qed.

(** C2, as stated, fails on binary64: the second step along the same
    column moves the prediction by a rounding error, and the squared
    error, whether summed in binary64 or exactly, grows. *)
Lemma squared_error_rounding :
  exists c1 p1 c2 p2,
    nth_error skew_run 0 = Some (c1, p1) /\
    nth_error skew_run 1 = Some (c2, p2) /\
    ltb (squared_error [3; -1]%float p1) (squared_error [3; -1]%float p2)
      = true /\
    QArith_base.Qlt (rational_squared_error [3; -1]%float p1)
                    (rational_squared_error [3; -1]%float p2).
Proof.
  eexists. eexists. eexists. eexists.
  split; [vm_compute; reflexivity|]. split; [vm_compute; reflexivity|].
  split; vm_compute; reflexivity.
Qed.

(** C3, as stated, fails on binary64: with a zero column in the
    dictionary every score is NaN, no score compares above [-inf], and
    the run reaches two checkpoints but stores no coefficient matrix;
    [fit] then finds no [coef_] to prune. *)
Lemma best_snapshot_missing :
  (exists s, zero_sample_fit = Some (Exhausted s) /\
             v_iterations s = [1; 2]%Z /\ v_coef_ s = None) /\
  fit_regressor
    (regressor (PyInt 2) true (Some ([0; 2]%float, [1; 2]%float)))
    [0; 2]%float [1; 2]%float
  = Some (Raise AttributeError).
Proof.
  split; [|vm_compute; reflexivity].
  vm_compute. eexists. split; [reflexivity|]. split; reflexivity.
Qed.

(** C6, as stated, fails: once the first component explains the target,
    the second iteration selects a new index with a zero step, and one
    coefficient, not two, is nonzero after two iterations. *)
Lemma one_nonzero_after_two :
  degenerate_run = [([1; 0]%float, [1; 0]%float);
                    ([1; 0]%float, [1; 0]%float)] /\
  exists coef y_pred,
    nth_error degenerate_run 1 = Some (coef, y_pred) /\
    count_nonzero coef = 1 /\ count_nonzero coef <> 2.
Proof.
  split; [vm_compute; reflexivity|].
  eexists. eexists. split; [vm_compute; reflexivity|].
  split; [vm_compute; reflexivity|]. vm_compute. discriminate.
Qed.

(** *** The theorems at these inputs *)

Lemma prune_spec_witness :
  exists idx : list nat,
    StronglySorted lt idx /\
    (forall j, In j idx <-> j < 3 /\ nonzero_somewhere two_rows j) /\
    map Some (fst (prune three_components two_rows))
    = map (nth_error three_components) idx /\
    snd (prune three_components two_rows)
    = map (fun r => map (fun j => nth j r zero) idx) two_rows /\
    Forall (fun r => length r = length (fst (prune three_components two_rows)))
           (snd (prune three_components two_rows)).
Proof.
  apply (prune_spec three_components (coef_ := two_rows) (m := 3)).
  - reflexivity.
  - repeat constructor.
Defined.

Lemma prune_twice_witness :
  prune (fst (prune three_components two_rows))
        (snd (prune three_components two_rows))
  = prune three_components two_rows.
Proof.
  apply (prune_twice three_components (coef_ := two_rows) (m := 3)).
  repeat constructor.
Defined.

Lemma pursuit_yields_budget_witness :
  length (trajectory no_estimator None identity2 (Z.of_nat 2)
            (column_norms identity2) 0 true [1; 0]%float) = 2 /\
  (exists r, _fit_last no_estimator None identity2 (Z.of_nat 2)
               (column_norms identity2) 0 true [1; 0]%float = Some r) /\
  (forall (dots : vec float) (selected : list bool),
      dots <> [] -> length selected = length dots ->
      Forall (fun b => b = true) selected ->
      select_best true dots selected = Ok 0).
Proof.
  apply (@pursuit_yields_budget float float64 no_estimator None identity2
           (column_norms identity2) 0%Z true [1; 0]%float 2).
  - split; [split; [reflexivity | repeat constructor] | reflexivity].
  - reflexivity.
  - left; reflexivity.
  - right. cbn. lia.
Defined.

Lemma pursuit_sparsity_witness :
  (forall k coef y_pred,
      nth_error (trajectory no_estimator None identity2 (Z.of_nat 2)
                   (column_norms identity2) 0 true [1; 0]%float) k
      = Some (coef, y_pred) ->
      count_nonzero coef <= S k) /\
  (true = true -> 2 <= shape1 identity2 ->
   exists g,
     advance no_estimator None identity2 (Z.of_nat 2)
       (column_norms identity2) 0 true 2
       (_fit_generator None identity2 [1; 0]%float) = Some g /\
     count_true (f_selected g) = 2 /\
     forall j, eqb (nth j (f_coef g) zero) zero = false ->
               nth j (f_selected g) false = true).
Proof.
  apply (@pursuit_sparsity float float64 no_estimator None identity2
           (column_norms identity2) 0%Z true [1; 0]%float 2).
  - exact float64_laws.
  - split; [split; [reflexivity | repeat constructor] | reflexivity].
  - reflexivity.
  - reflexivity.
Defined.

Lemma budget_refused_witness :
  construct_and_fit_regressor (regressor (PyInt (-1)) true None)
    [1; 2]%float [1; 2]%float = Some (Raise AttributeError) /\
  fit_regressor (regressor (PyInt 5) true None)
    [1; 2]%float [1; 2]%float = Some (Raise AttributeError).
Proof.
  split.
  - apply (budget_refused (@length float) (seq 0) linear_kernel
             (fun K => K) (fun _ K => K) regression_score reshape_column
             (regressor (PyInt (-1)) true None) [1; 2]%float [1; 2]%float).
    reflexivity.
  - apply (proj2
             (budget_refused (@length float) (seq 0) linear_kernel
                (fun K => K) (fun _ K => K) regression_score reshape_column
                (regressor (PyInt 5) true None) [1; 2]%float [1; 2]%float)
             [1; 2]%float 5%Z); reflexivity.
Defined.

Lemma unit_budget_is_whole_witness :
  resolve_budget (n_nonzero_coefs (regressor (PyInt 1) true None))
    (Z.of_nat (length [1; 2]%float))
  = Ok (PyInt (Z.of_nat (length [1; 2]%float))) /\
  (exists p,
      _pre_fit (@length float) (seq 0) linear_kernel (fun K => K)
        (regressor (PyInt 1) true None) [1; 2]%float [1; 2]%float = Ok p /\
      components_ p = [1; 2]%float /\
      budget p = PyInt (Z.of_nat (length [1; 2]%float)) /\
      (shape1 (dictionary p) = length [1; 2]%float ->
       refits_conform (n_refit (regressor (PyInt 1) true None))
         (estimator (regressor (PyInt 1) true None)) ->
       forall y : vec float,
         conforming (dictionary p) y ->
         length (trajectory (estimator (regressor (PyInt 1) true None))
                   (_get_loss (regressor (PyInt 1) true None))
                   (dictionary p) (Z.of_nat (length [1; 2]%float))
                   (norms_ p) (n_refit (regressor (PyInt 1) true None))
                   (check_duplicates (regressor (PyInt 1) true None)) y)
         = length [1; 2]%float)) /\
  create_components (@length float) (seq 0) [1; 2]%float [1; 2]%float
    (Some (PyInt 1)) = Ok [1; 2]%float.
Proof.
  apply (unit_budget_is_whole (@length float) (seq 0) linear_kernel
           (fun K => K) (regressor (PyInt 1) true None) [1; 2]%float
           [1; 2]%float (components := [1; 2]%float)); reflexivity.
Defined.


Lemma best_snapshot_stored_witness :
  exists o s n,
    _fit_multi_with_validation regression_score no_estimator None identity2
      (Z.of_nat 2) (column_norms identity2) 0 true identity2 [1; 0]%float
      [1; 0]%float 1 0%float None (reshape_column [1; 0]%float)
    = Some o /\
    (o = Break s \/ o = Exhausted s) /\
    v_iterations s = checkpoints 1 n /\
    v_validation_scores s
    = map (validation_score_at regression_score no_estimator None identity2
             (Z.of_nat 2) (column_norms identity2) 0 true identity2
             [1; 0]%float (reshape_column [1; 0]%float))
          (v_iterations s) /\
    ((exists z,
         In z (v_iterations s) /\
         neg_inf_ltb
           (validation_score_at regression_score no_estimator None identity2
              (Z.of_nat 2) (column_norms identity2) 0 true identity2
              [1; 0]%float (reshape_column [1; 0]%float) z) = true) ->
     exists z,
       In z (v_iterations s) /\
       v_coef_ s
       = Some (snapshot no_estimator None identity2 (Z.of_nat 2)
                 (column_norms identity2) 0 true
                 (reshape_column [1; 0]%float) (Z.to_nat z)) /\
       v_best_score s
       = Val (validation_score_at regression_score no_estimator None
                identity2 (Z.of_nat 2) (column_norms identity2) 0 true
                identity2 [1; 0]%float (reshape_column [1; 0]%float) z) /\
       forall z', In z' (v_iterations s) ->
                  ltb (validation_score_at regression_score no_estimator
                         None identity2 (Z.of_nat 2)
                         (column_norms identity2) 0 true identity2
                         [1; 0]%float (reshape_column [1; 0]%float) z)
                      (validation_score_at regression_score no_estimator
                         None identity2 (Z.of_nat 2)
                         (column_norms identity2) 0 true identity2
                         [1; 0]%float (reshape_column [1; 0]%float) z')
                  = false) /\
    ((forall z,
         In z (v_iterations s) ->
         neg_inf_ltb
           (validation_score_at regression_score no_estimator None identity2
              (Z.of_nat 2) (column_norms identity2) 0 true identity2
              [1; 0]%float (reshape_column [1; 0]%float) z) = false) ->
     v_coef_ s = None).
Proof.
  apply (@best_snapshot_stored float float64 (vec float) regression_score
           no_estimator None identity2 2 (column_norms identity2) 0%Z
           true identity2 [1; 0]%float [1; 0]%float 1%Z
           0%float None (reshape_column [1; 0]%float)).
  - exact float64_order.
  - repeat split; repeat constructor.
  - reflexivity.
  - left; reflexivity.
  - right. cbn. lia.
  - cbn. lia.
  - discriminate.
Defined.
End OnFloat64.

Section OnReals.
Import ExactExamples.
Open Scope R_scope.

Lemma squared_loss_equivalence_witness :
  trajectory no_estimator None K_ones 1 (column_norms K_ones) 0 false [1; 0]
  = trajectory no_estimator (Some SquaredLoss) K_ones 1 (column_norms K_ones)
      0 false [1; 0].
Proof.
  apply (squared_loss_equivalence no_estimator 1 false (K := K_ones)
           (y := [1; 0])).
  split; [split; [reflexivity | repeat constructor] | reflexivity].
Defined.

Lemma squared_error_descends_witness :
  exists c1 p1 c2 p2 : vec R,
    nth_error (trajectory no_estimator (Some SquaredLoss) K_one
                 (Z.of_nat 2) [1] 0 false [1]) 0 = Some (c1, p1) /\
    nth_error (trajectory no_estimator (Some SquaredLoss) K_one
                 (Z.of_nat 2) [1] 0 false [1]) 1 = Some (c2, p2) /\
    squared_error [1] p2 <= squared_error [1] p1.
Proof.
  eexists. eexists. eexists. eexists.
  split; [cbn; reflexivity|]. split; [cbn; reflexivity|].
  eapply (@squared_error_descends no_estimator K_one 0%Z false [1] [1]
            _ _ _ _ 2%nat 0%nat).
  - split; [split; [reflexivity | repeat constructor] | reflexivity].
  - reflexivity.
  - left; reflexivity.
  - intros j Hj. cbn in Hj.
    assert (j = 0%nat) by lia. subst j. cbn. lra.
  - left; reflexivity.
  - cbn. reflexivity.
  - cbn. reflexivity.
Defined.
End OnReals.

(** * Further properties *)

(** ** The pursuit loop: runs of different budgets *)

Section Nesting.
Context {T : Type} {N : Num T}.
Variable estimator : Estimator T.
Variable loss : option (Loss T).
Variable K : ndarray2 T.
Variable norms : vec T.
Variable n_refit : Z.
Variable check_duplicates : bool.

Local Abbreviation next_at n :=
  (next estimator loss K n norms n_refit check_duplicates).
Local Abbreviation yields_at n :=
  (yields estimator loss K n norms n_refit check_duplicates).
Local Abbreviation drain_at n :=
  (drain estimator loss K n norms n_refit check_duplicates).
Local Abbreviation advance_at n :=
  (advance estimator loss K n norms n_refit check_duplicates).
Local Abbreviation trajectory_at n :=
  (trajectory estimator loss K n norms n_refit check_duplicates).
Local Abbreviation fit_last_at n :=
  (_fit_last estimator loss K n norms n_refit check_duplicates).

(** Below the budget, [next] does not read it. *)
Lemma next_budget (n n' : Z) (g : frame T) :
  (f_i g <= n)%Z -> (n <= n')%Z -> next_at n' g = next_at n g.
Proof.
  intros Hi Hle. unfold next.
  destruct (Z.ltb_spec n' (f_i g)); [lia|].
  destruct (Z.ltb_spec n (f_i g)); [lia|]. reflexivity.
Qed.

Lemma next_yield_inv (n : Z) (g g' : frame T) (c p : vec T) :
  next_at n g = Yield c p g' ->
  (f_i g <= n)%Z /\ f_i g' = (f_i g + 1)%Z /\
  c = f_coef g' /\ p = f_y_pred g'.
Proof.
  unfold next.
  destruct (Z.ltb_spec n (f_i g)); [discriminate|].
  destruct (iteration _ _ _ _ _ _ _ _) as [s'|e]; [|discriminate].
  intro Hy. inversion Hy; subst; clear Hy. cbn. auto.
Qed.

Lemma yields_nested (n n' : Z) (r fuel fuel' : nat) (g : frame T) :
  (n <= n')%Z -> Z.of_nat r = (n + 1 - f_i g)%Z -> r < fuel -> r <= fuel' ->
  yields_at n fuel g = firstn r (yields_at n' fuel' g).
Proof.
  intro Hle. revert fuel fuel' g.
  induction r as [|r IH]; intros fuel fuel' g Hr Hf Hf'.
  - destruct fuel as [|fuel]; [lia|]. cbn [yields firstn].
    unfold next. destruct (Z.ltb_spec n (f_i g)); [reflexivity|lia].
  - destruct fuel as [|fuel]; [lia|]. destruct fuel' as [|fuel']; [lia|].
    cbn [yields]. rewrite (@next_budget n n' g) by lia.
    destruct (next_at n g) as [c p g'| |e] eqn:Hn; try reflexivity.
    cbn [firstn]. f_equal.
    destruct (next_yield_inv _ _ Hn) as [_ [Hi _]].
    apply IH; lia.
Qed.

(** What [drain] returns when it returns a value: the generator ran to
    its end, and the value is the coefficient vector of its last yield,
    or the one held before when it yielded nothing. *)
Lemma drain_last (n : Z) (fuel : nat) (g : frame T) (acc : option (vec T))
    (c : vec T) :
  drain_at n fuel g acc = Some (Ok c) ->
  length (yields_at n fuel g) = Z.to_nat (n + 1 - f_i g) /\
  match rev (yields_at n fuel g) with
  | [] => acc = Some c
  | (c', _) :: _ => c' = c
  end.
Proof.
  revert g acc; induction fuel as [|fuel IH]; intros g acc H; [discriminate|].
  cbn [drain yields] in *.
  destruct (next_at n g) as [c1 p1 g1| |e] eqn:Hn.
  - destruct (next_yield_inv _ _ Hn) as [Hi [Hi' _]].
    destruct (IH g1 (Some c1) H) as [Hlen Hlast].
    split.
    + cbn [length]. rewrite Hlen, Hi'. lia.
    + cbn [rev].
      destruct (rev (yields_at n fuel g1)) as [|[c' p'] l].
      * cbn. congruence.
      * cbn. exact Hlast.
  - unfold next in Hn.
    destruct (Z.ltb_spec n (f_i g)).
    + split; [cbn; lia|]. cbn. destruct acc; [congruence|discriminate].
    + destruct (iteration _ _ _ _ _ _ _ _); discriminate.
  - discriminate.
Qed.

(** X1. The run of budget [t] is the first [t] iterations of the run of any
    larger budget [t']: an iteration does not depend on how many are
    still to come. *)
Theorem pursuit_nested (y : vec T) (t t' : nat) :
  conforming K y -> length norms = shape1 K ->
  refits_conform n_refit estimator ->
  t <= t' ->
  trajectory_at (Z.of_nat t) y = firstn t (trajectory_at (Z.of_nat t') y).
Proof.
  intros _ _ _ Hle. unfold trajectory, budget_fuel.
  apply yields_nested; cbn [f_i _fit_generator]; lia.
Qed.

(** X2. When [_fit_last] returns a coefficient vector, the generator has
    yielded exactly [n_nonzero_coefs] times, at least once, and the
    vector is the one of its last yield. *)
Theorem fit_last_returns_last_yield (n : Z) (y c : vec T) :
  conforming K y -> length norms = shape1 K ->
  refits_conform n_refit estimator ->
  fit_last_at n y = Some (Ok c) ->
  (1 <= n)%Z /\
  length (trajectory_at n y) = Z.to_nat n /\
  exists p, nth_error (trajectory_at n y) (Z.to_nat n - 1) = Some (c, p).
Proof.
  unfold _fit_last, trajectory. intros _ _ _ H.
  destruct (drain_last _ _ _ _ H) as [Hlen Hlast].
  cbn [f_i _fit_generator] in Hlen.
  replace (n + 1 - 1)%Z with n in Hlen by lia.
  set (l := yields_at n (budget_fuel n) (_fit_generator loss K y)) in *.
  destruct (rev l) as [|[c' p'] l'] eqn:Hrev; [discriminate|].
  subst c'.
  assert (Hl : l = rev l' ++ [(c, p')]).
  { rewrite <- (rev_involutive l), Hrev. reflexivity. }
  assert (Hpos : 1 <= length l) by (rewrite Hl, length_app; cbn; lia).
  split; [lia|]. split; [exact Hlen|].
  exists p'. rewrite <- Hlen. rewrite Hl, length_app. cbn [length].
  rewrite nth_error_app2 by lia.
  replace (length (rev l') + 1 - 1 - length (rev l')) with 0 by lia.
  reflexivity.
Qed.

(** X3. A dictionary without columns leaves [np.argmax] nothing to choose
    from: the first iteration raises [ValueError], whatever the target,
    and nothing is yielded. *)
Theorem empty_dictionary_refused (n : Z) (y : vec T) :
  conforming K y -> length norms = shape1 K ->
  shape1 K = 0 -> (1 <= n)%Z ->
  trajectory_at n y = [] /\ fit_last_at n y = Some (Raise ValueError).
Proof.
  intros _ _ Hm Hn.
  assert (Hnext : next_at n (_fit_generator loss K y) = Throw ValueError).
  { unfold next. cbn [f_i _fit_generator].
    destruct (Z.ltb_spec n 1); [lia|].
    unfold iteration, select_best, correlations, dot_T.
    rewrite Hm. cbn [seq map map2 mask_neg_inf].
    destruct check_duplicates; reflexivity. }
  unfold trajectory, _fit_last, budget_fuel. cbn [yields drain].
  rewrite Hnext. split; reflexivity.
Qed.

End Nesting.

(** ** The pursuit loop: shapes of what is yielded *)

Section YieldShapes.
Context {T : Type} {N : Num T}.
Variable estimator : Estimator T.
Variable loss : option (Loss T).
Variable K : ndarray2 T.
Variable n_nonzero_coefs : Z.
Variable norms : vec T.
Variable n_refit : Z.
Variable check_duplicates : bool.

Local Abbreviation next :=
  (next estimator loss K n_nonzero_coefs norms n_refit check_duplicates).
Local Abbreviation advance :=
  (advance estimator loss K n_nonzero_coefs norms n_refit check_duplicates).
Local Abbreviation trajectory :=
  (trajectory estimator loss K n_nonzero_coefs norms n_refit
     check_duplicates).

Hypothesis norms_length : length norms = shape1 K.
Hypothesis fits : n_refit = 0%Z \/ estimator_fits estimator.

(** An iteration that yields found a column to select. *)
Lemma yield_has_column (g g' : frame T) (c p : vec T) :
  frame_ok K g -> next g = Yield c p g' -> 1 <= shape1 K.
Proof.
  clear fits.
  intros [Hsel _] Hn.
  destruct (@next_inv T N estimator loss K n_nonzero_coefs norms n_refit
              check_duplicates g g' c p Hn) as [s' [Hit _]].
  unfold iteration in Hit.
  destruct (select_best _ _ _) as [b|e] eqn:Hb; [|discriminate].
  apply (@select_best_range T N K norms check_duplicates norms_length) in Hb;
    [lia | | exact Hsel].
  apply correlations_length. exact norms_length.
Qed.

Lemma frame_ok_next (g g' : frame T) (c p : vec T) :
  frame_ok K g -> next g = Yield c p g' -> frame_ok K g'.
Proof.
  intros Hok Hn.
  pose proof (yield_has_column Hok Hn) as Hm.
  assert (Hi : (f_i g <= n_nonzero_coefs)%Z).
  { unfold next in Hn.
    destruct (Z.ltb_spec n_nonzero_coefs (f_i g)); [discriminate|lia]. }
  destruct (@next_yield T N estimator loss K n_nonzero_coefs norms n_refit
              check_duplicates norms_length fits g Hm Hok Hi)
    as [g1 [Hn1 [Hok1 _]]].
  rewrite Hn in Hn1. inversion Hn1; subst. exact Hok1.
Qed.

Lemma frame_ok_advance (k : nat) (g g' : frame T) :
  frame_ok K g -> advance k g = Some g' -> frame_ok K g'.
Proof.
  revert g; induction k as [|k IH]; intros g Hok Ha.
  - inversion Ha; subst. exact Hok.
  - cbn [advance] in Ha.
    destruct (next g) as [c p g1| |e] eqn:Hn; try discriminate.
    apply (IH g1); [|exact Ha]. eapply frame_ok_next; eauto.
Qed.

End YieldShapes.

Section YieldShapesTheorem.
Context {T : Type} {N : Num T}.
Variable estimator : Estimator T.
Variable loss : option (Loss T).
Variable K : ndarray2 T.
Variable n_nonzero_coefs : Z.
Variable norms : vec T.
Variable n_refit : Z.
Variable check_duplicates : bool.

(** X4. Every pair the generator yields has one coefficient per component
    and one prediction per sample, refits included. *)
Theorem yields_shapes (y c p : vec T) (k : nat) :
  conforming K y ->
  length norms = shape1 K ->
  refits_conform n_refit estimator ->
  nth_error (trajectory estimator loss K n_nonzero_coefs norms n_refit
               check_duplicates y) k = Some (c, p) ->
  length c = shape1 K /\ length p = shape0 K.
Proof.
  intros [Hshape Hy] Hn Hrefit Hk.
  unfold trajectory in Hk. apply yields_advance in Hk.
  destruct Hk as [g [Ha [-> ->]]].
  split.
  - assert (Hok : frame_ok K g).
    { eapply frame_ok_advance; [exact Hn | | apply fit_generator_ok | exact Ha].
      destruct Hrefit as [H0|[Hf _]]; [left|right]; assumption. }
    apply Hok.
  - assert (Ht : on_target K y (S k + 0) g).
    { eapply on_target_advance;
        [exact Hshape | | apply on_target_init | exact Ha].
      destruct Hrefit as [H0|[_ Hp]]; [left|right]; assumption. }
    apply Ht.
Qed.

End YieldShapesTheorem.

(** ** The greedy choice *)

Section FloatLeb.

Lemma SFleb_refl (x : spec_float) : SFeqb x x = true -> SFleb x x = true.
Proof.
  unfold SFeqb, SFleb. destruct (SFcompare x x) as [[| |]|];
    try discriminate; reflexivity.
Qed.

Lemma SFleb_trans (x y z : spec_float) :
  SFleb x y = true -> SFleb y z = true -> SFleb x z = true.
Proof.
  unfold SFleb, SFcompare.
  destruct x as [sx|sx| |sx mx ex], y as [sy|sy| |sy my ey],
           z as [sz|sz| |sz mz ez];
    try destruct sx; try destruct sy; try destruct sz;
    try discriminate; try reflexivity;
    repeat match goal with
      | |- context [Z.compare ?a ?b] =>
          destruct (Z.compare_spec a b); subst
      end;
    try discriminate; try reflexivity; try lia;
    repeat match goal with
      | |- context [PosDef.Pos.compare_cont Eq ?a ?b] =>
          change (PosDef.Pos.compare_cont Eq a b) with (Pos.compare a b)
      end;
    repeat match goal with
      | |- context [Pos.compare ?a ?b] =>
          destruct (Pos.compare_spec a b); subst
      end;
    simpl; try discriminate; try reflexivity; try lia.
Qed.

Lemma SFleb_total (x y : spec_float) :
  SFeqb x x = true -> SFeqb y y = true -> SFleb x y = false ->
  SFleb y x = true.
Proof.
  unfold SFeqb, SFleb, SFcompare.
  destruct x as [sx|sx| |sx mx ex], y as [sy|sy| |sy my ey];
    try destruct sx; try destruct sy;
    try discriminate; try reflexivity;
    repeat match goal with
      | |- context [Z.compare ?a ?b] =>
          destruct (Z.compare_spec a b); subst
      end;
    try discriminate; try reflexivity; try lia;
    repeat match goal with
      | |- context [PosDef.Pos.compare_cont Eq ?a ?b] =>
          change (PosDef.Pos.compare_cont Eq a b) with (Pos.compare a b)
      end;
    repeat match goal with
      | |- context [Pos.compare ?a ?b] =>
          destruct (Pos.compare_spec a b); subst
      end;
    simpl; try discriminate; try reflexivity; try lia.
Qed.

End FloatLeb.

Lemma float64_leb : LebLaws float.
Proof.
  split; cbn; unfold is_nan.
  - intros a Ha. apply negb_false_iff in Ha.
    rewrite FloatAxioms.eqb_spec in Ha. rewrite FloatAxioms.leb_spec.
    apply SFleb_refl. exact Ha.
  - intros a b c. rewrite !FloatAxioms.leb_spec. apply SFleb_trans.
  - intros a b Ha Hb. apply negb_false_iff in Ha, Hb.
    rewrite FloatAxioms.eqb_spec in Ha, Hb. rewrite !FloatAxioms.leb_spec.
    apply SFleb_total; assumption.
Qed.


Section GreedyChoice.
Context {T : Type} {N : Num T}.
Context (L : LebLaws T).

(** A score that is neither NaN nor a value [<= -inf]. *)
Local Abbreviation sound x := (masked_isnan x = false /\ above x).

Lemma masked_leb_refl (x : masked T) : sound x -> masked_leb x x = true.
Proof.
  destruct x as [|v]; [reflexivity|]. intros [Hn _]. apply leb_refl. exact Hn.
Qed.

Lemma masked_leb_trans (x y z : masked T) :
  sound x -> sound y -> sound z ->
  masked_leb x y = true -> masked_leb y z = true -> masked_leb x z = true.
Proof.
  destruct x as [|a], y as [|b], z as [|c]; cbn;
    intros [Hx Hx'] [Hy Hy'] [Hz Hz'] H1 H2;
    try reflexivity; try congruence.
  eapply leb_trans; eauto.
Qed.

Lemma masked_leb_total (x y : masked T) :
  sound x -> sound y -> masked_leb x y = false -> masked_leb y x = true.
Proof.
  destruct x as [|a], y as [|b]; cbn; intros [Hx Hx'] [Hy Hy'] H;
    try congruence.
  - rewrite Hy in H. discriminate.
  - rewrite Hx. reflexivity.
  - apply leb_total; assumption.
Qed.

(** The scan keeps the first maximum of what it has seen. *)
Lemma argmax_scan_max (l pre : list (masked T)) (mp : masked T) (best : nat) :
  Forall (fun x => sound x) (pre ++ l) ->
  best < length pre -> nth best pre NegInf = mp ->
  (forall j, j < length pre -> masked_leb (nth j pre NegInf) mp = true) ->
  (forall j, j < best -> masked_leb mp (nth j pre NegInf) = false) ->
  let r := argmax_scan mp best (length pre) l in
  r < length (pre ++ l) /\
  forall j, j < length (pre ++ l) ->
    masked_leb (nth j (pre ++ l) NegInf) (nth r (pre ++ l) NegInf) = true /\
    (j < r ->
     masked_leb (nth r (pre ++ l) NegInf) (nth j (pre ++ l) NegInf) = false).
Proof.
  revert pre mp best; induction l as [|x l IH];
    intros pre mp best Hall Hb Hmp Hle Hlt.
  - cbn [argmax_scan]. rewrite app_nil_r. split; [exact Hb|].
    intros j Hj. rewrite Hmp. split; [apply Hle; exact Hj|apply Hlt].
  - assert (Hsx : sound x).
    { rewrite Forall_forall in Hall. apply Hall.
      apply in_or_app. right. left. reflexivity. }
    assert (Hsmp : sound mp).
    { rewrite Forall_forall in Hall. apply Hall.
      apply in_or_app. left. rewrite <- Hmp. apply nth_In. exact Hb. }
    assert (Hspre : forall j, j < length pre -> sound (nth j pre NegInf)).
    { intros j Hj. rewrite Forall_forall in Hall. apply Hall.
      apply in_or_app. left. apply nth_In. exact Hj. }
    cbn [argmax_scan].
    replace (pre ++ x :: l) with ((pre ++ [x]) ++ l) in *
      by (rewrite <- app_assoc; reflexivity).
    replace (S (length pre)) with (length (pre ++ [x]))
      by (rewrite length_app; cbn; lia).
    destruct (masked_leb x mp) eqn:Hx; cbn [negb].
    + apply IH.
      * exact Hall.
      * rewrite length_app. lia.
      * rewrite app_nth1 by exact Hb. exact Hmp.
      * intros j Hj. rewrite length_app in Hj. cbn [length] in Hj.
        destruct (Nat.lt_ge_cases j (length pre)) as [Hj'|Hj'].
        -- rewrite app_nth1 by exact Hj'. apply Hle. exact Hj'.
        -- rewrite app_nth2 by exact Hj'.
           replace (j - length pre) with 0 by lia. exact Hx.
      * intros j Hj. rewrite app_nth1 by lia. apply Hlt. exact Hj.
    + destruct Hsx as [Hxn Hxa]. rewrite Hxn.
      replace (length pre) with (length pre + 0) at 1 by lia.
      replace (length pre + 0) with (length pre) by lia.
      apply IH.
      * exact Hall.
      * rewrite length_app. cbn. lia.
      * rewrite app_nth2 by lia. rewrite Nat.sub_diag. reflexivity.
      * intros j Hj. rewrite length_app in Hj. cbn [length] in Hj.
        destruct (Nat.lt_ge_cases j (length pre)) as [Hj'|Hj'].
        -- rewrite app_nth1 by exact Hj'.
           apply (@masked_leb_trans _ mp); auto.
           apply masked_leb_total; auto.
        -- rewrite app_nth2 by exact Hj'.
           replace (j - length pre) with 0 by lia.
           apply masked_leb_refl. split; assumption.
      * intros j Hj. rewrite app_nth1 by exact Hj.
        destruct (masked_leb x (nth j pre NegInf)) eqn:Hxj; [|reflexivity].
        rewrite (@masked_leb_trans x (nth j pre NegInf) mp) in Hx; auto.
Qed.

Lemma argmax_max (l : list (masked T)) (b : nat) :
  Forall (fun x => sound x) l -> argmax l = Ok b ->
  b < length l /\
  forall j, j < length l ->
    masked_leb (nth j l NegInf) (nth b l NegInf) = true /\
    (j < b -> masked_leb (nth b l NegInf) (nth j l NegInf) = false).
Proof.
  destruct l as [|x l]; [discriminate|].
  intros Hall H. cbn [argmax] in H.
  assert (Hsx : sound x) by (inversion Hall; assumption).
  destruct Hsx as [Hxn Hxa]. rewrite Hxn in H. inversion H; subst; clear H.
  apply (@argmax_scan_max l [x] x 0).
  - exact Hall.
  - cbn. lia.
  - reflexivity.
  - intros j Hj. cbn in Hj. replace j with 0 by lia. cbn.
    apply masked_leb_refl. split; assumption.
  - intros j Hj. lia.
Qed.

End GreedyChoice.

Section GreedyChoiceTheorem.
Context {T : Type} {N : Num T}.

(** The scores [np.argmax] is applied to. *)
Local Abbreviation scores cd dots selected :=
  (if cd then mask_neg_inf (map abs dots) selected
   else map (@Val T) (map abs dots)).

Lemma best_scores_length (cd : bool) (dots : vec T) (selected : list bool) :
  length selected = length dots ->
  length (scores cd dots selected) = length dots.
Proof.
  intro Hlen. destruct cd.
  - unfold mask_neg_inf. rewrite map2_length, length_map. lia.
  - rewrite !length_map. reflexivity.
Qed.

Lemma best_scores_nth (cd : bool) (dots : vec T) (selected : list bool)
    (j : nat) :
  length selected = length dots -> j < length dots ->
  nth j (scores cd dots selected) NegInf =
  if cd && nth j selected false
  then NegInf else Val (abs (nth j dots zero)).
Proof.
  intros Hlen Hj. destruct cd; cbn [andb].
  - rewrite nth_mask_neg_inf by (rewrite ?length_map; lia).
    rewrite (nth_indep _ zero (abs zero)) by (rewrite length_map; lia).
    rewrite map_nth. reflexivity.
  - rewrite (nth_indep _ NegInf (Val (abs zero)))
      by (rewrite !length_map; lia).
    rewrite (map_nth (@Val T)), map_nth. reflexivity.
Qed.

Lemma best_scores_sound (cd : bool) (dots : vec T) (selected : list bool) :
  NumLaws T -> length selected = length dots ->
  Forall (fun d => isnan (abs d) = false) dots ->
  Forall (fun x => masked_isnan x = false /\ above x)
         (scores cd dots selected).
Proof.
  intros NL Hlen Hnan. apply Forall_forall. intros x Hx.
  destruct (In_nth _ _ NegInf Hx) as [j [Hj <-]].
  rewrite best_scores_length in Hj by exact Hlen.
  rewrite best_scores_nth by assumption.
  destruct (cd && nth j selected false);
    [split; [reflexivity|exact I]|].
  split; cbn.
  - rewrite Forall_forall in Hnan. apply Hnan. apply nth_In. exact Hj.
  - apply abs_above_neg_inf.
Qed.

(** X5. The index chosen by "select best basis" holds the largest
    [abs_dots] among the candidates (every index, or the indices not yet
    selected when duplicates are checked), and is the first to hold it,
    as long as no correlation is NaN. *)
Theorem select_best_maximal (check_duplicates : bool) (dots : vec T)
    (selected : list bool) (b : nat) :
  NumLaws T -> LebLaws T ->
  length selected = length dots ->
  Forall (fun d => isnan (abs d) = false) dots ->
  (check_duplicates = true -> exists j, nth j selected true = false) ->
  select_best check_duplicates dots selected = Ok b ->
  b < length dots /\
  (check_duplicates = true -> nth b selected false = false) /\
  forall j, j < length dots ->
    (check_duplicates = true -> nth j selected false = false) ->
    leb (abs (nth j dots zero)) (abs (nth b dots zero)) = true /\
    (j < b -> leb (abs (nth b dots zero)) (abs (nth j dots zero)) = false).
Proof.
  intros NL L Hlen Hnan Hfree Hb. unfold select_best in Hb.
  assert (Hsound : Forall (fun x => masked_isnan x = false /\ above x)
                     (scores check_duplicates dots selected))
    by (apply best_scores_sound; assumption).
  destruct (argmax_max L Hsound Hb) as [Hlt Hmax].
  rewrite best_scores_length in Hlt, Hmax by exact Hlen.
  assert (Hbfree : check_duplicates = true -> nth b selected false = false).
  { intros Hcd. destruct (Hfree Hcd) as [j Hj].
    assert (Hjlt : j < length dots).
    { destruct (Nat.lt_ge_cases j (length dots)) as [H|H]; [exact H|].
      rewrite nth_overflow in Hj by lia. discriminate. }
    destruct (Hmax j Hjlt) as [Hle _].
    rewrite !best_scores_nth, Hcd in Hle by assumption. cbn [andb] in Hle.
    rewrite (nth_indep _ false true), Hj in Hle by lia.
    destruct (nth b selected false); [|reflexivity].
    cbn in Hle. rewrite abs_above_neg_inf in Hle. discriminate. }
  split; [exact Hlt|]. split; [exact Hbfree|].
  intros j Hj Hjfree.
  destruct (Hmax j Hj) as [Hle Hstrict].
  rewrite !best_scores_nth in Hle, Hstrict by assumption.
  assert (Hjf : check_duplicates && nth j selected false = false).
  { destruct check_duplicates; [rewrite Hjfree; reflexivity|reflexivity]. }
  assert (Hbf : check_duplicates && nth b selected false = false).
  { destruct check_duplicates; [rewrite Hbfree; reflexivity|reflexivity]. }
  rewrite Hjf, Hbf in Hle, Hstrict. cbn in Hle, Hstrict.
  split; assumption.
Qed.

End GreedyChoiceTheorem.

(** ** Exact arithmetic: the step and the prediction *)

Section ExactStep.
Open Scope R_scope.

Lemma dot_zeros (r : list R) (n : nat) : dot r (zeros n) = 0.
Proof.
  revert n; induction r as [|a r IH]; intros [|n]; try reflexivity.
  unfold zeros. cbn [repeat]. rewrite dot_cons.
  change (repeat zero n) with (zeros (T := R) n). rewrite IH. cbn. lra.
Qed.

Lemma dot_set_at (r coef : list R) (b : nat) (alpha : R) :
  length r = length coef -> (b < length coef)%nat ->
  dot r (set_at coef b (nth b coef 0 + alpha)) =
  dot r coef + alpha * nth b r 0.
Proof.
  revert coef b; induction r as [|a r IH]; intros [|c coef] b Hlen Hb;
    cbn [length] in *; try lia.
  destruct b as [|b]; cbn [set_at nth].
  - rewrite !dot_cons. ring.
  - rewrite !dot_cons, IH by lia. ring.
Qed.

Lemma dot_after_step (k r : list R) (alpha : R) :
  length r = length k ->
  dot k (map2 sub r (map (mul alpha) k)) =
  dot k r - alpha * vsum (map (fun c => mul c c) k).
Proof.
  revert k; induction r as [|x r IH]; intros [|c k] H; try discriminate.
  - cbn. unfold dot. cbn. lra.
  - cbn [map map2]. rewrite !dot_cons, vsum_cons, IH by (simpl in H; lia).
    cbn [mul sub exact]. ring.
Qed.

(** X6. The step of [line_search] is the best one along the column: no
    other multiple of the column gives a smaller squared error. *)
Theorem line_search_optimal (y y_pred column : vec R) (beta : R) :
  length y = length y_pred -> length y_pred = length column ->
  vsum (map (fun c => mul c c) column) <> 0 ->
  squared_error y
    (map2 add y_pred
       (map (mul (line_search SquaredLoss y y_pred column)) column))
  <= squared_error y (map2 add y_pred (map (mul beta) column)).
Proof.
  intros Hy Hp Hs. unfold squared_error. rewrite !sub_add_assoc.
  assert (Hlen : length (map2 sub y y_pred) = length column).
  { rewrite map2_length. lia. }
  rewrite !squares_after_step by exact Hlen.
  cbn [line_search SquaredLoss].
  pose proof (sum_squares_nonneg column) as Hnn.
  set (s := vsum (map (fun c => mul c c) column)) in *.
  set (d := dot column (map2 sub y y_pred)).
  cbn [div exact].
  set (alpha := d / s).
  assert (Ha : alpha * s = d) by (subst alpha; field; exact Hs).
  rewrite <- Ha. clearbody alpha s d.
  assert (H : 0 <= s * ((beta - alpha) * (beta - alpha))).
  { apply Rmult_le_pos; [lra|]. apply Rle_0_sqr. }
  nra.
Qed.

(** X7. After the step of [line_search], the residual is orthogonal to the
    column the step was taken along. *)
Theorem line_search_orthogonal (y y_pred column : vec R) :
  length y = length y_pred -> length y_pred = length column ->
  vsum (map (fun c => mul c c) column) <> 0 ->
  dot column
    (map2 sub y
       (map2 add y_pred
          (map (mul (line_search SquaredLoss y y_pred column)) column)))
  = 0.
Proof.
  intros Hy Hp Hs. rewrite sub_add_assoc.
  rewrite dot_after_step by (rewrite map2_length; lia).
  cbn [line_search SquaredLoss div exact]. field. exact Hs.
Qed.

End ExactStep.

Section ExactPrediction.
Open Scope R_scope.
Variable estimator : Estimator R.
Variable loss : option (Loss R).
Variable K : ndarray2 R.
Variable n_nonzero_coefs : Z.
Variable norms : vec R.
Variable check_duplicates : bool.

Local Abbreviation next :=
  (next estimator loss K n_nonzero_coefs norms 0 check_duplicates).
Local Abbreviation advance :=
  (advance estimator loss K n_nonzero_coefs norms 0 check_duplicates).

Hypothesis shaped : well_shaped K.
Hypothesis norms_length : length norms = shape1 K.

(** The prediction of a frame is the dictionary applied to its
    coefficients. *)
Local Abbreviation consistent g :=
  (frame_ok K g /\ f_y_pred g = dot_rows K (f_coef g)).

Lemma rows_after_step (rs : list (list R)) (coef : list R) (b : nat)
    (alpha : R) :
  Forall (fun r => length r = length coef) rs -> (b < length coef)%nat ->
  map2 add (map (fun r => dot r coef) rs)
       (map (mul alpha) (map (fun r => nth b r zero) rs)) =
  map (fun r => dot r (set_at coef b (add (nth b coef zero) alpha))) rs.
Proof.
  intros Hall Hb. induction Hall as [|r rs Hr _ IH]; [reflexivity|].
  cbn [map map2]. rewrite IH. f_equal.
  cbn [add mul zero exact]. rewrite dot_set_at by assumption. reflexivity.
Qed.

Lemma consistent_init (y : vec R) : consistent (_fit_generator loss K y).
Proof.
  clear norms_length.
  split; [apply fit_generator_ok|].
  cbn [f_y_pred f_coef _fit_generator]. unfold dot_rows.
  destruct shaped as [Hrows _]. rewrite <- Hrows. clear Hrows.
  induction (rows K) as [|r rs IH]; [reflexivity|].
  cbn [length map]. unfold zeros at 1. cbn [repeat].
  rewrite dot_zeros. f_equal. exact IH.
Qed.

Lemma consistent_next (g g' : frame R) (c p : vec R) :
  consistent g -> next g = Yield c p g' -> consistent g'.
Proof.
  intros [Hok Hp] Hn.
  assert (Hok' : frame_ok K g').
  { eapply frame_ok_next; [exact norms_length | left; reflexivity
                          | exact Hok | exact Hn]. }
  split; [exact Hok'|].
  destruct (@next_inv R exact estimator loss K n_nonzero_coefs norms 0%Z
              check_duplicates g g' c p Hn)
    as [s' [Hit [_ [_ [Hc [_ [Hp' _]]]]]]].
  destruct (@iteration_line_search R exact estimator loss K norms 0%Z
              check_duplicates (f_i g) g s' eq_refl Hit)
    as [best [alpha [Hb [_ [Hc' Hp'']]]]].
  destruct Hok as [Hsel Hcoef].
  assert (Hlt : (best < shape1 K)%nat).
  { eapply select_best_range; [exact norms_length | | exact Hsel | exact Hb].
    apply correlations_length. exact norms_length. }
  rewrite Hp', Hp'', Hc, Hc', Hp. unfold dot_rows, column.
  apply rows_after_step.
  - destruct shaped as [_ Hall]. rewrite Hcoef. exact Hall.
  - rewrite Hcoef. exact Hlt.
Qed.

Lemma consistent_advance (k : nat) (g g' : frame R) :
  consistent g -> advance k g = Some g' -> consistent g'.
Proof.
  revert g; induction k as [|k IH]; intros g Hg Ha.
  - inversion Ha; subst. exact Hg.
  - cbn [advance] in Ha.
    destruct (next g) as [c p g1| |e] eqn:Hn; try discriminate.
    apply (IH g1); [|exact Ha]. eapply consistent_next; eauto.
Qed.

End ExactPrediction.

Section ExactPredictionTheorem.
Open Scope R_scope.
Variable estimator : Estimator R.
Variable loss : option (Loss R).
Variable K : ndarray2 R.
Variable n_nonzero_coefs : Z.
Variable norms : vec R.
Variable check_duplicates : bool.

(** X8. In exact arithmetic and without refits, the prediction yielded at
    every iteration is the dictionary applied to the coefficients
    yielded with it, [np.dot(K, coef)]. *)
Theorem prediction_is_dictionary_times_coef (y c p : vec R) (k : nat) :
  conforming K y ->
  length norms = shape1 K ->
  nth_error (trajectory estimator loss K n_nonzero_coefs norms 0
               check_duplicates y) k = Some (c, p) ->
  p = dot_rows K c.
Proof.
  intros [Hshape Hy] Hn Hk.
  unfold trajectory in Hk. apply yields_advance in Hk.
  destruct Hk as [g [Ha [-> ->]]].
  eapply consistent_advance;
    [exact Hshape | exact Hn | apply consistent_init; exact Hshape | exact Ha].
Qed.

End ExactPredictionTheorem.

(** ** Exact arithmetic: the budget as a fraction, and the score *)

Section ExactBudget.
Open Scope R_scope.
Variables Sample Tgt : Type.
Variable target_length : Tgt -> nat.
Variable shuffled : nat -> list nat.
Variable pairwise_kernels : list Sample -> list Sample -> ndarray2 R.
Variable scaler_fit_transform : ndarray2 R -> ndarray2 R.

Lemma Rtrunc_fraction (f : R) (n : Z) :
  0 < f <= 1 -> (0 <= n)%Z ->
  (0 <= Rtrunc (f * IZR n) <= n)%Z /\
  IZR (Rtrunc (f * IZR n)) <= f * IZR n < IZR (Rtrunc (f * IZR n)) + 1.
Proof.
  intros Hf Hn. apply IZR_le in Hn.
  assert (Hx : 0 <= f * IZR n) by (apply Rmult_le_pos; lra).
  assert (Hxn : f * IZR n <= IZR n) by nra.
  unfold Rtrunc. destruct (Rle_dec 0 (f * IZR n)) as [_|H]; [|lra].
  destruct (base_Int_part (f * IZR n)) as [Hlo Hhi].
  split; [split|lra].
  - assert (Hgt : IZR (-1) < IZR (Int_part (f * IZR n))) by lra.
    apply lt_IZR in Hgt. lia.
  - apply le_IZR. lra.
Qed.

(** X9. In exact arithmetic a budget given as a fraction [0 < f <= 1] is
    never refused: it resolves to the integer part of [f] times the
    number of components, which lies between [0] and that number. *)
Theorem fraction_budget_accepted (self : KMPBase R Sample Tgt)
    (X : list Sample) (y : Tgt) (components : list Sample) (f : R) :
  n_nonzero_coefs self = PyFloat f ->
  0 < f <= 1 ->
  resolve_components target_length shuffled self X y = Ok components ->
  exists p k,
    _pre_fit target_length shuffled pairwise_kernels scaler_fit_transform
      self X y = Ok p /\
    components_ p = components /\
    budget p = PyInt k /\
    (0 <= k <= Z.of_nat (length components))%Z /\
    IZR k <= f * INR (length components) < IZR k + 1.
Proof.
  intros Hb Hf Hc.
  destruct (@Rtrunc_fraction f (Z.of_nat (length components)) Hf)
    as [Hk Hfloor]; [lia|].
  unfold _pre_fit. rewrite Hc. cbn [bind]. rewrite Hb.
  unfold resolve_budget.
  cbn [py_ltb py_leb py_float py_mul_int py_int of_int to_int ltb leb mul
         exact].
  unfold Rltb, Rleb.
  destruct (Rlt_dec 0 f) as [_|H]; [|lra].
  destruct (Rle_dec f 1) as [_|H]; [|lra].
  cbn [andb bind py_ltb].
  destruct (Z.ltb_spec (Z.of_nat (length components))
              (Rtrunc (f * IZR (Z.of_nat (length components)))));
    [lia|].
  eexists. eexists. split; [reflexivity|].
  cbn [components_ budget]. split; [reflexivity|]. split; [reflexivity|].
  split; [exact Hk|]. rewrite INR_IZR_INZ. exact Hfloor.
Qed.

End ExactBudget.

Section ExactScore.
Open Scope R_scope.

Lemma vsum_nonneg (l : list R) : Forall (fun x => 0 <= x) l -> 0 <= vsum l.
Proof.
  induction 1 as [|x l Hx _ IH]; [rewrite vsum_nil; lra|].
  rewrite vsum_cons. lra.
Qed.

Lemma vsum_zero_iff (l : list R) :
  Forall (fun x => 0 <= x) l -> (vsum l = 0 <-> Forall (fun x => x = 0) l).
Proof.
  induction 1 as [|x l Hx Hl IH].
  - split; [constructor|reflexivity].
  - rewrite vsum_cons. pose proof (vsum_nonneg Hl) as Hs. split.
    + intro H. constructor; [lra|]. apply IH. lra.
    + intro H. inversion H; subst. apply IH in H3. lra.
Qed.

Lemma flat_map_seq_length {A B : Type} (f : A -> nat -> B) (l : list A)
    (n : nat) :
  length (flat_map (fun v => map (f v) (seq 0 n)) l) = (length l * n)%nat.
Proof.
  induction l as [|v l IH]; [reflexivity|].
  cbn [flat_map]. rewrite length_app, length_map, length_seq, IH.
  cbn [length]. lia.
Qed.

(** The squared differences [_score] averages when the prediction is
    the target itself, a column: every pair of entries, not only the
    pairs at the same position. *)
Lemma perfect_squares (y : vec R) :
  (1 <= length y)%nat ->
  flat_map
    (fun r =>
       map (fun b =>
              mul (sub (nth (if (length y =? 1)%nat then O else b) y zero)
                       (nth (if (length r =? 1)%nat then O else b) r zero))
                  (sub (nth (if (length y =? 1)%nat then O else b) y zero)
                       (nth (if (length r =? 1)%nat then O else b) r zero)))
           (seq 0 (Nat.max (length y) (length (hd [] (map (fun v => [v]) y))))))
    (map (fun v => [v]) y)
  = flat_map
      (fun v => map (fun b => (nth b y 0 - v) * (nth b y 0 - v))
                    (seq 0 (length y)))
      y.
Proof.
  intro Hn.
  assert (Hw : Nat.max (length y) (length (hd [] (map (fun v => [v]) y)))
               = length y).
  { destruct y as [|a y]; [cbn in Hn; lia|]. cbn. lia. }
  rewrite Hw. rewrite flat_map_concat_map, map_map, <- flat_map_concat_map.
  apply flat_map_ext. intro v. apply map_ext_in. intros b Hb.
  apply in_seq in Hb. cbn [length Nat.eqb nth sub mul zero exact].
  destruct (length y =? 1)%nat eqn:H1; [|reflexivity].
  apply Nat.eqb_eq in H1. replace b with O by lia. reflexivity.
Qed.

(** X10. The regression score of a perfect prediction is zero only when the
    target is constant: the one-dimensional target is broadcast against
    the column of predictions, so every entry of the target is compared
    with every prediction. *)
Theorem perfect_prediction_score (y : vec R) :
  (1 <= length y)%nat ->
  regression_score y (map (fun v => [v]) y) = 0 <->
  forall a b, (a < length y)%nat -> (b < length y)%nat ->
              nth a y 0 = nth b y 0.
Proof.
  intro Hn. unfold regression_score. cbv zeta.
  match goal with |- context [vsum ?l] => set (squares0 := l) end.
  assert (E : squares0 =
              flat_map
                (fun v => map (fun b => (nth b y 0 - v) * (nth b y 0 - v))
                              (seq 0 (length y)))
                y).
  { subst squares0. apply perfect_squares. exact Hn. }
  clearbody squares0. subst squares0.
  set (squares := flat_map _ y).
  assert (Hlen : length squares = (length y * length y)%nat).
  { subst squares. apply flat_map_seq_length. }
  assert (Hpos : 0 < IZR (Z.of_nat (length squares))).
  { apply IZR_lt. rewrite Hlen. nia. }
  assert (Hnn : Forall (fun x => 0 <= x) squares).
  { subst squares. apply Forall_forall. intros x Hx.
    apply in_flat_map in Hx. destruct Hx as [v [_ Hx]].
    apply in_map_iff in Hx. destruct Hx as [b [<- _]]. apply Rle_0_sqr. }
  cbn [neg div of_int exact].
  assert (Hiff : - (vsum squares / IZR (Z.of_nat (length squares))) = 0 <->
                 vsum squares = 0).
  { split; intro H.
    - assert (H' : vsum squares / IZR (Z.of_nat (length squares)) = 0) by lra.
      apply (f_equal (fun x => x * IZR (Z.of_nat (length squares)))) in H'.
      field_simplify in H'; lra.
    - rewrite H. field. lra. }
  rewrite Hiff, (vsum_zero_iff Hnn). subst squares.
  rewrite Forall_forall. split.
  - intros H a b Ha Hb.
    assert (Hx : (nth a y 0 - nth b y 0) * (nth a y 0 - nth b y 0) = 0).
    { apply H. apply in_flat_map. exists (nth b y 0).
      split; [apply nth_In; exact Hb|].
      apply in_map_iff. exists a. split; [reflexivity|].
      apply in_seq. lia. }
    apply Rmult_integral in Hx. destruct Hx; lra.
  - intros H x Hx. apply in_flat_map in Hx. destruct Hx as [v [Hv Hx]].
    apply in_map_iff in Hx. destruct Hx as [b [<- Hb]].
    apply in_seq in Hb.
    destruct (In_nth _ _ 0 Hv) as [a [Ha <-]].
    rewrite (H b a) by lia. ring.
Qed.

End ExactScore.

(** ** The validation loop: records and checkpoints *)

Section ValidationRecords.
Context {T : Type} {N : Num T}.
Variable Tgt : Type.
Variable _score : Tgt -> list (vec T) -> T.
Variable estimator : Estimator T.
Variable loss : option (Loss T).
Variable K : ndarray2 T.
Variable n_nonzero_coefs : Z.
Variable norms : vec T.
Variable n_refit : Z.
Variable check_duplicates : bool.
Variable K_val : ndarray2 T.
Variable y_val : Tgt.
Variable y : Tgt.
Variable n_validate : Z.
Variable epsilon : T.

Local Abbreviation loop_body :=
  (loop_body _score estimator loss K n_nonzero_coefs norms n_refit
     check_duplicates K_val y_val y n_validate epsilon).
Local Abbreviation while_true :=
  (while_true _score estimator loss K n_nonzero_coefs norms n_refit
     check_duplicates K_val y_val y n_validate epsilon).

Lemma loop_body_aligned (s s' : validation T) :
  aligned s ->
  loop_body s = Continue s' \/ loop_body s = Break s' \/
  loop_body s = Exhausted s' ->
  aligned s'.
Proof.
  intros [Hv Ht]. unfold loop_body.
  destruct (next_all _ _ _ _ _ _ _ _) as [[|r res] its| |e].
  - intros [H|[H|H]]; discriminate.
  - destruct (n_validate =? 0)%Z; [intros [H|[H|H]]; discriminate|].
    destruct (_ mod n_validate =? 0)%Z.
    + destruct ((2 <? _)%nat && _).
      * destruct (ltb _ epsilon);
          intros [H|[H|H]]; inversion H; subst; clear H;
          unfold aligned; cbn; rewrite !length_app; cbn; lia.
      * intros [H|[H|H]]; inversion H; subst; clear H;
          unfold aligned; cbn; rewrite !length_app; cbn; lia.
    + intros [H|[H|H]]; inversion H; subst; clear H.
      split; assumption.
  - intros [H|[H|H]]; inversion H; subst. split; assumption.
  - intros [H|[H|H]]; discriminate.
Qed.

Lemma while_true_aligned (fuel : nat) (s s' : validation T) :
  aligned s ->
  while_true fuel s = Some (Break s') \/
  while_true fuel s = Some (Exhausted s') ->
  aligned s'.
Proof.
  revert s; induction fuel as [|fuel IH]; intros s Hs H.
  - destruct H; discriminate.
  - cbn [while_true] in H.
    destruct (loop_body s) as [s1|s1|s1|e] eqn:Hb.
    + apply (IH s1); [|exact H].
      apply (loop_body_aligned Hs). left. exact Hb.
    + apply (loop_body_aligned Hs). right. left.
      destruct H as [H|H]; inversion H; subst. exact Hb.
    + apply (loop_body_aligned Hs). right. right.
      destruct H as [H|H]; inversion H; subst. exact Hb.
    + destruct H; discriminate.
Qed.

End ValidationRecords.

Section ValidationEdges.
Context {T : Type} {N : Num T}.
Variable Tgt : Type.
Variable _score : Tgt -> list (vec T) -> T.
Variable estimator : Estimator T.
Variable loss : option (Loss T).
Variable K : ndarray2 T.
Variable t : nat.
Variable norms : vec T.
Variable n_refit : Z.
Variable check_duplicates : bool.
Variable K_val : ndarray2 T.
Variable y_val : Tgt.
Variable y : Tgt.
Variable epsilon : T.
Variable self_coef_ : option (list (vec T)).
Variable Y : ndarray2 T.

Local Abbreviation budget := (Z.of_nat t).

Lemma lockstep_init :
  Forall2 (stepped estimator loss K budget norms n_refit check_duplicates 0)
    (map (_fit_generator loss K) (target_columns Y)) (target_columns Y).
Proof.
  induction (target_columns Y) as [|y0 ys IH]; cbn [map]; constructor; auto.
  split; [reflexivity|]. split; [apply fit_generator_ok|reflexivity].
Qed.

(** X11. The records of a validated fit stay aligned: when the run ends, by
    [break] or by exhaustion, there is one validation score and one
    training score per recorded iteration. *)
Theorem validation_records_aligned (n_validate : Z) (o : pass T)
    (s : validation T) :
  validation_conforms K Y K_val ->
  length norms = shape1 K ->
  refits_conform n_refit estimator ->
  _fit_multi_with_validation _score estimator loss K budget norms n_refit
    check_duplicates K_val y_val y n_validate epsilon self_coef_ Y
  = Some o ->
  o = Break s \/ o = Exhausted s ->
  length (v_validation_scores s) = length (v_iterations s) /\
  length (v_training_scores s) = length (v_iterations s).
Proof.
  intros _ _ _ Hrun Ho. unfold _fit_multi_with_validation in Hrun.
  eapply while_true_aligned; [|destruct Ho; subst o; [left|right]; exact Hrun].
  split; reflexivity.
Qed.

(** X12. With [n_validate = 0] the test [n_iter % n_validate] of the first
    pass raises [ZeroDivisionError], after every generator has run its
    first iteration. *)
Theorem zero_n_validate_refused :
  validation_conforms K Y K_val ->
  length norms = shape1 K ->
  refits_conform n_refit estimator ->
  1 <= t -> 1 <= shape1 K -> 1 <= shape1 Y ->
  _fit_multi_with_validation _score estimator loss K budget norms n_refit
    check_duplicates K_val y_val y 0 epsilon self_coef_ Y
  = Some (Fail ZeroDivisionError).
Proof.
  intros _ Hn Hrefit Ht Hm Hc.
  assert (Hfits : n_refit = 0%Z \/ estimator_fits estimator)
    by (destruct Hrefit as [H0|[Hf _]]; [left|right]; assumption).
  unfold _fit_multi_with_validation, budget_fuel.
  replace (Z.to_nat budget) with t by lia.
  cbn [while_true]. unfold loop_body. cbn [v_iterators].
  destruct (@next_all_yield T N estimator loss K t norms n_refit
              check_duplicates Y Hn Hfits (or_intror Hm) Hc 0 _ _ Ht
              lockstep_init) as [its' [Hnext Hstep]].
  rewrite Hnext.
  assert (Hne : its' <> []).
  { intro He. subst its'. inversion Hstep as [Hy|]; subst.
    unfold target_columns in *.
    destruct (shape1 Y) as [|c]; [lia|]. cbn in *. discriminate. }
  destruct its' as [|g its']; [congruence|]. reflexivity.
Qed.

End ValidationEdges.

(** ** Plain fits and checkpoints *)

Section PlainFit.
Context {T : Type} {N : Num T}.
Variable estimator : Estimator T.
Variable loss : option (Loss T).
Variable K : ndarray2 T.
Variable norms : vec T.
Variable n_refit : Z.
Variable check_duplicates : bool.

Local Abbreviation next_at n :=
  (next estimator loss K n norms n_refit check_duplicates).
Local Abbreviation drain_at n :=
  (drain estimator loss K n norms n_refit check_duplicates).
Local Abbreviation advance_at n :=
  (advance estimator loss K n norms n_refit check_duplicates).

(** The first iterations of a run do not depend on its budget. *)
Lemma advance_nested (n n' : Z) (k : nat) (g : frame T) :
  (n <= n')%Z -> (f_i g + Z.of_nat k <= n + 1)%Z ->
  advance_at n' k g = advance_at n k g.
Proof.
  intro Hle. revert g; induction k as [|k IH]; intros g Hk; [reflexivity|].
  cbn [advance].
  rewrite (@next_budget T N estimator loss K norms n_refit check_duplicates
             n n' g) by lia.
  destruct (next_at n g) as [c p g1| |e] eqn:Hn; try reflexivity.
  destruct (next_yield_inv _ _ _ _ _ _ _ _ Hn) as [_ [Hi _]].
  apply IH. lia.
Qed.

(** Draining a generator that is [k] iterations from its end. *)
Lemma drain_advance (n : Z) (k fuel : nat) (g g' : frame T)
    (acc : option (vec T)) :
  advance_at n k g = Some g' -> (n < f_i g')%Z -> k < fuel ->
  drain_at n fuel g acc =
  Some match k with
       | O => match acc with
              | Some c => Ok c
              | None => Raise UnboundLocalError
              end
       | S _ => Ok (f_coef g')
       end.
Proof.
  revert fuel g acc; induction k as [|k IH]; intros fuel g acc Ha Hi Hf.
  - inversion Ha; subst. destruct fuel as [|fuel]; [lia|].
    cbn [drain]. unfold next.
    destruct (Z.ltb_spec n (f_i g')); [reflexivity|lia].
  - destruct fuel as [|fuel]; [lia|]. cbn [drain advance] in *.
    destruct (next_at n g) as [c p g1| |e] eqn:Hn; try discriminate.
    rewrite (IH fuel g1 (Some c) Ha Hi) by lia.
    destruct k as [|k]; [|reflexivity].
    inversion Ha; subst.
    destruct (next_yield_inv _ _ _ _ _ _ _ _ Hn) as [_ [_ [-> _]]].
    reflexivity.
Qed.

Lemma all_done_map {A B : Type} (f : A -> option (result B)) (h : A -> B)
    (l : list A) :
  (forall a, In a l -> f a = Some (Ok (h a))) ->
  all_done (map f l) = Some (Ok (map h l)).
Proof.
  induction l as [|a l IH]; intro H; [reflexivity|].
  cbn [map all_done]. rewrite (H a) by (left; reflexivity).
  rewrite IH by (intros; apply H; right; assumption). reflexivity.
Qed.

Hypothesis norms_length : length norms = shape1 K.
Hypothesis fits : n_refit = 0%Z \/ estimator_fits estimator.
Hypothesis has_column : 1 <= shape1 K.

(** What [_fit_last] with budget [n] returns is the coefficient vector
    after [n] iterations of a run of any budget [t >= n]. *)
Lemma fit_last_coef_after (n t : nat) (y0 : vec T) :
  1 <= n <= t ->
  _fit_last estimator loss K (Z.of_nat n) norms n_refit check_duplicates y0
  = Some (Ok (coef_after estimator loss K (Z.of_nat t) norms n_refit
                check_duplicates n y0)) /\
  length (coef_after estimator loss K (Z.of_nat t) norms n_refit
            check_duplicates n y0) = shape1 K.
Proof.
  intros Hn.
  destruct (@advance_total T N estimator loss K (Z.of_nat n) norms n_refit
              check_duplicates norms_length fits n
              (_fit_generator loss K y0) has_column
              (fit_generator_ok loss K y0))
    as [g [Ha [Hok [Hi _]]]].
  { unfold remaining. cbn [f_i _fit_generator]. lia. }
  cbn [f_i _fit_generator] in Hi.
  unfold coef_after.
  rewrite (@advance_nested (Z.of_nat n) (Z.of_nat t))
    by (cbn [f_i _fit_generator]; lia).
  rewrite Ha. split; [|apply Hok].
  unfold _fit_last, budget_fuel.
  rewrite (@drain_advance (Z.of_nat n) n _ _ g None Ha) by lia.
  destruct n as [|n]; [lia|reflexivity].
Qed.

End PlainFit.

Section PlainFitTheorems.
Context {T : Type} {N : Num T}.
Variable estimator : Estimator T.
Variable loss : option (Loss T).
Variable K : ndarray2 T.
Variable norms : vec T.
Variable n_refit : Z.
Variable check_duplicates : bool.

(** X13. The coefficient matrix a validated run of budget [t] holds after
    [n] iterations, its snapshot at a checkpoint [n], is the matrix a
    plain fit of budget [n] returns. *)
Theorem snapshot_is_plain_fit (Y : ndarray2 T) (n t : nat) :
  well_shaped K -> well_shaped Y -> shape0 Y = shape0 K ->
  length norms = shape1 K ->
  refits_conform n_refit estimator ->
  1 <= shape1 K -> 1 <= n <= t ->
  _fit_multi estimator loss K (Z.of_nat n) norms n_refit check_duplicates Y
  = Some (Ok (snapshot estimator loss K (Z.of_nat t) norms n_refit
                check_duplicates Y n)).
Proof.
  intros _ _ _ Hn Hrefit Hm Hnt.
  assert (Hfits : n_refit = 0%Z \/ estimator_fits estimator)
    by (destruct Hrefit as [H0|[Hf _]]; [left|right]; assumption).
  unfold _fit_multi, snapshot. apply all_done_map.
  intros y0 _. apply fit_last_coef_after; assumption.
Qed.

End PlainFitTheorems.

Section NoCheckpoint.
Context {T : Type} {N : Num T}.
Variable Tgt : Type.
Variable _score : Tgt -> list (vec T) -> T.
Variable estimator : Estimator T.
Variable loss : option (Loss T).
Variable K : ndarray2 T.
Variable t : nat.
Variable norms : vec T.
Variable n_refit : Z.
Variable check_duplicates : bool.
Variable K_val : ndarray2 T.
Variable y_val : Tgt.
Variable y : Tgt.
Variable n_validate : Z.
Variable epsilon : T.
Variable self_coef_ : option (list (vec T)).
Variable Y : ndarray2 T.

Lemma checkpoints_none (k : nat) :
  (Z.of_nat k < n_validate)%Z -> checkpoints n_validate k = [].
Proof.
  intro Hk. unfold checkpoints.
  induction k as [|k IH]; [reflexivity|].
  rewrite seq_S, map_app, filter_app, IH by lia.
  cbn [map filter Nat.add app].
  rewrite Z.mod_small by lia.
  destruct (Z.eqb_spec (Z.of_nat (S k)) 0); [lia|reflexivity].
Qed.

(** A validated run whose budget ends before the first checkpoint
    records nothing and leaves [self.coef_] as it was. *)
Lemma run_without_checkpoint :
  length norms = shape1 K ->
  n_refit = 0%Z \/ estimator_fits estimator ->
  t = 0 \/ 1 <= shape1 K ->
  1 <= shape1 Y ->
  (Z.of_nat t < n_validate)%Z ->
  exists s,
    _fit_multi_with_validation _score estimator loss K (Z.of_nat t) norms
      n_refit check_duplicates K_val y_val y n_validate epsilon self_coef_ Y
    = Some (Exhausted s) /\
    v_iterations s = [] /\ v_validation_scores s = [] /\
    v_coef_ s = self_coef_.
Proof.
  intros Hn Hfits Hcol Htgt Hv.
  destruct (@validation_run T N Tgt _score estimator loss K t norms n_refit
              check_duplicates K_val y_val y n_validate epsilon self_coef_ Y
              Hn Hfits Hcol Htgt)
    as [o [Hrun [s [n [[Hits [Hvs Hbest]] Hend]]]]]; [lia|].
  destruct Hend as [[Ho [Hnt _]]|[Ho [Hnt [_ [Hmod _]]]]].
  - subst o n. exists s. split; [exact Hrun|].
    rewrite (checkpoints_none t Hv) in *. cbn in Hbest, Hvs.
    split; [exact Hits|]. split; [exact Hvs|]. congruence.
  - rewrite Z.mod_small in Hmod by lia. lia.
Qed.

End NoCheckpoint.

(** ** The facade: what [fit] returns *)

Section UsedBasis.
Context {T : Type} {N : Num T}.

Lemma count_true_orb {A : Type} (a b : A -> bool) (l : list A) :
  count_true (map (fun j => a j || b j) l) <=
  count_true (map a l) + count_true (map b l).
Proof.
  unfold count_true. induction l as [|x l IH]; [reflexivity|].
  cbn [map filter]. destruct (a x), (b x); cbn [orb length]; lia.
Qed.

Lemma map_nth_seq (r : vec T) (s : nat) (f : T -> bool) :
  map (fun j => f (nth (j - s) r zero)) (seq s (length r)) = map f r.
Proof.
  revert s; induction r as [|c r IH]; intro s; [reflexivity|].
  cbn [length seq map]. rewrite Nat.sub_diag. cbn [nth]. f_equal.
  rewrite <- (IH (S s)). apply map_ext_in. intros j Hj. apply in_seq in Hj.
  replace (j - s) with (S (j - S s)) by lia. reflexivity.
Qed.

Lemma count_true_nonzero (r : vec T) (s : nat) :
  count_true
    (map (fun j => negb (eqb (nth (j - s) r zero) zero))
         (seq s (length r)))
  = count_nonzero r.
Proof.
  rewrite (map_nth_seq r s (fun c => negb (eqb c zero))).
  unfold count_true, count_nonzero.
  induction r as [|c r IH]; [reflexivity|].
  cbn [map filter]. destruct (negb (eqb c zero)); cbn [length]; rewrite IH;
    reflexivity.
Qed.

(** The columns in use are at most the nonzero coefficients, counted
    row by row. *)
Lemma used_basis_count (coef_ : list (vec T)) (m : nat) :
  Forall (fun r => length r = m) coef_ ->
  count_true
    (map (fun j => existsb (fun r => negb (eqb (nth j r zero) zero)) coef_)
         (seq 0 m))
  <= list_sum (map (@count_nonzero T N) coef_).
Proof.
  induction 1 as [|r rs Hr _ IH].
  - cbn. unfold count_true. induction (seq 0 m); cbn; lia.
  - cbn [existsb map]. simpl list_sum.
    etransitivity; [apply count_true_orb|].
    apply Nat.add_le_mono; [|exact IH].
    rewrite <- (count_true_nonzero r 0), Hr.
    apply Nat.eq_le_incl. f_equal. apply map_ext. intro j.
    rewrite Nat.sub_0_r. reflexivity.
Qed.

Lemma list_sum_bound (l : list nat) (b : nat) :
  Forall (fun x => x <= b) l -> list_sum l <= b * length l.
Proof.
  induction 1 as [|x l Hx _ IH]; simpl in *; nia.
Qed.

End UsedBasis.

Section CoefAfter.
Context {T : Type} {N : Num T}.
Variable estimator : Estimator T.
Variable loss : option (Loss T).
Variable K : ndarray2 T.
Variable norms : vec T.
Variable n_refit : Z.
Variable check_duplicates : bool.

(** Without refits, at most [n] coefficients are nonzero after [n]
    iterations. *)
Lemma coef_after_sparse (n t : nat) (y0 : vec T) :
  NumLaws T -> length norms = shape1 K -> n_refit = 0%Z ->
  count_nonzero
    (coef_after estimator loss K (Z.of_nat t) norms n_refit
       check_duplicates n y0) <= n.
Proof.
  intros L Hn H0. unfold coef_after.
  destruct (advance _ _ _ _ _ _ _ n _) as [g|] eqn:Ha; [|cbn; lia].
  assert (Hsp : sparse K check_duplicates (n + 0) g).
  { eapply sparse_advance;
      [exact Hn | exact L | exact H0 | apply sparse_init | exact Ha]. }
  destruct Hsp as [[Hsel Hcoef] [Hle [_ Hz]]].
  rewrite Nat.add_0_r in Hle.
  etransitivity; [|exact Hle].
  apply count_nonzero_le_selected; [exact L | congruence | exact Hz].
Qed.

End CoefAfter.

Section FitResults.
Context {T : Type} {N : Num T}.
Variables Sample Tgt : Type.
Variable target_length : Tgt -> nat.
Variable shuffled : nat -> list nat.
Variable pairwise_kernels : list Sample -> list Sample -> ndarray2 T.
Variable scaler_fit_transform : ndarray2 T -> ndarray2 T.
Variable scaler_transform : ndarray2 T -> ndarray2 T -> ndarray2 T.
Variable _score : Tgt -> list (vec T) -> T.
Variable encode : Tgt -> ndarray2 T.

Local Abbreviation resolve_components :=
  (resolve_components target_length shuffled).
Local Abbreviation _pre_fit :=
  (_pre_fit target_length shuffled pairwise_kernels scaler_fit_transform).
Local Abbreviation fit :=
  (fit target_length shuffled pairwise_kernels scaler_fit_transform
     scaler_transform _score encode).

(** [_pre_fit] on a budget that resolves to an integer within the
    number of components. *)
Lemma pre_fit_ok (self : KMPBase T Sample Tgt) (X : list Sample) (y : Tgt)
    (components : list Sample) (k : Z) :
  resolve_components self X y = Ok components ->
  resolve_budget (n_nonzero_coefs self) (Z.of_nat (length components))
    = Ok (PyInt k) ->
  (k <= Z.of_nat (length components))%Z ->
  _pre_fit self X y =
  Ok {| components_ := components;
        budget := PyInt k;
        dictionary :=
          if scale self
          then scaler_fit_transform (pairwise_kernels X components)
          else pairwise_kernels X components;
        unscaled := pairwise_kernels X components;
        norms_ :=
          column_norms
            (if scale self
             then scaler_fit_transform (pairwise_kernels X components)
             else pairwise_kernels X components) |}.
Proof.
  intros Hc Hb Hk. unfold _pre_fit. rewrite Hc. cbn [bind]. rewrite Hb.
  cbn [bind py_ltb].
  destruct (Z.ltb_spec (Z.of_nat (length components)) k); [lia|reflexivity].
Qed.

Lemma dictionary_shape (self : KMPBase T Sample Tgt)
    (X components : list Sample) :
  kernel_shaped pairwise_kernels ->
  shape_preserving scaler_fit_transform ->
  let K := if scale self
           then scaler_fit_transform (pairwise_kernels X components)
           else pairwise_kernels X components in
  well_shaped K /\ shape0 K = length X /\ shape1 K = length components.
Proof.
  intros Hk Hs. destruct (Hk X components) as [Hw [H0 H1]].
  destruct (scale self); cbv zeta; [|auto].
  destruct (Hs _ Hw) as [Hw' [H0' H1']]. split; [exact Hw'|]. lia.
Qed.

(** X14. A fit with an iteration budget of [0] and no validation set fails:
    [_fit_last] leaves its loop without a coefficient vector to return,
    and raises [UnboundLocalError]. *)
Theorem zero_budget_fit_fails (self : KMPBase T Sample Tgt)
    (X : list Sample) (y : Tgt) (components : list Sample) :
  n_nonzero_coefs self = PyInt 0 ->
  X_val self = None \/ y_val self = None ->
  resolve_components self X y = Ok components ->
  1 <= shape1 (encode y) ->
  fit self X y = Some (Raise UnboundLocalError).
Proof.
  intros Hb Hval Hc Hy. unfold fit.
  rewrite (@pre_fit_ok self X y components 0 Hc)
    by (try lia; rewrite Hb; reflexivity).
  cbn [budget dictionary norms_ components_].
  assert (Hmulti : forall K norms,
             _fit_multi (estimator self) (_get_loss self) K 0 norms
               (n_refit self) (check_duplicates self) (encode y)
             = Some (Raise UnboundLocalError)).
  { intros K norms. unfold _fit_multi, target_columns.
    destruct (shape1 (encode y)) as [|c]; [lia|]. reflexivity. }
  destruct (shape1 (encode y)) as [|c] eqn:Hsh; [lia|].
  destruct Hval as [Hv|Hv]; rewrite Hv.
  - rewrite Hmulti. reflexivity.
  - destruct (X_val self); rewrite Hmulti; reflexivity.
Qed.

(** X15. A validated fit whose budget ends before the first checkpoint
    ([n_nonzero_coefs < n_validate]) stores no coefficients: on a fresh
    estimator [_post_fit] finds no [coef_] and [fit] raises
    [AttributeError]. *)
Theorem budget_before_checkpoint_fails (self : KMPBase T Sample Tgt)
    (X Xv : list Sample) (y yv : Tgt) (components : list Sample) (t : nat) :
  kernel_shaped pairwise_kernels ->
  shape_preserving scaler_fit_transform ->
  (forall S, shape_preserving (scaler_transform S)) ->
  well_shaped (encode y) -> shape0 (encode y) = length X ->
  1 <= shape1 (encode y) ->
  refits_conform (n_refit self) (estimator self) ->
  X_val self = Some Xv -> y_val self = Some yv ->
  resolve_components self X y = Ok components ->
  resolve_budget (n_nonzero_coefs self) (Z.of_nat (length components))
    = Ok (PyInt (Z.of_nat t)) ->
  t <= length components ->
  (Z.of_nat t < n_validate self)%Z ->
  fit self X y = Some (Raise AttributeError).
Proof.
  intros Hk Hs _ _ _ Hy Hrefit HXv Hyv Hc Hb Ht Hv. unfold fit.
  rewrite (@pre_fit_ok self X y components (Z.of_nat t) Hc Hb) by lia.
  cbn [budget dictionary norms_ components_ unscaled].
  destruct (@dictionary_shape self X components Hk Hs) as [_ [_ Hm]].
  cbv zeta in Hm.
  rewrite HXv, Hyv.
  destruct (shape1 (encode y)) as [|c] eqn:Hsh; [lia|].
  match goal with
  | |- context [_fit_multi_with_validation ?sc ?e ?l ?K ?n ?no ?r ?cd ?Kv ?yv'
                  ?y' ?nv ?eps ?sf ?Y] =>
      destruct (@run_without_checkpoint T N Tgt sc e l K t no r cd Kv yv' y'
                  nv eps sf Y) as [s [Hrun [_ [_ Hcoef]]]]
  end.
  - apply column_norms_length.
  - destruct Hrefit as [H0|[Hf _]]; [left|right]; assumption.
  - destruct t as [|t']; [left; reflexivity|right]. rewrite Hm. lia.
  - rewrite Hsh. lia.
  - exact Hv.
  - rewrite Hrun, Hcoef. reflexivity.
Qed.

(** X16. A fit without validation on a budget of [t >= 1] iterations returns:
    the fitted coefficient matrix has one row per target column, every
    row is as long as the list of stored components, and the stored
    components are a selection of the components the fit started
    from. *)
Theorem plain_fit_returns (self : KMPBase T Sample Tgt)
    (X : list Sample) (y : Tgt) (components : list Sample) (t : nat) :
  kernel_shaped pairwise_kernels ->
  shape_preserving scaler_fit_transform ->
  well_shaped (encode y) -> shape0 (encode y) = length X ->
  1 <= shape1 (encode y) ->
  refits_conform (n_refit self) (estimator self) ->
  X_val self = None \/ y_val self = None ->
  resolve_components self X y = Ok components ->
  resolve_budget (n_nonzero_coefs self) (Z.of_nat (length components))
    = Ok (PyInt (Z.of_nat t)) ->
  1 <= t <= length components ->
  exists f,
    fit self X y = Some (Ok f) /\
    length (fitted_coef_ f) = shape1 (encode y) /\
    Forall (fun r => length r = length (fitted_components_ f))
           (fitted_coef_ f) /\
    (exists mask, length mask = length components /\
                  fitted_components_ f = select components mask).
Proof.
  intros Hk Hs _ _ Hy Hrefit Hval Hc Hb Ht. unfold fit.
  rewrite (@pre_fit_ok self X y components (Z.of_nat t) Hc Hb) by lia.
  cbn [budget dictionary norms_ components_ unscaled].
  destruct (@dictionary_shape self X components Hk Hs) as [Hw [_ Hm]].
  cbv zeta in Hw, Hm.
  set (K := if scale self
            then scaler_fit_transform (pairwise_kernels X components)
            else pairwise_kernels X components) in *.
  assert (Hfits : n_refit self = 0%Z \/ estimator_fits (estimator self))
    by (destruct Hrefit as [H0|[Hf _]]; [left|right]; assumption).
  assert (Hcol : 1 <= shape1 K) by lia.
  set (coef := snapshot (estimator self) (_get_loss self) K (Z.of_nat t)
                 (column_norms K) (n_refit self) (check_duplicates self)
                 (encode y) t).
  assert (Hmulti :
            _fit_multi (estimator self) (_get_loss self) K (Z.of_nat t)
              (column_norms K) (n_refit self) (check_duplicates self)
              (encode y) = Some (Ok coef)).
  { unfold _fit_multi. subst coef. unfold snapshot. apply all_done_map.
    intros y0 _.
    apply (@fit_last_coef_after T N (estimator self) (_get_loss self) K
             (column_norms K) (n_refit self) (check_duplicates self)
             (column_norms_length K) Hfits Hcol t t y0). lia. }
  assert (Hrows : Forall (fun r => length r = length components) coef).
  { subst coef. unfold snapshot. apply Forall_forall. intros r Hr.
    apply in_map_iff in Hr. destruct Hr as [y0 [<- _]]. rewrite <- Hm.
    apply (@fit_last_coef_after T N (estimator self) (_get_loss self) K
             (column_norms K) (n_refit self) (check_duplicates self)
             (column_norms_length K) Hfits Hcol t t y0). lia. }
  assert (Hlen : length coef = shape1 (encode y)).
  { subst coef. unfold snapshot, target_columns.
    rewrite !length_map, length_seq. reflexivity. }
  assert (Hresult :
            match X_val self, y_val self with
            | Some Xv, Some yv' => False
            | _, _ => True
            end).
  { destruct Hval as [Hv|Hv]; rewrite Hv; [exact I|].
    destruct (X_val self); exact I. }
  destruct (shape1 (encode y)) as [|c] eqn:Hsh; [lia|].
  destruct coef as [|r0 rest] eqn:Hcoef; [cbn in Hlen; lia|].
  assert (Hused : length (used_basis (r0 :: rest)) = length components).
  { rewrite used_basis_length. cbn [hd]. inversion Hrows; assumption. }
  exists {| fitted_components_ := select components (used_basis (r0 :: rest));
            fitted_coef_ :=
              map (fun r => select r (used_basis (r0 :: rest))) (r0 :: rest);
            validation_scores_ := [];
            training_scores_ := [];
            iterations_ := [] |}.
  cbn [fitted_components_ fitted_coef_ validation_scores_ training_scores_
         iterations_].
  split.
  - destruct (X_val self) as [Xv|], (y_val self) as [yv'|];
      try contradiction; rewrite Hmulti; reflexivity.
  - split; [rewrite length_map; exact Hlen|].
    split; [|exists (used_basis (r0 :: rest)); auto].
    apply Forall_forall. intros r Hr. apply in_map_iff in Hr.
    destruct Hr as [r' [<- Hr']].
    rewrite Forall_forall in Hrows.
    rewrite !select_length
      by (rewrite Hused; auto; rewrite (Hrows r' Hr'); reflexivity).
    reflexivity.
Qed.

(** X17. Without refits the fitted model is sparse: a fit of budget [t]
    without validation stores at most [t] components per target
    column. *)
Theorem fitted_model_size (self : KMPBase T Sample Tgt)
    (X : list Sample) (y : Tgt) (components : list Sample) (t : nat)
    (f : fitted T Sample) :
  NumLaws T ->
  kernel_shaped pairwise_kernels ->
  shape_preserving scaler_fit_transform ->
  well_shaped (encode y) -> shape0 (encode y) = length X ->
  n_refit self = 0%Z ->
  X_val self = None \/ y_val self = None ->
  resolve_components self X y = Ok components ->
  resolve_budget (n_nonzero_coefs self) (Z.of_nat (length components))
    = Ok (PyInt (Z.of_nat t)) ->
  1 <= t <= length components ->
  fit self X y = Some (Ok f) ->
  length (fitted_components_ f) <= t * shape1 (encode y).
Proof.
  intros L Hk Hs _ _ H0 Hval Hc Hb Ht. unfold fit.
  rewrite (@pre_fit_ok self X y components (Z.of_nat t) Hc Hb) by lia.
  cbn [budget dictionary norms_ components_ unscaled].
  destruct (@dictionary_shape self X components Hk Hs) as [Hw [_ Hm]].
  cbv zeta in Hw, Hm.
  set (K := if scale self
            then scaler_fit_transform (pairwise_kernels X components)
            else pairwise_kernels X components) in *.
  assert (Hfits : n_refit self = 0%Z \/ estimator_fits (estimator self))
    by (left; exact H0).
  assert (Hcol : 1 <= shape1 K) by lia.
  set (coef := snapshot (estimator self) (_get_loss self) K (Z.of_nat t)
                 (column_norms K) (n_refit self) (check_duplicates self)
                 (encode y) t).
  assert (Hmulti :
            _fit_multi (estimator self) (_get_loss self) K (Z.of_nat t)
              (column_norms K) (n_refit self) (check_duplicates self)
              (encode y) = Some (Ok coef)).
  { unfold _fit_multi. subst coef. unfold snapshot. apply all_done_map.
    intros y0 _.
    apply (@fit_last_coef_after T N (estimator self) (_get_loss self) K
             (column_norms K) (n_refit self) (check_duplicates self)
             (column_norms_length K) Hfits Hcol t t y0). lia. }
  assert (Hrows : Forall (fun r => length r = length components) coef).
  { subst coef. unfold snapshot. apply Forall_forall. intros r Hr.
    apply in_map_iff in Hr. destruct Hr as [y0 [<- _]]. rewrite <- Hm.
    apply (@fit_last_coef_after T N (estimator self) (_get_loss self) K
             (column_norms K) (n_refit self) (check_duplicates self)
             (column_norms_length K) Hfits Hcol t t y0). lia. }
  assert (Hsparse : Forall (fun x => x <= t) (map (@count_nonzero T N) coef)).
  { subst coef. unfold snapshot. apply Forall_forall. intros x Hx.
    apply in_map_iff in Hx. destruct Hx as [r [<- Hr]].
    apply in_map_iff in Hr. destruct Hr as [y0 [<- _]].
    apply coef_after_sparse;
      [exact L | apply column_norms_length | exact H0]. }
  assert (Hlen : length coef = shape1 (encode y)).
  { subst coef. unfold snapshot, target_columns.
    rewrite !length_map, length_seq. reflexivity. }
  assert (Hcount : count_true (used_basis coef) <= t * shape1 (encode y)).
  { unfold used_basis.
    etransitivity; [apply (@used_basis_count T N coef (length (hd [] coef)))|].
    - destruct coef as [|r0 rest]; [constructor|]. cbn [hd].
      inversion Hrows; subst.
      apply Forall_forall. intros r Hr. rewrite Forall_forall in Hrows.
      rewrite (Hrows r Hr). symmetry. assumption.
    - etransitivity; [apply list_sum_bound; exact Hsparse|].
      rewrite length_map, Hlen. reflexivity. }
  assert (Hfinish :
            forall f0,
              finish components (Some coef) [] [] [] = Ok f0 ->
              length (fitted_components_ f0) <= t * shape1 (encode y)).
  { intros f0. unfold finish, _post_fit.
    destruct coef as [|r0 rest]; [discriminate|].
    cbn [bind prune]. intro Hf. inversion Hf; subst; clear Hf.
    cbn [fitted_components_].
    etransitivity; [apply select_length_le|exact Hcount]. }
  clearbody coef.
  destruct (shape1 (encode y)) as [|c] eqn:Hsh.
  - destruct Hval as [Hv|Hv]; rewrite Hv;
      [|destruct (X_val self)]; rewrite Hmulti;
      intro Hf; inversion Hf as [Hf']; apply Hfinish; exact Hf'.
  - destruct Hval as [Hv|Hv]; rewrite Hv;
      [|destruct (X_val self)]; rewrite Hmulti;
      intro Hf; inversion Hf as [Hf']; apply Hfinish; exact Hf'.
Qed.

End FitResults.

(** ** Selecting the components *)

Section Components.
Context {T : Type} {N : Num T}.
Variables Sample Tgt : Type.
Variable target_length : Tgt -> nat.
Variable shuffled : nat -> list nat.

Local Abbreviation create_components :=
  (create_components target_length shuffled).

Lemma take_one {A : Type} (l : list A) (i : nat) :
  i < length l ->
  exists x, firstn 1 (skipn i l) = [x] /\ nth_error l i = Some x.
Proof.
  revert i; induction l as [|a l IH]; intros i Hi; [cbn in Hi; lia|].
  destruct i as [|i].
  - exists a. split; reflexivity.
  - cbn [skipn nth_error]. apply IH. cbn in Hi. lia.
Qed.

Lemma take_each {A : Type} (l : list A) (idx : list nat) :
  (forall i, In i idx -> i < length l) ->
  map Some (flat_map (fun i => firstn 1 (skipn i l)) idx)
  = map (nth_error l) idx.
Proof.
  induction idx as [|i idx IH]; intro H; [reflexivity|].
  cbn [flat_map map]. rewrite map_app, IH
    by (intros; apply H; right; assumption).
  destruct (@take_one A l i) as [x [Hx Hn]]; [apply H; left; reflexivity|].
  rewrite Hx, Hn. reflexivity.
Qed.

Lemma in_firstn {A : Type} (l : list A) (n : nat) (x : A) :
  In x (firstn n l) -> In x l.
Proof.
  intro H. rewrite <- (firstn_skipn n l). apply in_or_app. left. exact H.
Qed.

Lemma nodup_firstn {A : Type} (l : list A) (n : nat) :
  NoDup l -> NoDup (firstn n l).
Proof.
  intro H. rewrite <- (firstn_skipn n l) in H.
  apply NoDup_app_remove_r in H. exact H.
Qed.

Lemma shuffle_covers (n i : nat) :
  shuffles shuffled n -> i < n -> In i (shuffled n).
Proof.
  intros [Hnd [Hlen Hlt]] Hi.
  apply (@NoDup_length_incl nat (shuffled n) (seq 0 n)).
  - exact Hnd.
  - rewrite length_seq, Hlen. lia.
  - intros j Hj. apply in_seq. specialize (Hlt j Hj). lia.
  - apply in_seq. lia.
Qed.

Lemma no_index_past (n m : nat) :
  shuffles shuffled n ->
  existsb (fun i => (m <=? i)%nat) (shuffled n) = negb (n <=? m)%nat.
Proof.
  intro Hs. destruct (Nat.leb_spec n m) as [Hle|Hgt]; cbn [negb].
  - destruct (existsb _ _) eqn:He; [|reflexivity].
    apply existsb_exists in He. destruct He as [i [Hi Hm]].
    apply Nat.leb_le in Hm. destruct Hs as [_ [_ Hlt]].
    specialize (Hlt i Hi). lia.
  - apply existsb_exists. exists (n - 1). split.
    + apply shuffle_covers; [exact Hs|lia].
    + apply Nat.leb_le. lia.
Qed.

(** X18. An integer count that is neither [0], [1] nor the number of samples
    draws that many samples (all of them when there are fewer), at
    distinct positions of [X], in the order of the shuffle. *)
Theorem create_components_draws (X : list Sample) (y : Tgt) (n : Z) :
  (2 <= n)%Z -> n <> Z.of_nat (length X) ->
  shuffles shuffled (length X) ->
  length X <= target_length y ->
  exists (l : list Sample) (idx : list nat),
    create_components X y (Some (PyInt n)) = Ok l /\
    idx = firstn (Z.to_nat n) (shuffled (length X)) /\
    NoDup idx /\ (forall i, In i idx -> i < length X) /\
    map Some l = map (nth_error X) idx /\
    length l = Nat.min (Z.to_nat n) (length X).
Proof.
  intros Hn Hne Hs Hy. unfold create_components.
  cbn [py_eqb py_ltb py_leb].
  destruct (Z.eqb_spec n 0); [lia|].
  destruct (Z.ltb_spec n 0); [lia|].
  destruct (Z.ltb_spec 0 n); [|lia].
  destruct (Z.leb_spec n 1); [lia|].
  cbn [andb bind py_eqb].
  destruct (Z.eqb_spec n (Z.of_nat (length X))); [contradiction|].
  rewrite (no_index_past (target_length y) Hs).
  destruct (Nat.leb_spec (length X) (target_length y)); [|lia].
  cbn [negb].
  destruct Hs as [Hnd [Hlen Hlt]].
  set (idx := firstn (Z.to_nat n) (shuffled (length X))).
  assert (Hin : forall i, In i idx -> i < length X).
  { intros i Hi. apply Hlt. subst idx. eapply in_firstn. exact Hi. }
  exists (flat_map (fun i => firstn 1 (skipn i X)) idx), idx.
  split; [reflexivity|]. split; [reflexivity|].
  split; [apply nodup_firstn; exact Hnd|].
  split; [exact Hin|].
  pose proof (take_each X idx Hin) as Hmap.
  split; [exact Hmap|].
  apply (f_equal (@length _)) in Hmap. rewrite !length_map in Hmap.
  rewrite Hmap. subst idx. rewrite length_firstn, Hlen. reflexivity.
Qed.

(** X19. When the target has fewer entries than there are samples, drawing
    components fails: [y[indices]] raises [IndexError], whatever the
    count. *)
Theorem create_components_short_target (X : list Sample) (y : Tgt) (n : Z) :
  (2 <= n)%Z -> n <> Z.of_nat (length X) ->
  shuffles shuffled (length X) ->
  target_length y < length X ->
  create_components X y (Some (PyInt n)) = Raise IndexError.
Proof.
  intros Hn Hne Hs Hy. unfold create_components.
  cbn [py_eqb py_ltb py_leb].
  destruct (Z.eqb_spec n 0); [lia|].
  destruct (Z.ltb_spec n 0); [lia|].
  destruct (Z.ltb_spec 0 n); [|lia].
  destruct (Z.leb_spec n 1); [lia|].
  cbn [andb bind py_eqb].
  destruct (Z.eqb_spec n (Z.of_nat (length X))); [contradiction|].
  rewrite (no_index_past (target_length y) Hs).
  destruct (Nat.leb_spec (length X) (target_length y)); [lia|].
  reflexivity.
Qed.

End Components.

(** ** Pruning and prediction *)

Section PruneKeeps.
Context {T : Type} {N : Num T}.
Variable Sample : Type.

Local Abbreviation nonzero := (fun c : T => negb (eqb c zero)).

Lemma filter_select (r : vec T) (mask : list bool) :
  (forall j, j < length r -> nonzero (nth j r zero) = true ->
             nth j mask false = true) ->
  filter nonzero (select r mask) = filter nonzero r.
Proof.
  revert mask; induction r as [|c r IH]; intros mask H; [reflexivity|].
  destruct mask as [|b mask].
  - assert (IH' : filter nonzero (select r []) = filter nonzero r).
    { apply IH. intros j Hj Hnz. specialize (H (S j) ltac:(cbn; lia) Hnz).
      destruct j; discriminate. }
    rewrite select_nil_r in IH'. cbn [select filter].
    destruct (negb (eqb c zero)) eqn:Hc.
    + specialize (H 0 ltac:(cbn; lia) Hc). discriminate.
    + exact IH'.
  - assert (IH' : filter nonzero (select r mask) = filter nonzero r).
    { apply IH. intros j Hj Hnz. apply (H (S j)); [cbn; lia|exact Hnz]. }
    cbn [select]. destruct b.
    + cbn [filter]. rewrite IH'. reflexivity.
    + cbn [filter]. destruct (negb (eqb c zero)) eqn:Hc.
      * specialize (H 0 ltac:(cbn; lia) Hc). discriminate.
      * exact IH'.
Qed.

(** X20. Pruning never drops a nonzero coefficient: the nonzero entries of
    every row are the same, in the same order, before and after. *)
Theorem prune_keeps_nonzero (components : list Sample)
    (coef_ : list (vec T)) (m : nat) :
  Forall (fun r => length r = m) coef_ ->
  map (filter (fun c => negb (eqb c zero))) (snd (prune components coef_))
  = map (filter (fun c => negb (eqb c zero))) coef_.
Proof.
  intro Hrect. unfold prune. cbn [snd]. rewrite map_map.
  apply map_ext_in. intros r Hr. apply filter_select.
  intros j Hj Hnz. apply used_basis_nth. split.
  - rewrite Forall_forall in Hrect.
    destruct coef_ as [|r0 rest]; [destruct Hr|]. cbn [hd].
    rewrite (Hrect r0) by (left; reflexivity).
    rewrite <- (Hrect r Hr). exact Hj.
  - exists r. split; [exact Hr|]. apply negb_true_iff. exact Hnz.
Qed.

End PruneKeeps.

Section PrunedPrediction.
Open Scope R_scope.
Variables Sample Tgt : Type.
Variable pairwise_kernels : list Sample -> list Sample -> ndarray2 R.
Variable scaler_transform : ndarray2 R -> ndarray2 R -> ndarray2 R.

Lemma dot_select (k c : list R) (mask : list bool) :
  (forall j, nth j mask false = false -> nth j c 0 = 0) ->
  dot (select k mask) (select c mask) = dot k c.
Proof.
  revert c mask; induction k as [|a k IH]; intros c mask H.
  - destruct mask; reflexivity.
  - destruct c as [|b c].
    + destruct mask as [|[|] mask]; cbn [select]; try reflexivity;
        unfold dot; destruct (select k mask); reflexivity.
    + destruct mask as [|m mask].
      * cbn [select]. rewrite dot_cons.
        rewrite (H O eq_refl : b = 0).
        rewrite <- (IH c []); [destruct k; cbn [select]; unfold dot; cbn; lra|].
        intros j Hj. apply (H (S j)). destruct j; reflexivity.
      * assert (IH' : dot (select k mask) (select c mask) = dot k c).
        { apply IH. intros j Hj. apply (H (S j)). exact Hj. }
        cbn [select]. destruct m.
        -- rewrite !dot_cons, IH'. reflexivity.
        -- rewrite dot_cons, IH'. rewrite (H O eq_refl : b = 0). lra.
Qed.

(** X21. In exact arithmetic and without scaling, the pruning of [_post_fit]
    does not change what the model predicts: the decision function of
    the pruned components and coefficients is that of the unpruned
    ones. *)
Theorem pruning_preserves_predictions (self : KMPBase R Sample Tgt)
    (scaler_ : ndarray2 R) (components pruned : list Sample)
    (coef_ pruned_coef_ : list (vec R)) (X : list Sample) :
  columnwise pairwise_kernels ->
  scale self = false ->
  Forall (fun r => length r = length components) coef_ ->
  _post_fit components coef_ = Ok (pruned, pruned_coef_) ->
  decision_function pairwise_kernels scaler_transform self scaler_
    pruned pruned_coef_ X
  = decision_function pairwise_kernels scaler_transform self scaler_
      components coef_ X.
Proof.
  intros Hcw Hscale Hrect Hpost. unfold _post_fit in Hpost.
  destruct coef_ as [|r0 rest] eqn:Hcoef; [discriminate|].
  rewrite <- Hcoef in *. inversion Hpost; subst pruned pruned_coef_.
  clear Hpost. unfold decision_function. rewrite Hscale.
  assert (Hused : length (used_basis coef_) = length components).
  { rewrite used_basis_length, Hcoef. cbn [hd].
    rewrite Hcoef in Hrect. inversion Hrect; assumption. }
  cbv zeta. rewrite (Hcw X components (used_basis coef_) Hused).
  unfold dot_coef_T, columns_where. cbn [rows]. rewrite map_map.
  apply map_ext. intro k. rewrite map_map.
  apply map_ext_in. intros c Hc. apply dot_select.
  intros j Hj.
  destruct (Nat.lt_ge_cases j (length c)) as [Hlt|Hge];
    [|apply nth_overflow; exact Hge].
  destruct (Req_dec_T (nth j c 0) 0) as [H0|Hne]; [exact H0|].
  exfalso.
  assert (Hu : nth j (used_basis coef_) false = true).
  { apply used_basis_nth. split.
    - rewrite Forall_forall in Hrect.
      rewrite Hcoef at 1. cbn [hd].
      rewrite (Hrect r0) by (rewrite Hcoef; left; reflexivity).
      rewrite <- (Hrect c Hc). exact Hlt.
    - exists c. split; [exact Hc|]. cbn [eqb zero exact]. unfold Reqb.
      destruct (Req_dec_T (nth j c 0) 0); [contradiction|reflexivity]. }
  congruence.
Qed.

End PrunedPrediction.

(** ** The further properties on concrete inputs *)

Section FurtherOnFloat64.
Import Float64Examples Float64Cases.

Lemma identity2_conforms (y : vec float) :
  length y = 2 -> conforming identity2 y.
Proof.
  intro H. split; [split; [reflexivity | repeat constructor] | exact H].
Qed.

Lemma linear_kernel_shaped : kernel_shaped linear_kernel.
Proof.
  intros X C. unfold linear_kernel, M, well_shaped. cbn.
  rewrite length_map. repeat split.
  apply Forall_forall. intros r Hr. apply in_map_iff in Hr.
  destruct Hr as [x [<- _]]. apply length_map.
Qed.

Lemma identity_preserving : shape_preserving (fun K : ndarray2 float => K).
Proof. intros K H. auto. Qed.

Lemma reshape_column_shaped (y : list float) :
  well_shaped (reshape_column y) /\ shape0 (reshape_column y) = length y.
Proof.
  unfold reshape_column, M, well_shaped. cbn. rewrite length_map.
  repeat split. apply Forall_forall. intros r Hr. apply in_map_iff in Hr.
  destruct Hr as [v [<- _]]. reflexivity.
Qed.

Lemma seq_shuffles (n : nat) : shuffles (seq 0) n.
Proof.
  split; [apply seq_NoDup|]. split; [apply length_seq|].
  intros i Hi. apply in_seq in Hi. lia.
Qed.

Lemma pursuit_nested_witness :
  trajectory no_estimator None identity2 (Z.of_nat 1)
    (column_norms identity2) 0 true [1; 1]%float
  = firstn 1
      (trajectory no_estimator None identity2 (Z.of_nat 2)
         (column_norms identity2) 0 true [1; 1]%float).
Proof.
  apply (@pursuit_nested float float64 no_estimator None identity2
           (column_norms identity2) 0%Z true [1; 1]%float 1 2).
  - apply identity2_conforms. reflexivity.
  - reflexivity.
  - left; reflexivity.
  - lia.
Defined.

Lemma fit_last_returns_last_yield_witness :
  (1 <= 2)%Z /\
  length (trajectory no_estimator None identity2 2
            (column_norms identity2) 0 true [1; 1]%float) = Z.to_nat 2 /\
  exists p,
    nth_error (trajectory no_estimator None identity2 2
                 (column_norms identity2) 0 true [1; 1]%float)
              (Z.to_nat 2 - 1)
    = Some ([1; 1]%float, p).
Proof.
  apply (@fit_last_returns_last_yield float float64 no_estimator None
           identity2 (column_norms identity2) 0%Z true 2%Z [1; 1]%float
           [1; 1]%float).
  - apply identity2_conforms. reflexivity.
  - reflexivity.
  - left; reflexivity.
  - vm_compute. reflexivity.
Defined.

Lemma empty_dictionary_refused_witness :
  trajectory no_estimator None K_empty 1 [] 0 true [1; 0]%float = [] /\
  _fit_last no_estimator None K_empty 1 [] 0 true [1; 0]%float
  = Some (Raise ValueError).
Proof.
  apply (@empty_dictionary_refused float float64 no_estimator None K_empty
           [] 0%Z true 1%Z [1; 0]%float).
  - split; [split; [reflexivity | repeat constructor] | reflexivity].
  - reflexivity.
  - reflexivity.
  - lia.
Defined.

Lemma yields_shapes_witness :
  length [1; 0]%float = shape1 identity2 /\
  length [1; 0]%float = shape0 identity2.
Proof.
  apply (@yields_shapes float float64 no_estimator None identity2 2%Z
           (column_norms identity2) 0%Z true [1; 1]%float [1; 0]%float
           [1; 0]%float 0).
  - apply identity2_conforms. reflexivity.
  - reflexivity.
  - left; reflexivity.
  - vm_compute. reflexivity.
Defined.

Lemma select_best_maximal_witness :
  1 < length [1; -3; 2]%float /\
  (true = true -> nth 1 [false; false; false] false = false) /\
  forall j, j < length [1; -3; 2]%float ->
    (true = true -> nth j [false; false; false] false = false) ->
    leb (abs (nth j [1; -3; 2]%float zero)) (abs (nth 1 [1; -3; 2]%float zero))
    = true /\
    (j < 1 ->
     leb (abs (nth 1 [1; -3; 2]%float zero)) (abs (nth j [1; -3; 2]%float zero))
     = false).
Proof.
  apply (@select_best_maximal float float64 true [1; -3; 2]%float
           [false; false; false] 1).
  - exact float64_laws.
  - exact float64_leb.
  - reflexivity.
  - repeat constructor.
  - intros _. exists 0. reflexivity.
  - vm_compute. reflexivity.
Defined.

Lemma validation_records_aligned_witness :
  exists s,
    _fit_multi_with_validation regression_score no_estimator None identity2
      (Z.of_nat 2) (column_norms identity2) 0 true identity2 [1; 0]%float
      [1; 0]%float 1 0%float None (reshape_column [1; 0]%float)
    = Some (Exhausted s) /\
    length (v_validation_scores s) = length (v_iterations s) /\
    length (v_training_scores s) = length (v_iterations s).
Proof.
  eexists. split; [vm_compute; reflexivity|].
  eapply (@validation_records_aligned float float64 (vec float)
            regression_score no_estimator None identity2 2
            (column_norms identity2) 0%Z true identity2 [1; 0]%float
            [1; 0]%float 0%float None (reshape_column [1; 0]%float) 1%Z).
  - repeat split; repeat constructor.
  - reflexivity.
  - left; reflexivity.
  - vm_compute. reflexivity.
  - right. reflexivity.
Defined.

Lemma zero_n_validate_refused_witness :
  _fit_multi_with_validation regression_score no_estimator None identity2
    (Z.of_nat 2) (column_norms identity2) 0 true identity2 [1; 0]%float
    [1; 0]%float 0 0%float None (reshape_column [1; 0]%float)
  = Some (Fail ZeroDivisionError).
Proof.
  apply (@zero_n_validate_refused float float64 (vec float) regression_score
           no_estimator None identity2 2 (column_norms identity2) 0%Z true
           identity2 [1; 0]%float [1; 0]%float 0%float None
           (reshape_column [1; 0]%float)).
  - repeat split; repeat constructor.
  - reflexivity.
  - left; reflexivity.
  - lia.
  - cbn. lia.
  - cbn. lia.
Defined.

Lemma snapshot_is_plain_fit_witness :
  _fit_multi no_estimator None identity2 (Z.of_nat 1)
    (column_norms identity2) 0 true (reshape_column [1; 1]%float)
  = Some (Ok (snapshot no_estimator None identity2 (Z.of_nat 2)
                (column_norms identity2) 0 true
                (reshape_column [1; 1]%float) 1)).
Proof.
  apply (@snapshot_is_plain_fit float float64 no_estimator None identity2
           (column_norms identity2) 0%Z true (reshape_column [1; 1]%float)
           1 2).
  - split; [reflexivity | repeat constructor].
  - split; [reflexivity | repeat constructor].
  - reflexivity.
  - reflexivity.
  - left; reflexivity.
  - cbn. lia.
  - lia.
Defined.

Lemma zero_budget_fit_fails_witness :
  fit_regressor (regressor (PyInt 0) true None) [1; 2]%float [1; 2]%float
  = Some (Raise UnboundLocalError).
Proof.
  apply (@zero_budget_fit_fails float float64 float (list float)
           (@length float) (seq 0) linear_kernel (fun K => K) (fun _ K => K)
           regression_score reshape_column
           (regressor (PyInt 0) true None) [1; 2]%float [1; 2]%float
           [1; 2]%float).
  - reflexivity.
  - left; reflexivity.
  - reflexivity.
  - cbn. lia.
Defined.

Lemma budget_before_checkpoint_fails_witness :
  fit (@length float) (seq 0) linear_kernel (fun K => K) (fun _ K => K)
    regression_score reshape_column
    (validated_regressor (PyInt 2) 3 ([1; 2]%float, [1; 2]%float))
    [1; 2]%float [1; 2]%float
  = Some (Raise AttributeError).
Proof.
  apply (@budget_before_checkpoint_fails float float64 float (list float)
           (@length float) (seq 0) linear_kernel (fun K => K) (fun _ K => K)
           regression_score reshape_column
           (validated_regressor (PyInt 2) 3 ([1; 2]%float, [1; 2]%float))
           [1; 2]%float [1; 2]%float [1; 2]%float [1; 2]%float
           [1; 2]%float 2).
  - exact linear_kernel_shaped.
  - exact identity_preserving.
  - intros S. exact identity_preserving.
  - apply reshape_column_shaped.
  - apply reshape_column_shaped.
  - cbn. lia.
  - left; reflexivity.
  - reflexivity.
  - reflexivity.
  - reflexivity.
  - reflexivity.
  - cbn. lia.
  - cbn. lia.
Defined.

Lemma plain_fit_returns_witness :
  exists f,
    fit_regressor (regressor (PyInt 2) true None) [1; 2]%float [1; 2]%float
    = Some (Ok f) /\
    length (fitted_coef_ f) = shape1 (reshape_column [1; 2]%float) /\
    Forall (fun r => length r = length (fitted_components_ f))
           (fitted_coef_ f) /\
    (exists mask, length mask = length [1; 2]%float /\
                  fitted_components_ f = select [1; 2]%float mask).
Proof.
  apply (@plain_fit_returns float float64 float (list float)
           (@length float) (seq 0) linear_kernel (fun K => K) (fun _ K => K)
           regression_score reshape_column
           (regressor (PyInt 2) true None) [1; 2]%float [1; 2]%float
           [1; 2]%float 2).
  - exact linear_kernel_shaped.
  - exact identity_preserving.
  - apply reshape_column_shaped.
  - apply reshape_column_shaped.
  - cbn. lia.
  - left; reflexivity.
  - left; reflexivity.
  - reflexivity.
  - reflexivity.
  - cbn. lia.
Defined.

Lemma fitted_model_size_witness :
  exists f,
    fit_regressor (regressor (PyInt 2) true None) [1; 2]%float [1; 2]%float
    = Some (Ok f) /\
    length (fitted_components_ f)
    <= 2 * shape1 (reshape_column [1; 2]%float).
Proof.
  eexists. split; [vm_compute; reflexivity|].
  eapply (@fitted_model_size float float64 float (list float)
            (@length float) (seq 0) linear_kernel (fun K => K) (fun _ K => K)
            regression_score reshape_column
            (regressor (PyInt 2) true None) [1; 2]%float [1; 2]%float
            [1; 2]%float 2).
  - exact float64_laws.
  - exact linear_kernel_shaped.
  - exact identity_preserving.
  - apply reshape_column_shaped.
  - apply reshape_column_shaped.
  - reflexivity.
  - left; reflexivity.
  - reflexivity.
  - reflexivity.
  - cbn. lia.
  - vm_compute. reflexivity.
Defined.

Lemma create_components_draws_witness :
  exists (l : list nat) (idx : list nat),
    draw [10; 20; 30] [1; 2; 3]%float 2 = Ok l /\
    idx = firstn (Z.to_nat 2) (seq 0 (length [10; 20; 30])) /\
    NoDup idx /\ (forall i, In i idx -> i < length [10; 20; 30]) /\
    map Some l = map (nth_error [10; 20; 30]) idx /\
    length l = Nat.min (Z.to_nat 2) (length [10; 20; 30]).
Proof.
  apply (@create_components_draws float float64 nat (list float)
           (@length float) (seq 0) [10; 20; 30] [1; 2; 3]%float 2%Z).
  - lia.
  - cbn. lia.
  - apply seq_shuffles.
  - cbn. lia.
Defined.

Lemma create_components_short_target_witness :
  draw [10; 20; 30] [1; 2]%float 2 = Raise IndexError.
Proof.
  apply (@create_components_short_target float float64 nat (list float)
           (@length float) (seq 0) [10; 20; 30] [1; 2]%float 2%Z).
  - lia.
  - cbn. lia.
  - apply seq_shuffles.
  - cbn. lia.
Defined.

Lemma prune_keeps_nonzero_witness :
  map (filter (fun c => negb (eqb c zero)))
      (snd (prune three_components two_rows))
  = map (filter (fun c => negb (eqb c zero))) two_rows.
Proof.
  apply (@prune_keeps_nonzero float float64 nat three_components two_rows 3).
  repeat constructor.
Defined.

End FurtherOnFloat64.

Section FurtherOnReals.
Import ExactExamples ExactKernel ExactCases.
Open Scope R_scope.

Lemma select_map {A B : Type} (f : A -> B) (l : list A) (mask : list bool) :
  select (map f l) mask = map f (select l mask).
Proof.
  revert mask; induction l as [|a l IH]; intros [|b mask]; try reflexivity.
  cbn [map select]. destruct b; cbn [map]; rewrite IH; reflexivity.
Qed.

Lemma linear_kernel_columnwise : columnwise linear_kernel.
Proof.
  intros X C mask Hlen. unfold linear_kernel, columns_where. cbn.
  f_equal.
  - apply select_length. symmetry. exact Hlen.
  - rewrite map_map. apply map_ext. intro x. symmetry. apply select_map.
Qed.

Lemma line_search_optimal_witness :
  squared_error [1; 0]
    (map2 add [0; 0]
       (map (mul (line_search SquaredLoss [1; 0] [0; 0] [1; 1])) [1; 1]))
  <= squared_error [1; 0] (map2 add [0; 0] (map (mul 1) [1; 1])).
Proof.
  apply (@line_search_optimal [1; 0] [0; 0] [1; 1] 1).
  - reflexivity.
  - reflexivity.
  - cbn. unfold vsum. cbn. lra.
Defined.

Lemma line_search_orthogonal_witness :
  dot [1; 1]
    (map2 sub [1; 0]
       (map2 add [0; 0]
          (map (mul (line_search SquaredLoss [1; 0] [0; 0] [1; 1])) [1; 1])))
  = 0.
Proof.
  apply (@line_search_orthogonal [1; 0] [0; 0] [1; 1]).
  - reflexivity.
  - reflexivity.
  - cbn. unfold vsum. cbn. lra.
Defined.

Lemma prediction_is_dictionary_times_coef_witness :
  exists c p : vec R,
    nth_error (trajectory no_estimator (Some SquaredLoss) K_one
                 (Z.of_nat 1) [1] 0 false [1]) 0 = Some (c, p) /\
    p = dot_rows K_one c.
Proof.
  eexists. eexists. split; [cbn; reflexivity|].
  eapply (@prediction_is_dictionary_times_coef no_estimator
            (Some SquaredLoss) K_one (Z.of_nat 1) [1] false [1] _ _ 0%nat).
  - split; [split; [reflexivity | repeat constructor] | reflexivity].
  - reflexivity.
  - cbn. reflexivity.
Defined.

Lemma fraction_budget_accepted_witness :
  exists p k,
    _pre_fit (@length R) (seq 0) linear_kernel (fun K => K)
      (exact_regressor (PyFloat (1 / 2))) [1; 2] [1; 2] = Ok p /\
    components_ p = [1; 2] /\
    budget p = PyInt k /\
    (0 <= k <= Z.of_nat (length [1; 2]))%Z /\
    IZR k <= 1 / 2 * INR (length [1; 2]) < IZR k + 1.
Proof.
  apply (@fraction_budget_accepted R (list R) (@length R) (seq 0)
           linear_kernel (fun K => K) (exact_regressor (PyFloat (1 / 2)))
           [1; 2] [1; 2] [1; 2] (1 / 2)).
  - reflexivity.
  - lra.
  - reflexivity.
Defined.

Lemma perfect_prediction_score_witness :
  regression_score [1; 1] (map (fun v => [v]) [1; 1]) = 0 <->
  forall a b, (a < length [1; 1])%nat -> (b < length [1; 1])%nat ->
              nth a [1; 1] 0 = nth b [1; 1] 0.
Proof.
  apply (@perfect_prediction_score [1; 1]). cbn. lia.
Defined.

Lemma pruning_preserves_predictions_witness :
  decision_function linear_kernel (fun _ K => K)
    (exact_regressor (PyInt 2)) (linear_kernel [] [])
    (fst (prune [1; 2] [[0; 3]])) (snd (prune [1; 2] [[0; 3]])) [5]
  = decision_function linear_kernel (fun _ K => K)
      (exact_regressor (PyInt 2)) (linear_kernel [] [])
      [1; 2] [[0; 3]] [5].
Proof.
  apply (@pruning_preserves_predictions R (list R) linear_kernel
           (fun _ K => K) (exact_regressor (PyInt 2)) (linear_kernel [] [])
           [1; 2] (fst (prune [1; 2] [[0; 3]]))
           [[0; 3]] (snd (prune [1; 2] [[0; 3]])) [5]).
  - exact linear_kernel_columnwise.
  - reflexivity.
  - repeat constructor.
  - reflexivity.
Defined.

End FurtherOnReals.

(** ** Sparsity with refits *)

Section MaskAssign.
Context {T : Type} {N : Num T}.

Lemma scatter_off (v : vec T) (mask : list bool) (vals : vec T) (j : nat) :
  nth j mask false = false ->
  nth j (scatter v mask vals) zero = nth j v zero.
Proof.
  revert mask vals j; induction v as [|a v IH]; intros mask vals j Hj;
    [destruct mask as [|[|] mask]; reflexivity|].
  destruct mask as [|b mask]; [reflexivity|].
  destruct b.
  - destruct j as [|j]; [discriminate|]. cbn [nth] in Hj.
    cbn [scatter]. destruct vals as [|x vals]; cbn [nth]; apply IH; exact Hj.
  - cbn [scatter]. destruct j as [|j]; [reflexivity|]. cbn [nth] in *.
    apply IH. exact Hj.
Qed.

Lemma broadcast_off (v : vec T) (mask : list bool) (x : T) (j : nat) :
  length mask = length v -> nth j mask false = false ->
  nth j (map2 (fun a (b : bool) => if b then x else a) v mask) zero
  = nth j v zero.
Proof.
  revert mask j; induction v as [|a v IH]; intros mask j Hlen Hj;
    [destruct j; reflexivity|].
  destruct mask as [|b mask]; [discriminate|].
  destruct j as [|j].
  - cbn in Hj. subst b. reflexivity.
  - cbn [map2 nth] in *. apply IH; [cbn in Hlen; lia|exact Hj].
Qed.

(** [v[mask] = vals] leaves the entries outside the mask as they were. *)
Lemma mask_assign_off (v : vec T) (mask : list bool) (vals r : vec T)
    (j : nat) :
  length mask = length v -> mask_assign v mask vals = Ok r ->
  nth j mask false = false -> nth j r zero = nth j v zero.
Proof.
  intros Hlen H Hj. unfold mask_assign in H.
  destruct vals as [|x [|x' vals]].
  - destruct (Nat.eqb _ _); [|discriminate].
    inversion H; subst. apply scatter_off. exact Hj.
  - inversion H; subst. apply broadcast_off; assumption.
  - destruct (Nat.eqb _ _); [|discriminate].
    inversion H; subst. apply scatter_off. exact Hj.
Qed.

End MaskAssign.

Section RefitSparsity.
Context {T : Type} {N : Num T}.
Variable estimator : Estimator T.
Variable loss : option (Loss T).
Variable K : ndarray2 T.
Variable n_nonzero_coefs : Z.
Variable norms : vec T.
Variable n_refit : Z.
Variable check_duplicates : bool.

Local Abbreviation iteration :=
  (iteration estimator loss K norms n_refit check_duplicates).
Local Abbreviation next :=
  (next estimator loss K n_nonzero_coefs norms n_refit check_duplicates).
Local Abbreviation advance :=
  (advance estimator loss K n_nonzero_coefs norms n_refit check_duplicates).

(** What an iteration, of either branch, does to the selection and to
    the coefficients outside it. *)
Lemma iteration_selects (i : Z) (s s' : frame T) :
  length (f_selected s) = length (f_coef s) ->
  iteration i s = Ok s' ->
  exists best,
    f_selected s' = set_at (f_selected s) best true /\
    length (f_coef s') = length (f_coef s) /\
    forall j, nth j (f_selected s') false = false ->
              nth j (f_coef s') zero = nth j (f_coef s) zero.
Proof.
  intros Hlen. unfold iteration.
  destruct (select_best _ _ _) as [best|e]; [|discriminate].
  cbn [bind].
  destruct (negb (n_refit =? 0)%Z && (i mod n_refit =? 0)%Z).
  - destruct (mask_assign _ _ _) as [c|e] eqn:Hc; [|discriminate].
    cbn [bind]. intro H. inversion H; subst; clear H. cbn.
    exists best. split; [reflexivity|]. split.
    + apply mask_assign_length in Hc; [exact Hc|].
      rewrite set_at_length. lia.
    + intros j Hj. eapply mask_assign_off; [|exact Hc|exact Hj].
      rewrite set_at_length. lia.
  - intro H. inversion H; subst; clear H. cbn.
    exists best. split; [reflexivity|]. split; [apply set_at_length|].
    intros j Hj.
    destruct (Nat.eq_dec best j) as [->|Hne].
    + destruct (Nat.lt_ge_cases j (length (f_selected s))) as [Hlt|Hge].
      * rewrite nth_set_at_same in Hj by exact Hlt. discriminate.
      * rewrite !nth_overflow; [reflexivity | lia |].
        rewrite set_at_length. lia.
    + apply nth_set_at_other. exact Hne.
Qed.

(** At most [k] indices are selected after [k] iterations, and the
    coefficients outside the selection are the initial zeros. *)
Local Abbreviation thin k g :=
  (length (f_selected g) = length (f_coef g) /\
   count_true (f_selected g) <= k /\
   forall j, nth j (f_selected g) false = false ->
             nth j (f_coef g) zero = zero).

Lemma thin_next (k : nat) (g g' : frame T) (c p : vec T) :
  thin k g -> next g = Yield c p g' -> thin (S k) g'.
Proof.
  intros [Hlen [Hle Hz]] Hn.
  destruct (@next_inv T N estimator loss K n_nonzero_coefs norms n_refit
              check_duplicates g g' c p Hn)
    as [s' [Hit [_ [_ [Hc [Hs _]]]]]].
  destruct (iteration_selects _ _ Hlen Hit) as [best [Hsel [Hclen Hoff]]].
  rewrite Hc, Hs. split; [|split].
  - rewrite Hsel, set_at_length, Hclen. exact Hlen.
  - rewrite Hsel.
    pose proof (count_true_set_at_le (f_selected g) best). lia.
  - intros j Hj. rewrite (Hoff j Hj). apply Hz.
    rewrite Hsel in Hj.
    destruct (Nat.eq_dec best j) as [->|Hne].
    + destruct (Nat.lt_ge_cases j (length (f_selected g))) as [Hlt|Hge].
      * rewrite nth_set_at_same in Hj by exact Hlt. discriminate.
      * apply nth_overflow. lia.
    + rewrite nth_set_at_other in Hj by exact Hne. exact Hj.
Qed.

Lemma thin_advance (k j : nat) (g g' : frame T) :
  thin j g -> advance k g = Some g' -> thin (k + j) g'.
Proof.
  revert j g; induction k as [|k IH]; intros j g Hg Ha.
  - inversion Ha; subst. exact Hg.
  - cbn [advance] in Ha.
    destruct (next g) as [c p g1| |e] eqn:Hn; try discriminate.
    replace (S k + j) with (k + S j) by lia.
    apply (IH (S j) g1); [|exact Ha].
    eapply thin_next; eauto.
Qed.

(** X22. Refits keep the coefficients sparse: whatever the refit period,
    after iteration [k + 1] at most [k + 1] coefficients are nonzero,
    since a refit writes only the coefficients of the selected
    indices. *)
Theorem refits_stay_sparse (y c p : vec T) (k : nat) :
  NumLaws T ->
  conforming K y -> length norms = shape1 K ->
  refits_conform n_refit estimator ->
  nth_error (trajectory estimator loss K n_nonzero_coefs norms n_refit
               check_duplicates y) k = Some (c, p) ->
  count_nonzero c <= S k.
Proof.
  intros L _ _ _ Hk. unfold trajectory in Hk. apply yields_advance in Hk.
  destruct Hk as [g [Ha [-> _]]].
  assert (Hthin : thin (S k + 0) g).
  { eapply thin_advance; [|exact Ha].
    cbn [f_selected f_coef _fit_generator]. unfold zeros.
    rewrite !repeat_length, count_true_repeat_false.
    split; [reflexivity|]. split; [lia|].
    intros j _. apply nth_repeat. }
  destruct Hthin as [Hlen [Hle Hz]]. rewrite Nat.add_0_r in Hle.
  etransitivity; [|exact Hle].
  apply count_nonzero_le_selected; [exact L | congruence | exact Hz].
Qed.

End RefitSparsity.

(** ** Exact arithmetic: the greedy choice is the steepest *)

Section Steepest.
Open Scope R_scope.
Variable K : ndarray2 R.
Variable check_duplicates : bool.






End Steepest.

(** ** NaN in the correlations *)

Section FloatNan.

Lemma is_nan_spec (x : float) :
  is_nan x = true <-> Prim2SF x = S754_nan.
Proof.
  unfold is_nan. rewrite negb_true_iff, FloatAxioms.eqb_spec.
  unfold SFeqb, SFcompare.
  destruct (Prim2SF x) as [s|s| |s m e].
  - split; discriminate.
  - destruct s; split; discriminate.
  - split; reflexivity.
  - rewrite Z.compare_refl, Pos.compare_cont_refl.
    destruct s; split; discriminate.
Qed.

Lemma is_nan_false_spec (x : float) :
  is_nan x = false <-> Prim2SF x <> S754_nan.
Proof.
  rewrite <- is_nan_spec. destruct (is_nan x); split; congruence.
Qed.

End FloatNan.

Lemma float64_nan : NanLaws float.
Proof.
  split; cbn.
  - intros a b Ha. apply is_nan_spec in Ha.
    rewrite FloatAxioms.leb_spec, Ha. reflexivity.
  - intros a Ha. apply is_nan_spec in Ha.
    rewrite FloatAxioms.leb_spec, Ha. reflexivity.
  - intro a. destruct (is_nan a) eqn:Ha.
    + apply is_nan_spec in Ha. apply is_nan_spec.
      rewrite FloatAxioms.abs_spec, Ha. reflexivity.
    + apply is_nan_false_spec in Ha. apply is_nan_false_spec.
      rewrite FloatAxioms.abs_spec.
      destruct (Prim2SF a); try discriminate; congruence.
  - intros a b Ha. apply is_nan_spec in Ha. apply is_nan_spec.
    rewrite FloatAxioms.div_spec, Ha. reflexivity.
  - intros a b Hb. apply is_nan_spec in Hb. apply is_nan_spec.
    rewrite FloatAxioms.add_spec, Hb.
    destruct (Prim2SF a); reflexivity.
Qed.

Lemma exact_nan : NanLaws R.
Proof. split; cbn; intros; try discriminate; reflexivity. Qed.

Section NanWins.
Context {T : Type} {N : Num T}.
Context (L : NanLaws T).

Lemma nan_not_below (x mp : masked T) :
  masked_isnan x = true -> masked_leb x mp = false.
Proof.
  destruct x as [|v]; [discriminate|]. cbn. intro Hv.
  destruct mp as [|w]; [apply nan_leb_neg_inf | apply nan_leb]; exact Hv.
Qed.

(** The scan stops at the first NaN. *)
Lemma argmax_scan_nan (l : list (masked T)) (mp : masked T) (best i : nat) :
  (exists x, In x l /\ masked_isnan x = true) ->
  i <= argmax_scan mp best i l < i + length l /\
  masked_isnan (nth (argmax_scan mp best i l - i) l NegInf) = true.
Proof.
  revert mp best i; induction l as [|x l IH]; intros mp best i Hex.
  - destruct Hex as [x [[] _]].
  - cbn [argmax_scan length].
    destruct (masked_isnan x) eqn:Hx.
    + rewrite (nan_not_below x mp Hx). cbn [negb].
      split; [lia|]. rewrite Nat.sub_diag. exact Hx.
    + assert (Hex' : exists x0, In x0 l /\ masked_isnan x0 = true).
      { destruct Hex as [x0 [[->|Hin] Hn]]; [congruence|eauto]. }
      destruct (negb (masked_leb x mp)).
      * destruct (IH x i (S i) Hex') as [Hr Hn]. split; [lia|].
        replace (argmax_scan x i (S i) l - i)
          with (S (argmax_scan x i (S i) l - S i)) by lia.
        exact Hn.
      * destruct (IH mp best (S i) Hex') as [Hr Hn]. split; [lia|].
        replace (argmax_scan mp best (S i) l - i)
          with (S (argmax_scan mp best (S i) l - S i)) by lia.
        exact Hn.
Qed.

Lemma argmax_nan (l : list (masked T)) :
  (exists x, In x l /\ masked_isnan x = true) ->
  exists b, argmax l = Ok b /\ b < length l /\
            masked_isnan (nth b l NegInf) = true.
Proof.
  destruct l as [|x l]; [intros [x [[] _]]|].
  intros Hex. cbn [argmax].
  destruct (masked_isnan x) eqn:Hx.
  - exists 0. split; [reflexivity|]. split; [cbn; lia|exact Hx].
  - assert (Hex' : exists x0, In x0 l /\ masked_isnan x0 = true).
    { destruct Hex as [x0 [[->|Hin] Hn]]; [congruence|eauto]. }
    destruct (argmax_scan_nan l x 0 1 Hex') as [Hr Hn].
    eexists. split; [reflexivity|]. split; [cbn [length]; lia|].
    destruct (argmax_scan x 0 1 l) as [|r]; [lia|].
    cbn [nth]. replace (S r - 1) with r in Hn by lia. exact Hn.
Qed.

End NanWins.

Section NanPoisons.
Context {T : Type} {N : Num T}.
Variable estimator : Estimator T.
Variable K : ndarray2 T.
Variable norms : vec T.
Variable check_duplicates : bool.

(** X24. A NaN among the normalised correlations of the first iteration
    wins the selection and ends up in the coefficients: in no-loss mode
    without refit, the first coefficient vector yielded holds a NaN. *)
Theorem nan_correlation_poisons (n : Z) (y : vec T) (j : nat) :
  NanLaws T ->
  conforming K y -> length norms = shape1 K ->
  (1 <= n)%Z -> j < shape1 K ->
  isnan (nth j (correlations K norms y) zero) = true ->
  exists c p rest b,
    trajectory estimator None K n norms 0 check_duplicates y
    = (c, p) :: rest /\
    b < shape1 K /\ isnan (nth b c zero) = true.
Proof.
  intros L _ Hn Hpos Hj Hnan.
  set (dots := correlations K norms y) in *.
  assert (Hdots : length dots = shape1 K)
    by (subst dots; apply correlations_length; exact Hn).
  set (selected := repeat false (shape1 K)).
  assert (Hsel : length selected = length dots)
    by (subst selected; rewrite repeat_length; lia).
  assert (Hbest : exists b,
             select_best check_duplicates dots selected = Ok b /\
             b < shape1 K /\ isnan (nth b dots zero) = true).
  { unfold select_best.
    destruct (@argmax_nan T N L
                (if check_duplicates
                 then mask_neg_inf (map abs dots) selected
                 else map (@Val T) (map abs dots)))
      as [b [Hb [Hlt Hbn]]].
    - exists (nth j (if check_duplicates
                     then mask_neg_inf (map abs dots) selected
                     else map (@Val T) (map abs dots)) NegInf).
      split.
      + apply nth_In. rewrite best_scores_length by exact Hsel. lia.
      + rewrite best_scores_nth by (exact Hsel || lia).
        subst selected. rewrite nth_repeat, andb_false_r. cbn.
        rewrite nan_abs. exact Hnan.
    - rewrite best_scores_length in Hlt by exact Hsel.
      exists b. split; [exact Hb|]. split; [lia|].
      rewrite best_scores_nth in Hbn by (exact Hsel || lia).
      subst selected. rewrite nth_repeat, andb_false_r in Hbn. cbn in Hbn.
      rewrite nan_abs in Hbn. exact Hbn. }
  destruct Hbest as [b [Hb [Hlt Hbn]]].
  unfold trajectory, budget_fuel.
  destruct (Z.to_nat n) as [|m] eqn:Hm; [lia|].
  cbn [yields]. unfold next. cbn [f_i _fit_generator].
  destruct (Z.ltb_spec n 1); [lia|].
  unfold iteration.
  cbn [f_y f_y_pred f_residuals f_selected f_coef _fit_generator].
  fold dots. fold selected. rewrite Hb. cbn [bind Z.eqb negb andb].
  cbn [f_coef f_y_pred].
  eexists. eexists. eexists. exists b.
  split; [reflexivity|]. split; [exact Hlt|].
  rewrite nth_set_at_same by (unfold zeros; rewrite repeat_length; exact Hlt).
  apply nan_add. apply nan_div. exact Hbn.
Qed.

End NanPoisons.

Section ZeroColumn.

Local Abbreviation is_zero x := (exists s, Prim2SF x = S754_zero s).

Lemma finite_spec (v : float) :
  is_finite v = true ->
  (exists s, Prim2SF v = S754_zero s) \/
  (exists s m e, Prim2SF v = S754_finite s m e).
Proof.
  unfold is_finite, is_infinity. rewrite negb_true_iff, orb_false_iff.
  intros [Hn Hi]. apply is_nan_false_spec in Hn.
  rewrite FloatAxioms.eqb_spec, FloatAxioms.abs_spec in Hi.
  destruct (Prim2SF v) as [s|s| |s m e]; eauto.
  - destruct s; discriminate.
  - congruence.
Qed.

Lemma eqb_zero_spec (x : float) :
  (x =? 0)%float = true -> exists s, Prim2SF x = S754_zero s.
Proof.
  rewrite FloatAxioms.eqb_spec.
  change (Prim2SF 0) with (S754_zero false).
  unfold SFeqb, SFcompare.
  destruct (Prim2SF x) as [s|s| |s m e]; eauto; try discriminate;
    destruct s; discriminate.
Qed.

Lemma mul_zero_finite (c v : float) :
  is_zero c -> is_finite v = true -> is_zero (c * v)%float.
Proof.
  intros [s Hc] Hv. rewrite FloatAxioms.mul_spec, Hc.
  destruct (finite_spec v Hv) as [[s' ->]|[s' [m [e ->]]]]; eexists;
    reflexivity.
Qed.

Lemma mul_zero_zero (c : float) : is_zero c -> is_zero (c * c)%float.
Proof.
  intros [s Hc]. rewrite FloatAxioms.mul_spec, Hc. eexists. reflexivity.
Qed.

Lemma sum_of_zeros (l : list float) (acc : float) :
  Prim2SF acc = S754_zero false -> Forall (fun x => is_zero x) l ->
  Prim2SF (fold_left PrimFloat.add l acc) = S754_zero false.
Proof.
  revert acc; induction l as [|x l IH]; intros acc Hacc Hl; [exact Hacc|].
  inversion Hl as [|? ? [s Hx] Hl']; subst. cbn [fold_left]. apply IH.
  - rewrite FloatAxioms.add_spec, Hacc, Hx. destruct s; reflexivity.
  - exact Hl'.
Qed.

Lemma dot_zero_column (col y : list float) :
  Forall (fun c => is_zero c) col -> Forall (fun v => is_finite v = true) y ->
  Prim2SF (dot col y) = S754_zero false.
Proof.
  intros Hc Hy. unfold dot, vsum. cbn [add zero float64].
  apply sum_of_zeros; [reflexivity|].
  revert y Hy; induction Hc as [|c col Hc0 _ IH]; intros y Hy;
    [constructor|].
  destruct y as [|v y]; [constructor|].
  inversion Hy; subst. cbn [map2]. constructor.
  - cbn [mul float64]. apply mul_zero_finite; assumption.
  - apply IH. assumption.
Qed.

Lemma norm_zero_column (col : list float) :
  Forall (fun c => is_zero c) col ->
  Prim2SF (PrimFloat.sqrt (vsum (map (fun k => mul k k) col)))
  = S754_zero false.
Proof.
  intro Hc. rewrite FloatAxioms.sqrt_spec.
  unfold vsum. cbn [add zero float64].
  rewrite sum_of_zeros; [reflexivity | reflexivity |].
  induction Hc as [|c col Hc0 _ IH]; cbn [map]; constructor;
    [apply mul_zero_zero; exact Hc0 | exact IH].
Qed.

(** X25. On binary64 a zero column of the dictionary has the correlation
    [0 / 0]: with a finite target, the normalised correlation of a
    column whose entries are all zero is NaN, the division by its norm
    being unguarded. *)
Theorem zero_column_is_nan (K : ndarray2 float) (y : vec float) (j : nat) :
  well_shaped K -> length y = shape0 K ->
  j < shape1 K ->
  Forall (fun r => eqb (nth j r zero) zero = true) (rows K) ->
  Forall (fun v => is_finite v = true) y ->
  isnan (nth j (correlations K (column_norms K) y) zero) = true.
Proof.
  intros _ _ Hj Hcol Hy.
  assert (Hzero : Forall (fun c => is_zero c) (column K j)).
  { unfold column. apply Forall_forall. intros c Hc.
    apply in_map_iff in Hc. destruct Hc as [r [<- Hr]].
    rewrite Forall_forall in Hcol. apply eqb_zero_spec.
    apply (Hcol r Hr). }
  unfold correlations.
  rewrite (@map2_nth float float float div (dot_T K y) (column_norms K) j
             zero zero zero).
  - unfold dot_T, column_norms.
    rewrite (nth_map_seq (fun j => dot (column K j) y) zero Hj).
    rewrite (nth_map_seq
               (fun j => sqrt (vsum (map (fun k => mul k k) (column K j))))
               zero Hj).
    cbn [isnan div sqrt float64]. apply is_nan_spec.
    rewrite FloatAxioms.div_spec.
    rewrite (dot_zero_column Hzero Hy), (norm_zero_column Hzero).
    reflexivity.
  - unfold dot_T. rewrite length_map, length_seq. exact Hj.
  - rewrite column_norms_length. exact Hj.
Qed.

End ZeroColumn.

(** ** These properties on concrete inputs *)

Section MoreOnFloat64.
Import Float64Examples Float64Cases.

Lemma unit_estimator_conforms : refits_conform 1 unit_estimator.
Proof.
  right. split; intros Ks y; cbn; apply repeat_length.
Qed.

Lemma refits_stay_sparse_witness :
  exists c p,
    nth_error (trajectory unit_estimator None identity2 2
                 (column_norms identity2) 1 true [1; 1]%float) 1
    = Some (c, p) /\
    count_nonzero c <= 2.
Proof.
  eexists. eexists. split; [vm_compute; reflexivity|].
  eapply (@refits_stay_sparse float float64 unit_estimator None identity2
            2%Z (column_norms identity2) 1%Z true [1; 1]%float _ _ 1).
  - exact float64_laws.
  - apply identity2_conforms. reflexivity.
  - reflexivity.
  - exact unit_estimator_conforms.
  - vm_compute. reflexivity.
Defined.

Lemma nan_correlation_poisons_witness :
  exists c p rest b,
    trajectory no_estimator None K_gap 1 (column_norms K_gap) 0 true
      [1; 2]%float
    = (c, p) :: rest /\
    b < shape1 K_gap /\ isnan (nth b c zero) = true.
Proof.
  apply (@nan_correlation_poisons float float64 no_estimator K_gap
           (column_norms K_gap) true 1%Z [1; 2]%float 1).
  - exact float64_nan.
  - split; [split; [reflexivity | repeat constructor] | reflexivity].
  - reflexivity.
  - lia.
  - cbn. lia.
  - vm_compute. reflexivity.
Defined.

Lemma zero_column_is_nan_witness :
  isnan (nth 1 (correlations K_gap (column_norms K_gap) [1; 2]%float) zero)
  = true.
Proof.
  apply (@zero_column_is_nan K_gap [1; 2]%float 1).
  - split; [reflexivity | repeat constructor].
  - reflexivity.
  - cbn. lia.
  - repeat constructor.
  - repeat constructor.
Defined.

End MoreOnFloat64.

Section MoreOnReals.
Import ExactExamples.
Open Scope R_scope.


End MoreOnReals.
